(** * Prioritized DCI (dci-knn): the utility layer and the query engine

    A shallow embedding of [src/util.c] ([matmul], [gen_data],
    [compute_dist], [rand_normal], [print_matrix]) and of the index of
    [include/dci.h], with the properties the specification states about
    them and further properties of the utility layer.

    Numbers.  The C code computes on [double].  The arithmetic the code uses
    is collected in the interface [Double]; the functions are written once,
    over any instance.  Two instances are given: IEEE binary64 ([float], the
    kernel's primitive floats, on which the functions run), and the real
    numbers ([R], the idealisation in which order and field facts are
    proved). *)

From Stdlib Require Import ZArith List Bool Lia Reals Lra Ascii.
From Stdlib Require Import Permutation Sorted.
From Stdlib Require PrimFloat Uint63.
Import ListNotations.

Set Implicit Arguments.

(* ================================================================== *)
(** * The arithmetic of [double] *)
(* ================================================================== *)

(** The operations of C's [double] that the sources use: conversion of an
    [int] literal, the four operations, [sqrt] and the comparisons. *)
Class Double (D : Type) : Type := {
  dofZ  : Z -> D;
  dadd  : D -> D -> D;
  dsub  : D -> D -> D;
  dmul  : D -> D -> D;
  ddiv  : D -> D -> D;
  dsqrt : D -> D;
  dabs  : D -> D;
  dltb  : D -> D -> bool;
  dleb  : D -> D -> bool;
  deqb  : D -> D -> bool
}.

(** [log] of math.h, which is not an IEEE operation and is kept apart. *)
Class Libm (D : Type) : Type := {
  dlog : D -> D
}.

Declare Scope double_scope.
Delimit Scope double_scope with D.
Infix "+" := dadd : double_scope.
Infix "-" := dsub : double_scope.
Infix "*" := dmul : double_scope.
Infix "/" := ddiv : double_scope.
Infix "<?" := dltb : double_scope.
Infix "<=?" := dleb : double_scope.
Infix "=?" := deqb : double_scope.

(** [a >= b] of C on doubles. *)
Definition dgeb {D} `{Double D} (a b : D) : bool := dleb b a.
Infix ">=?" := dgeb (at level 70) : double_scope.

(** ** Instance: the reals *)

Definition Rltb (a b : R) : bool := if Rlt_dec a b then true else false.
Definition Rleb (a b : R) : bool := if Rle_dec a b then true else false.
Definition Reqb (a b : R) : bool := if Req_dec_T a b then true else false.

#[export] Instance Double_R : Double R := {|
  dofZ := IZR;
  dadd := Rplus;
  dsub := Rminus;
  dmul := Rmult;
  ddiv := Rdiv;
  dsqrt := sqrt;
  dabs := Rabs;
  dltb := Rltb;
  dleb := Rleb;
  deqb := Reqb
|}.

#[export] Instance Libm_R : Libm R := {| dlog := ln |}.

(** ** Instance: IEEE binary64 *)

Definition float_of_Z (z : Z) : PrimFloat.float :=
  match z with
  | Z0 => PrimFloat.of_uint63 (Uint63.of_Z 0)
  | Zpos _ => PrimFloat.of_uint63 (Uint63.of_Z z)
  | Zneg _ => PrimFloat.opp (PrimFloat.of_uint63 (Uint63.of_Z (Z.opp z)))
  end.

#[export] Instance Double_float : Double PrimFloat.float := {|
  dofZ := float_of_Z;
  dadd := PrimFloat.add;
  dsub := PrimFloat.sub;
  dmul := PrimFloat.mul;
  ddiv := PrimFloat.div;
  dsqrt := PrimFloat.sqrt;
  dabs := PrimFloat.abs;
  dltb := PrimFloat.ltb;
  dleb := PrimFloat.leb;
  deqb := PrimFloat.eqb
|}.

(** ** What the proofs about order use

    The comparisons decide a total order.  It holds of [R]; of binary64 it
    holds away from NaN and the two zeros. *)
Class DoubleOrder (D : Type) {HD : Double D} : Prop := {
  dleb_refl    : forall a : D, dleb a a = true;
  dleb_trans   : forall a b c : D, dleb a b = true -> dleb b c = true -> dleb a c = true;
  dleb_antisym : forall a b : D, dleb a b = true -> dleb b a = true -> a = b;
  dleb_total   : forall a b : D, dleb a b = true \/ dleb b a = true;
  dltb_dleb    : forall a b : D, dltb a b = negb (dleb b a);
  deqb_eq      : forall a b : D, deqb a b = true <-> a = b;
  dofZ_le      : forall a b : Z, dleb (dofZ a) (dofZ b) = true <-> (a <= b)%Z
}.

(* ================================================================== *)
(** * util.c *)
(* ================================================================== *)

(** A C array of doubles is a list; [a[i]] reads it, and a read outside the
    array (undefined in C) yields 0.0 here.  [p + off] on a pointer drops the
    first [off] cells. *)
Definition rd {D} `{Double D} (a : list D) (i : Z) : D :=
  if (i <? 0)%Z then dofZ 0 else nth (Z.to_nat i) a (dofZ 0).

Definition ptr_add {D} (a : list D) (off : Z) : list D :=
  skipn (Z.to_nat off) a.

Section ComputeDist.
Context {D : Type} `{Double D}.
Local Open Scope double_scope.

(** The loop of [compute_dist]: [for (i = ...; i < dim; i++) sq_dist += ...],
    entered with [n] iterations left. *)
Fixpoint compute_dist_loop (vec1 vec2 : list D) (n : nat) (i : Z) (sq_dist : D) : D :=
  match n with
  | O => sq_dist
  | S n' =>
      compute_dist_loop vec1 vec2 n' (i + 1)%Z
        (sq_dist + (rd vec1 i - rd vec2 i) * (rd vec1 i - rd vec2 i))
  end.

(** [double compute_dist(const double* vec1, const double* vec2, int dim)] *)
Definition compute_dist (vec1 vec2 : list D) (dim : Z) : D :=
  let sq_dist := dofZ 0 in
  dsqrt (compute_dist_loop vec1 vec2 (Z.to_nat dim) 0%Z sq_dist).

(** The sum of [f 0], ..., [f (n-1)], added in this order from 0.0. *)
Fixpoint dsum (f : nat -> D) (n : nat) : D :=
  match n with
  | O => dofZ 0
  | S n' => dsum f n' + f n'
  end.

(** The squared difference of the [i]-th coordinates. *)
Definition sq_diff (vec1 vec2 : list D) (i : nat) : D :=
  (rd vec1 (Z.of_nat i) - rd vec2 (Z.of_nat i))
  * (rd vec1 (Z.of_nat i) - rd vec2 (Z.of_nat i)).

(** The Euclidean distance as the specification writes it. *)
Definition euclidean_dist (vec1 vec2 : list D) (dim : Z) : D :=
  dsqrt (dsum (sq_diff vec1 vec2) (Z.to_nat dim)).

End ComputeDist.

(** ** [matmul] and the BLAS routine it calls *)

(** The Fortran interface of DGEMM declared in [util.h]:
    [DGEMM(transa, transb, m, n, k, alpha, A, lda, B, ldb, beta, C, ldc)].
    The routine writes into [C]; here it returns the array [C] after the
    call. *)
Definition DGEMM_t (D : Type) : Type :=
  ascii -> ascii -> Z -> Z -> Z -> D -> list D -> Z -> list D -> Z -> D ->
  list D -> Z -> list D.

Section Matmul.
Context {D : Type} `{Double D}.
Variable DGEMM : DGEMM_t D.

(** [void matmul(M, N, K, A, B, C)]: "Assuming column-major layout,
    computes A^T * B. A is K x M, B is K x N, and C is M x N." *)
Definition matmul (M N K : Z) (A B C : list D) : list D :=
  let TRANSA := "T"%char in
  let TRANSB := "N"%char in
  let ALPHA := dofZ 1 in
  let BETA := dofZ 0 in
  let LDA := K in
  let LDB := K in
  let LDC := M in
  DGEMM TRANSA TRANSB M N K ALPHA A LDA B LDB BETA C LDC.

End Matmul.

Section DgemmSemantics.
Context {D : Type} `{Double D}.
Local Open Scope double_scope.

(** Entry (i, l) of op(A), an m x k matrix: [A] itself when [transa] is
    'N', its transpose when it is 'T'; column-major with leading dimension
    [lda]. *)
Definition dgemm_opA (transa : ascii) (A : list D) (lda : Z) (i l : Z) : D :=
  if Ascii.eqb transa "N"%char then rd A (i + l * lda)%Z else rd A (l + i * lda)%Z.

(** Entry (l, j) of op(B), a k x n matrix. *)
Definition dgemm_opB (transb : ascii) (B : list D) (ldb : Z) (l j : Z) : D :=
  if Ascii.eqb transb "N"%char then rd B (l + j * ldb)%Z else rd B (j + l * ldb)%Z.

(** The inner product of row i of op(A) and column j of op(B). *)
Definition dgemm_dot (transa transb : ascii) (k : Z) (A : list D) (lda : Z)
    (B : list D) (ldb : Z) (i j : Z) : D :=
  dsum (fun l => dgemm_opA transa A lda i (Z.of_nat l)
                 * dgemm_opB transb B ldb (Z.of_nat l) j) (Z.to_nat k).

(** The value DGEMM leaves at C(i, j): alpha * op(A) * op(B) + beta * C. *)
Definition dgemm_entry (transa transb : ascii) (k : Z) (alpha : D) (A : list D)
    (lda : Z) (B : list D) (ldb : Z) (beta : D) (C : list D) (ldc : Z) (i j : Z) : D :=
  alpha * dgemm_dot transa transb k A lda B ldb i j + beta * rd C (i + j * ldc)%Z.

(** A reference DGEMM: every cell of [C] that holds an entry (i, j) with
    i < m and j < n receives [dgemm_entry]; the others are kept. *)
Definition dgemm_ref : DGEMM_t D :=
  fun transa transb m n k alpha A lda B ldb beta C ldc =>
    map (fun idx : nat =>
           let i := (Z.of_nat idx mod ldc)%Z in
           let j := (Z.of_nat idx / ldc)%Z in
           if ((0 <? ldc)%Z && (i <? m)%Z && (j <? n)%Z)%bool
           then dgemm_entry transa transb k alpha A lda B ldb beta C ldc i j
           else rd C (Z.of_nat idx))
        (seq 0 (length C)).

End DgemmSemantics.

(** The contract of the BLAS routine (its documentation): for legal
    transposition flags and shapes, the call leaves
    alpha * op(A) * op(B) + beta * C in the m x n block of [C]. *)
Definition dgemm_legal (transa transb : ascii) (m n k : Z) (lenA : nat) (lda : Z)
    (lenB : nat) (ldb : Z) (lenC : nat) (ldc : Z) : Prop :=
  (transa = "N"%char \/ transa = "T"%char) /\
  (transb = "N"%char \/ transb = "T"%char) /\
  (0 <= m)%Z /\ (0 <= n)%Z /\ (0 <= k)%Z /\
  ((if Ascii.eqb transa "N"%char then m else k) <= lda)%Z /\
  ((if Ascii.eqb transb "N"%char then k else n) <= ldb)%Z /\
  (m <= ldc)%Z /\
  (lda * (if Ascii.eqb transa "N"%char then k else m) <= Z.of_nat lenA)%Z /\
  (ldb * (if Ascii.eqb transb "N"%char then n else k) <= Z.of_nat lenB)%Z /\
  (ldc * n <= Z.of_nat lenC)%Z.

Definition dgemm_contract (DGEMM : DGEMM_t R) : Prop :=
  forall transa transb m n k alpha A lda B ldb beta C ldc,
    dgemm_legal transa transb m n k (length A) lda (length B) ldb (length C) ldc ->
    length (DGEMM transa transb m n k alpha A lda B ldb beta C ldc) = length C /\
    forall i j, (0 <= i < m)%Z -> (0 <= j < n)%Z ->
      rd (DGEMM transa transb m n k alpha A lda B ldb beta C ldc) (i + j * ldc)%Z
      = dgemm_entry transa transb k alpha A lda B ldb beta C ldc i j.

(** ** [rand_normal] *)

(** The function's [static] variables, which live across calls. *)
Record rn_static (D : Type) : Type := mk_rn_static {
  rn_V1 : D;
  rn_V2 : D;
  rn_S : D;
  rn_phase : Z
}.
Arguments mk_rn_static {D} _ _ _ _.

Section RandNormal.
Context {D : Type} `{Double D} `{Libm D}.
Local Open Scope double_scope.

(** The statics at program start: [phase = 0]; the doubles are
    zero-initialised. *)
Definition rn_init : rn_static D :=
  mk_rn_static (dofZ 0) (dofZ 0) (dofZ 0) 0%Z.

(** [drand48] is the C library's generator.  Its future outputs are given
    as a list: each call takes the head.  The [do ... while] loop ends with
    the values it leaves in [V1], [V2], [S] and with the draws not yet
    taken, or with [None] when the supply ends before a pair is accepted. *)
Fixpoint rand_normal_loop (draws : list D) : option (D * D * D * list D) :=
  match draws with
  | U1 :: U2 :: rest =>
      let v1 := dofZ 2 * U1 - dofZ 1 in
      let v2 := dofZ 2 * U2 - dofZ 1 in
      let s := v1 * v1 + v2 * v2 in
      if ((s >=? dofZ 1) || (s =? dofZ 0))%bool then rand_normal_loop rest
      else Some (v1, v2, s, rest)
  | _ => None
  end.

(** The argument of [sqrt] in both branches: [-2 * log(S) / S]. *)
Definition rn_sqrt_arg (s : D) : D := dofZ (-2) * dlog s / s.

(** [double rand_normal()]: the value returned, the statics and the draws
    left after the call. *)
Definition rand_normal (st : rn_static D) (draws : list D)
    : option (D * rn_static D * list D) :=
  if (rn_phase st =? 0)%Z then
    match rand_normal_loop draws with
    | Some (v1, v2, s, rest) =>
        let X := v1 * dsqrt (rn_sqrt_arg s) in
        Some (X, mk_rn_static v1 v2 s (1 - rn_phase st)%Z, rest)
    | None => None
    end
  else
    let X := rn_V2 st * dsqrt (rn_sqrt_arg (rn_S st)) in
    Some (X, mk_rn_static (rn_V1 st) (rn_V2 st) (rn_S st) (1 - rn_phase st)%Z, draws).

(** [n] calls in a row, with the values they return. *)
Fixpoint rand_normal_n (n : nat) (st : rn_static D) (draws : list D)
    : option (list D * rn_static D * list D) :=
  match n with
  | O => Some ([], st, draws)
  | S n' =>
      match rand_normal st draws with
      | Some (x, st1, d1) =>
          match rand_normal_n n' st1 d1 with
          | Some (xs, st2, d2) => Some (x :: xs, st2, d2)
          | None => None
          end
      | None => None
      end
  end.

(** The static states a program can be in: the initial one, and those a
    returning call leaves. *)
Inductive rn_reachable : rn_static D -> Prop :=
| rn_reach_init : rn_reachable rn_init
| rn_reach_call : forall st draws x st' rest,
    rn_reachable st ->
    rand_normal st draws = Some (x, st', rest) ->
    rn_reachable st'.

End RandNormal.

(** The pairs of draws the loop of [rand_normal] goes through and rejects:
    those whose [S] has [S >= 1 || S == 0]. *)
Inductive rn_rejected {D : Type} `{Double D} : list D -> Prop :=
| rn_rejected_nil : rn_rejected []
| rn_rejected_pair : forall U1 U2 l,
    (let v1 := dsub (dmul (dofZ 2) U1) (dofZ 1) in
     let v2 := dsub (dmul (dofZ 2) U2) (dofZ 1) in
     let s := dadd (dmul v1 v1) (dmul v2 v2) in
     (dgeb s (dofZ 1) || deqb s (dofZ 0))%bool = true) ->
    rn_rejected l ->
    rn_rejected (U1 :: U2 :: l).

(** Entry (i, j) of A^T B for a column-major K x M matrix [A] and a
    column-major K x N matrix [B]: the sum over l < K of A(l, i) * B(l, j). *)
Definition At_B_entry {D : Type} `{Double D} (K : Z) (A B : list D) (i j : Z) : D :=
  dsum (fun l => dmul (rd A (Z.of_nat l + i * K)%Z) (rd B (Z.of_nat l + j * K)%Z))
       (Z.to_nat K).

(* ================================================================== *)
(** * dci.h: the data model *)
(* ================================================================== *)

(** [struct idx_elem]: one cell of a position file. *)
Record idx_elem (D : Type) : Type := mk_idx_elem {
  key : D;
  local_value : Z;
  global_value : Z
}.

(** [struct range] *)
Record range : Type := mk_range {
  start : Z;
  num : Z
}.

(** [struct dci].  [indices] holds, per level, the position files of the
    level's [num_comp_indices * num_simp_indices] simple indices, those of
    composite index 0 first; [proj_vec] is the column-major
    [dim x (num_comp_indices * num_simp_indices)] projection bank; [data] is
    the caller's array, column-major [dim x num_points]. *)
Record dci (D : Type) : Type := mk_dci {
  dim : Z;
  num_comp_indices : Z;
  num_simp_indices : Z;
  num_points : Z;
  num_levels : Z;
  num_coarse_points : Z;
  indices : list (list (list (idx_elem D)));
  proj_vec : list D;
  data : list D;
  next_level_ranges : list (list range);
  num_finest_level_points : list (list Z)
}.

(** [struct dci_query_config] *)
Record dci_query_config (D : Type) : Type := mk_dci_query_config {
  blind : bool;
  num_to_visit : Z;
  num_to_retrieve : Z;
  prop_to_visit : D;
  prop_to_retrieve : D;
  field_of_view : Z;
  min_num_finest_level_points : Z
}.

(* ================================================================== *)
(** * Lists: selection and sorting *)
(* ================================================================== *)

(** The best element of a list for a strict preference [better], with the
    other elements; of several best ones, the first. *)
Fixpoint extract_best {A : Type} (better : A -> A -> bool) (l : list A)
    : option (A * list A) :=
  match l with
  | [] => None
  | x :: l' =>
      match extract_best better l' with
      | None => Some (x, [])
      | Some (b, r) => if better b x then Some (b, x :: r) else Some (x, l')
      end
  end.

(** Insertion sort for a comparison [leb]. *)
Fixpoint insert_by {A : Type} (leb : A -> A -> bool) (x : A) (l : list A) : list A :=
  match l with
  | [] => [x]
  | y :: l' => if leb x y then x :: l else y :: insert_by leb x l'
  end.

Definition sort_by {A : Type} (leb : A -> A -> bool) (l : list A) : list A :=
  fold_right (insert_by leb) [] l.

(** [l[i]] for an [int] index, [d] outside the list. *)
Definition nthZ {A : Type} (l : list A) (i : Z) (d : A) : A :=
  if (i <? 0)%Z then d else nth (Z.to_nat i) l d.

(** The sum of the first [n] values of [g]. *)
Fixpoint sumn (g : nat -> nat) (n : nat) : nat :=
  match n with
  | O => O
  | S n' => (sumn g n' + g n')%nat
  end.

(* ================================================================== *)
(** * The query engine (dci.c, specification section 4.2) *)
(* ================================================================== *)

(** The file dci.c is not among the sources; the engine is written here from
    the words of the specification (section 4.2) over the structures of
    dci.h.  It is the engine of one level. *)

Section QueryEngine.
Context {D : Type} `{Double D}.
Local Open Scope double_scope.

(** ** The termination budget *)

(** C's [max] on doubles. *)
Definition dmax (a b : D) : D := if dltb a b then b else a.

(** Modelled from the spec: the effective cap of one axis, which dci.c
    computes from the two forms of the configuration.  "A cap is active if it
    is >= 0 (absolute) or > 0 (fractional); the effective cap is max(active
    forms)"; dci.h: "max(num_visited, prop_visited*num_points)".  [None]: no
    form is active and the axis never fires. *)
Definition effective_cap (num : Z) (prop : D) (N : Z) : option D :=
  match (0 <=? num)%Z, dltb (dofZ 0) prop with
  | true, true => Some (dmax (dofZ num) (prop * dofZ N))
  | true, false => Some (dofZ num)
  | false, true => Some (prop * dofZ N)
  | false, false => None
  end.

Definition visit_cap (cfg : dci_query_config D) (N : Z) : option D :=
  effective_cap (num_to_visit cfg) (prop_to_visit cfg) N.

Definition retrieve_cap (cfg : dci_query_config D) (N : Z) : option D :=
  effective_cap (num_to_retrieve cfg) (prop_to_retrieve cfg) N.

(** Modelled from the spec: the test of a counter against its cap, made in
    dci.c between iterations. *)
Definition cap_reached (count : Z) (cap : option D) : bool :=
  match cap with
  | Some c => dleb c (dofZ count)
  | None => false
  end.

(** ** Candidate evaluation *)

(** Modelled from the spec: the per-query state of the loop of dci.c.  What a
    query has evaluated so far: the points promoted for the first time, in
    promotion order (the output list of blind mode); the two counters; the
    retrieved set (the bounded max-heap of the specification, as the bag of
    its pairs of a distance and a point).  "The retrieved counter counts
    distinct promoted points; the visited counter counts pops." *)
Record eval_state : Type := mk_eval {
  ev_order : list Z;
  ev_visited : Z;
  ev_retrieved : Z;
  ev_heap : list (D * Z)
}.

(** [a] is strictly farther than [b]. *)
Definition farther (a b : D * Z) : bool := dltb (fst b) (fst a).

(** [a] is at most as far as [b]. *)
Definition closer (a b : D * Z) : bool := dleb (fst a) (fst b).

(** Modelled from the spec: the insertion into the retrieved set, part of
    the query loop of dci.c.  "inserts it into a bounded max-heap of size k;
    if the heap was already full and the new distance is not smaller than the
    worst kept, the point is ... not kept." *)
Definition heap_insert (k : Z) (x : D * Z) (h : list (D * Z)) : list (D * Z) :=
  if (Z.of_nat (length h) <? k)%Z then x :: h
  else
    match extract_best farther h with
    | Some (worst, rest) => if dltb (fst x) (fst worst) then x :: rest else h
    | None => h
    end.

Definition seen_before (p : Z) (order : list Z) : bool := existsb (Z.eqb p) order.

(** Modelled from the spec: the count of a pop, part of the query loop of
    dci.c.  "the visited counter counts pops". *)
Definition count_pop (ev : eval_state) : eval_state :=
  mk_eval (ev_order ev) (ev_visited ev + 1)%Z (ev_retrieved ev) (ev_heap ev).

(** Modelled from the spec: the evaluation of a promoted point, part of the
    query loop of dci.c.  "Each time a point is promoted by any composite for
    the first time in this query, the engine ... computes the true Euclidean
    distance in ambient space between the query and the point (using the raw
    data array), inserts it into a bounded max-heap of size k"; the point
    is counted as retrieved also when it is not kept.  In blind mode "no
    distance is computed; promoted points are simply appended to an output
    list in promotion order.  Duplicates are suppressed."  Of the two
    sentences of the specification on the visited counter (it is
    incremented at a first promotion; it "counts pops") the second, which
    tells the two counters apart, is followed: see [count_pop]. *)
Definition evaluate (is_blind : bool) (k dim : Z) (data query : list D)
    (p : Z) (ev : eval_state) : eval_state :=
  if seen_before p (ev_order ev) then ev
  else
    mk_eval (ev_order ev ++ [p]) (ev_visited ev) (ev_retrieved ev + 1)%Z
      (if is_blind then ev_heap ev
       else heap_insert k (compute_dist (ptr_add data (p * dim)%Z) query dim, p)
                        (ev_heap ev)).

(** ** The priority queue of a composite index *)

(** The direction an iterator advances in: toward larger keys or toward
    smaller keys. *)
Inductive direction : Type := Up | Down.

(** Modelled from the spec: an entry of the priority queue of dci.c, "one
    candidate step of one iterator", keyed on the gap |projected key - query
    projection|; it names the simple index, the direction, the position in
    the position file and the point there. *)
Record pq_entry : Type := mk_pq_entry {
  e_gap : D;
  e_simp : Z;
  e_dir : direction;
  e_pos : Z;
  e_point : Z
}.

Definition dir_before (a b : direction) : bool :=
  match a, b with
  | Up, Down => true
  | _, _ => false
  end.

(** Modelled from the spec: the order of the queue of dci.c.  Smallest gap
    first; "when two priority-queue entries have equal gap, break ties by
    simple-index id, then by direction (toward larger keys first)." *)
Definition entry_before (a b : pq_entry) : bool :=
  dltb (e_gap a) (e_gap b)
  || (negb (dltb (e_gap b) (e_gap a))
      && ((e_simp a <? e_simp b)%Z
          || ((e_simp a =? e_simp b)%Z && dir_before (e_dir a) (e_dir b)))).

(** The cell at a position of a position file, if the position is in it. *)
Definition file_at (f : list (idx_elem D)) (pos : Z) : option (idx_elem D) :=
  if (pos <? 0)%Z then None else nth_error f (Z.to_nat pos).

(** The entry for simple index [j] standing at [pos], unless the iterator
    "has run off the end". *)
Definition make_entry (f : list (idx_elem D)) (q : D) (j : Z) (dir : direction)
    (pos : Z) : option pq_entry :=
  match file_at f pos with
  | Some el => Some (mk_pq_entry (dabs (key el - q)) j dir pos (global_value el))
  | None => None
  end.

Definition push_opt (o : option pq_entry) (pq : list pq_entry) : list pq_entry :=
  match o with
  | Some e => e :: pq
  | None => pq
  end.

(** Modelled from the spec: the binary search of dci.c that gives "the
    insertion point of the query's own projected coordinate": the first
    position whose key is not below [q]. *)
Fixpoint search_loop (f : list (idx_elem D)) (q : D) (fuel : nat) (lo hi : Z) : Z :=
  match fuel with
  | O => lo
  | S fuel' =>
      if (lo <? hi)%Z then
        let mid := ((lo + hi) / 2)%Z in
        match file_at f mid with
        | Some el =>
            if dltb (key el) q then search_loop f q fuel' (mid + 1)%Z hi
            else search_loop f q fuel' lo mid
        | None => lo
        end
      else lo
  end.

Definition insertion_point (f : list (idx_elem D)) (q : D) : Z :=
  search_loop f q (length f) 0%Z (Z.of_nat (length f)).

(** Modelled from the spec: the seeding of the queue in dci.c.  "Seed the
    priority queue with 2 L_s entries - two per simple index, one for each
    direction of advance"; an iterator that starts off the end of its file
    contributes none. *)
Fixpoint seed_pq (files : list (list (idx_elem D))) (qproj : list D) (j : Z)
    : list pq_entry :=
  match files, qproj with
  | f :: files', q :: qproj' =>
      let ins := insertion_point f q in
      push_opt (make_entry f q j Up ins)
        (push_opt (make_entry f q j Down (ins - 1)%Z)
           (seed_pq files' qproj' (j + 1)%Z))
  | _, _ => []
  end.

(** Modelled from the spec: the "per-composite-index state at query time" of
    dci.c.  The position files of the composite and the query's projections
    on their directions (both fixed), the queue, the points witnessed so far
    (one occurrence per pop: the counter of a point is the number of its
    occurrences), and the points promoted, in order. *)
Record comp_state : Type := mk_comp {
  cs_files : list (list (idx_elem D));
  cs_qproj : list D;
  cs_pq : list pq_entry;
  cs_witnessed : list Z;
  cs_promoted : list Z
}.

Definition comp_init (files : list (list (idx_elem D))) (qproj : list D) : comp_state :=
  mk_comp files qproj (seed_pq files qproj 0%Z) [] [].

Definition witness_count (p : Z) (w : list Z) : Z :=
  Z.of_nat (count_occ Z.eq_dec w p).

(** The position after one step in the entry's direction. *)
Definition advance (e : pq_entry) : Z :=
  match e_dir e with
  | Up => (e_pos e + 1)%Z
  | Down => (e_pos e - 1)%Z
  end.

(** Modelled from the spec: one pop of the traversal of dci.c, steps 2 to 4.
    "Repeatedly pop the smallest-gap entry ... Increment a counter of how many
    of the L_s simple indices within this composite have now witnessed p.
    When the counter for p reaches L_s, p is promoted ... After each pop,
    advance the chosen iterator by one step in its direction and push the
    next (gap, point_id) into the priority queue if the iterator has not run
    off the end."  The result is the point promoted by this pop, if any, and
    the new state; [None] when the queue is empty. *)
Definition comp_step (Ls : Z) (cs : comp_state) : option (option Z * comp_state) :=
  match extract_best entry_before (cs_pq cs) with
  | None => None
  | Some (e, pq') =>
      let p := e_point e in
      let w' := p :: cs_witnessed cs in
      let promoted := if (witness_count p w' =? Ls)%Z then Some p else None in
      let j := e_simp e in
      let next := make_entry (nthZ (cs_files cs) j []) (nthZ (cs_qproj cs) j (dofZ 0))
                    j (e_dir e) (advance e) in
      Some (promoted,
            mk_comp (cs_files cs) (cs_qproj cs) (push_opt next pq') w'
              (match promoted with
               | Some p' => cs_promoted cs ++ [p']
               | None => cs_promoted cs
               end))
  end.

(** ** The query loop *)

(** Modelled from the spec: the state of the loop of dci.c between two
    iterations: the composite to service next, the composites, and what has
    been evaluated. *)
Record query_state : Type := mk_qs {
  qs_turn : nat;
  qs_comps : list comp_state;
  qs_eval : eval_state
}.

(** A queue with no entry left. *)
Definition queue_empty (cs : comp_state) : bool :=
  match cs_pq cs with [] => true | _ :: _ => false end.

(** Every queue is empty. *)
Definition exhausted (comps : list comp_state) : bool := forallb queue_empty comps.

(** The composites in the order of service from [turn] on: [turn],
    [turn + 1], ..., and round to [turn - 1]. *)
Definition turn_order (turn L : nat) : list nat :=
  map (fun i : nat => ((turn + i) mod L)%nat) (seq 0 L).

(** Modelled from the spec: the round-robin of dci.c.  "the engine
    alternates which composite it services so that no composite runs far
    ahead of another": the next composite in turn whose queue holds an
    entry. *)
Definition next_turn (turn : nat) (comps : list comp_state) : option nat :=
  find (fun c : nat =>
          match nth_error comps c with
          | Some cs => negb (queue_empty cs)
          | None => false
          end)
       (turn_order turn (length comps)).

(** The composites with composite [c] replaced. *)
Definition set_comp (c : nat) (cs : comp_state) (comps : list comp_state)
    : list comp_state :=
  firstn c comps ++ cs :: skipn (S c) comps.

Section Loop.
Variable is_blind : bool.
Variables k dim Ls : Z.
Variables data query : list D.

(** Modelled from the spec: one iteration of the loop of dci.c.  The
    composite in turn pops once; the pop is counted as a visit; a point the
    pop promotes is evaluated at once; the turn passes to the composite
    after it. *)
Definition query_step (st : query_state) : query_state :=
  match next_turn (qs_turn st) (qs_comps st) with
  | None => st
  | Some c =>
      match nth_error (qs_comps st) c with
      | None => st
      | Some cs =>
          match comp_step Ls cs with
          | None => st
          | Some (promoted, cs') =>
              let ev1 := count_pop (qs_eval st) in
              let ev2 := match promoted with
                         | Some p => evaluate is_blind k dim data query p ev1
                         | None => ev1
                         end in
              mk_qs (S c mod length (qs_comps st)) (set_comp c cs' (qs_comps st)) ev2
          end
      end
  end.

(** [n] iterations, whatever the budget. *)
Fixpoint steps (n : nat) (st : query_state) : query_state :=
  match n with
  | O => st
  | S n' => steps n' (query_step st)
  end.

End Loop.

(** Modelled from the spec: the termination test of dci.c.  "A query
    terminates as soon as either axis reaches its cap"; "Both are tested
    against their caps between iterations."  In blind mode too "the engine
    stops at the visit cap or when retrieve_cap distinct points have been
    collected". *)
Definition caps_fired (cfg : dci_query_config D) (N : Z) (ev : eval_state) : bool :=
  cap_reached (ev_visited ev) (visit_cap cfg N)
  || cap_reached (ev_retrieved ev) (retrieve_cap cfg N).

(** The loop is over: a cap has fired, or no queue holds an entry. *)
Definition query_done (cfg : dci_query_config D) (N : Z) (st : query_state) : bool :=
  caps_fired cfg N (qs_eval st) || exhausted (qs_comps st).

(** Modelled from the spec: the loop of dci.c.  The test is made before
    every iteration, the first included, so that no pop is made once a cap
    is reached; the loop also ends when every queue is empty. *)
Fixpoint query_loop (cfg : dci_query_config D) (k dim N Ls : Z) (data query : list D)
    (fuel : nat) (st : query_state) : query_state :=
  match fuel with
  | O => st
  | S fuel' =>
      if query_done cfg N st then st
      else query_loop cfg k dim N Ls data query fuel'
             (query_step (blind cfg) k dim Ls data query st)
  end.

(** The steps an entry's iterator has left, itself included. *)
Definition entry_steps (files : list (list (idx_elem D))) (e : pq_entry) : nat :=
  match e_dir e with
  | Up => Z.to_nat (Z.of_nat (length (nthZ files (e_simp e) [])) - e_pos e)
  | Down => Z.to_nat (e_pos e + 1)
  end.

Definition comp_steps (cs : comp_state) : nat :=
  list_sum (map (entry_steps (cs_files cs)) (cs_pq cs)).

(** The iterations that empty every queue: one more than the steps left. *)
Definition query_fuel (comps : list comp_state) : nat :=
  S (list_sum (map comp_steps comps)).

(** Modelled from the spec: the start of a query in dci.c.  Composite [c]
    owns the simple indices [c * Ls], ..., [c * Ls + Ls - 1]; its queue is
    seeded from their files and from the query's projections. *)
Definition comps_init (Lc Ls : Z) (files : list (list (idx_elem D))) (qproj : list D)
    : list comp_state :=
  map (fun c : nat =>
         comp_init (firstn (Z.to_nat Ls) (skipn (c * Z.to_nat Ls) files))
                   (firstn (Z.to_nat Ls) (skipn (c * Z.to_nat Ls) qproj)))
      (seq 0 (Z.to_nat Lc)).

Definition eval_init : eval_state := mk_eval [] 0%Z 0%Z [].

(** The state a query starts in, on the finest (only) level. *)
Definition query_start (inst : dci D) (qproj : list D) : query_state :=
  mk_qs 0 (comps_init (num_comp_indices inst) (num_simp_indices inst)
             (nth 0 (indices inst) []) qproj)
        eval_init.

(** Modelled from the spec: the query loop of dci.c run from the start to
    its end: the state a query ends in. *)
Definition query_final (inst : dci D) (k dim : Z) (query qproj : list D)
    (cfg : dci_query_config D) : query_state :=
  let st0 := query_start inst qproj in
  query_loop cfg k dim (num_points inst) (num_simp_indices inst) (data inst) query
    (query_fuel (qs_comps st0)) st0.

(** Modelled from the spec: the query of one point in dci.c.  "Output is the
    heap contents sorted ascending by distance."  In blind mode the output
    is the list of the points collected, of which the query returns "up to k"
    (section 6), and no distance.  The result is the neighbours, their
    distances and their number. *)
Definition dci_query_single_point (inst : dci D) (k dim : Z) (query qproj : list D)
    (cfg : dci_query_config D) : list Z * list D * Z :=
  let ev := qs_eval (query_final inst k dim query qproj cfg) in
  if blind cfg then
    let out := firstn (Z.to_nat k) (ev_order ev) in
    (out, [], Z.of_nat (length out))
  else
    let out := sort_by closer (ev_heap ev) in
    (map snd out, map fst out, Z.of_nat (length out)).

End QueryEngine.

Arguments eval_state : clear implicits.
Arguments pq_entry : clear implicits.
Arguments comp_state : clear implicits.
Arguments query_state : clear implicits.
(* ================================================================== *)
(** * The interface of dci.h *)
(* ================================================================== *)

(** The outcome of a call of the interface.  The functions of dci.h return
    nothing; how dci.c reports an error is not in the sources.
    [Configuration_error]: section 7, "reported synchronously; no index
    mutation".  [Unspecified]: what the specification leaves open (a
    contract violation, after which "the core may abort"; the layered
    index of section 4.3).  [Out_of_draws]: the supply of draws given to
    [rand_normal] has ended, which [drand48] itself never does. *)
Inductive result (A : Type) : Type :=
| Ok : A -> result A
| Configuration_error : result A
| Unspecified : result A
| Out_of_draws : result A.
Arguments Ok {A} _.
Arguments Configuration_error {A}.
Arguments Unspecified {A}.
Arguments Out_of_draws {A}.

(** Two fields of an index, under names that the parameters [dim] and
    [num_levels] of the functions do not hide. *)
Definition index_dim {D : Type} (inst : dci D) : Z := dim inst.
Definition index_levels {D : Type} (inst : dci D) : Z := num_levels inst.

Section Interface.
Context {D : Type} `{Double D} `{Libm D}.
Variable DGEMM : DGEMM_t D.
Local Open Scope double_scope.

(** ** The projection bank *)

(** The first [n] columns of a column-major array with columns of [dim]
    cells. *)
Fixpoint columns (dim n : nat) (xs : list D) : list (list D) :=
  match n with
  | O => []
  | S n' => firstn dim xs :: columns dim n' (skipn dim xs)
  end.

(** Modelled from the spec: the normalisation of a column of the projection
    bank in dci.c, "normalize each column to unit L2-norm". *)
Definition normalize_col (col : list D) : list D :=
  let norm := dsqrt (fold_left (fun acc x => acc + x * x) col (dofZ 0)) in
  map (fun x => x / norm) col.

(** Modelled from the spec: the sampling of the projection bank in dci.c.
    "fill each entry from a standard-normal scalar source, then normalize
    each column to unit L2-norm."  The normal source is [rand_normal]; the
    result carries the statics and the draws it leaves. *)
Definition dci_gen_proj_vec (dim num_indices : Z) (st : rn_static D) (draws : list D)
    : option (list D * rn_static D * list D) :=
  match rand_normal_n (Z.to_nat (dim * num_indices)) st draws with
  | Some (xs, st', rest) =>
      Some (concat (map normalize_col
                      (columns (Z.to_nat dim) (Z.to_nat num_indices) xs)),
            st', rest)
  | None => None
  end.

(** Modelled from the spec: [dci_init] of dci.c.  "allocate an empty index
    with ambient dim D, composite-index count L, simple-indices-per-composite
    L_s; generate the projection bank."  Section 7: "configuration error -
    zero or negative dimensions, L=0 or L_s=0". *)
Definition dci_init (dim num_comp_indices num_simp_indices : Z)
    (st : rn_static D) (draws : list D)
    : result (dci D * rn_static D * list D) :=
  if ((dim <=? 0) || (num_comp_indices <=? 0) || (num_simp_indices <=? 0))%Z
  then Configuration_error
  else
    match dci_gen_proj_vec dim (num_comp_indices * num_simp_indices) st draws with
    | Some (pv, st', rest) =>
        Ok (mk_dci dim num_comp_indices num_simp_indices 0 0 0 [] pv [] [] [],
            st', rest)
    | None => Out_of_draws
    end.

(** ** Construction *)

(** Modelled from the spec: the position file dci.c builds for simple index
    [i]: "an ordered sequence of (projected-coordinate, point-id) pairs
    sorted by projected coordinate"; on a single level the local and the
    global id of a point coincide. *)
Definition position_file (data_proj : list D) (num_indices : Z) (N : nat) (i : nat)
    : list (idx_elem D) :=
  sort_by (fun a b => dleb (key a) (key b))
    (map (fun p : nat =>
            mk_idx_elem (rd data_proj (Z.of_nat i + Z.of_nat p * num_indices)%Z)
                        (Z.of_nat p) (Z.of_nat p))
         (seq 0 N)).

(** Modelled from the spec: [dci_add] of dci.c.  "attach N points; compute
    projections, sort position files, build hierarchy"; the projections are
    "the transpose of projection-bank times points", from [matmul];
    "data_ptr is borrowed".  Section 7: a dimension that is not positive or
    differs from that of [dci_init] is a configuration error, reported with
    "no index mutation"; "add called twice without clear" and a data array
    shorter than the points it is to hold are contract violations, after
    which "the core may abort".  With one level there is no hierarchy to
    build, and [construction_query_config], "for hierarchical construction
    - the query configuration used to seed the child-to-parent mapping", is
    not read.  For more levels the specification (section 4.3) leaves the
    sampling of the levels and the scaling of the caps open: these calls
    are [Unspecified] here, and no index of several levels exists in this
    model. *)
Definition dci_add (inst : dci D) (dim num_points : Z) (data : list D)
    (num_levels : Z) (construction_query_config : dci_query_config D)
    : result (dci D) :=
  if ((dim <=? 0) || negb (dim =? index_dim inst))%Z then Configuration_error
  else if (negb (index_levels inst =? 0) || (num_points <? 0)
           || (Z.of_nat (length data) <? dim * num_points))%Z then Unspecified
  else if negb (num_levels =? 1)%Z then Unspecified
  else
    let num_indices := (num_comp_indices inst * num_simp_indices inst)%Z in
    let data_proj :=
      matmul DGEMM num_indices num_points dim (proj_vec inst) data
        (repeat (dofZ 0) (Z.to_nat (num_indices * num_points))) in
    Ok (mk_dci (dim) (num_comp_indices inst) (num_simp_indices inst)
          num_points num_levels (num_coarse_points inst)
          [map (position_file data_proj num_indices (Z.to_nat num_points))
               (seq 0 (Z.to_nat num_indices))]
          (proj_vec inst) data [] []).

(** ** Query *)

(** Modelled from the spec: the check of a query in dci.c.  Section 7:
    "configuration error - ... k=0, both caps inactive, ambient dim
    mismatch ... between add and query"; section 6: "At least one of visit
    or retrieve caps must be active." *)
Definition query_config_error (inst : dci D) (dim num_neighbours : Z)
    (query_config : dci_query_config D) : bool :=
  ((dim <=? 0)%Z || negb (dim =? index_dim inst)%Z || (num_neighbours <=? 0)%Z
   || (match visit_cap query_config (num_points inst),
             retrieve_cap query_config (num_points inst) with
       | None, None => true
       | _, _ => false
       end))%bool.

(** Modelled from the spec: [dci_query] of dci.c.  "return up to k neighbours
    per query.  Output arrays are allocated by the callee, one pair per
    query".  The result is [nearest_neighbours], [nearest_neighbour_dists]
    and [num_returned], each with one cell per query; a configuration error
    is "reported synchronously", and a query that ends with fewer than k
    points is not one ("capacity shortfall ... Not an error per se").  The
    query of an index of several levels (section 4.3) is [Unspecified], as
    is its construction. *)
Definition dci_query (inst : dci D) (dim num_queries : Z) (query : list D)
    (num_neighbours : Z) (query_config : dci_query_config D)
    : result (list (list Z) * list (list D) * list Z) :=
  if query_config_error inst dim num_neighbours query_config then Configuration_error
  else if (1 <? index_levels inst)%Z then Unspecified
  else
    let num_indices := (num_comp_indices inst * num_simp_indices inst)%Z in
    let query_proj :=
      matmul DGEMM num_indices num_queries dim (proj_vec inst) query
        (repeat (dofZ 0) (Z.to_nat (num_indices * num_queries))) in
    let results :=
      map (fun j : nat =>
             dci_query_single_point inst num_neighbours dim
               (ptr_add query (Z.of_nat j * dim)%Z)
               (firstn (Z.to_nat num_indices)
                       (ptr_add query_proj (Z.of_nat j * num_indices)%Z))
               query_config)
          (seq 0 (Z.to_nat num_queries)) in
    Ok (map (fun r => fst (fst r)) results,
        map (fun r => snd (fst r)) results,
        map snd results).

(** ** Clearing *)

(** Modelled from the spec: [dci_clear] of dci.c.  "Clearing releases
    per-level allocations and zeros counters but preserves the projection
    bank". *)
Definition dci_clear (inst : dci D) : dci D :=
  mk_dci (index_dim inst) (num_comp_indices inst) (num_simp_indices inst)
    0 0 0 [] (proj_vec inst) [] [] [].

(** Modelled from the spec: [dci_reset] of dci.c.  dci.h: "Clear indices and
    reset the projection directions"; the specification: "drop per-level
    position files, keep projection bank shape; re-sample projection
    directions". *)
Definition dci_reset (inst : dci D) (st : rn_static D) (draws : list D)
    : result (dci D * rn_static D * list D) :=
  let cleared := dci_clear inst in
  match dci_gen_proj_vec (index_dim cleared)
          (num_comp_indices cleared * num_simp_indices cleared) st draws with
  | Some (pv, st', rest) =>
      Ok (mk_dci (index_dim cleared) (num_comp_indices cleared)
            (num_simp_indices cleared)
            (num_points cleared) (index_levels cleared)
            (num_coarse_points cleared)
            (indices cleared) pv (data cleared)
            (next_level_ranges cleared) (num_finest_level_points cleared),
          st', rest)
  | None => Out_of_draws
  end.

End Interface.

(* ================================================================== *)
(** * What the properties speak of *)
(* ================================================================== *)

(** DGEMM writes into the array [C]: the array keeps its size. *)
Definition dgemm_inplace {D : Type} (DGEMM : DGEMM_t D) : Prop :=
  forall transa transb m n k alpha A lda B ldb beta C ldc,
    length (DGEMM transa transb m n k alpha A lda B ldb beta C ldc) = length C.

(** The projections of query [j] on the directions of the index, as
    [dci_query] hands them to the query of one point. *)
Definition query_projections {D : Type} `{Double D} (DGEMM : DGEMM_t D) (inst : dci D)
    (dim num_queries : Z) (query : list D) (j : nat) : list D :=
  let num_indices := (num_comp_indices inst * num_simp_indices inst)%Z in
  firstn (Z.to_nat num_indices)
    (ptr_add (matmul DGEMM num_indices num_queries dim (proj_vec inst) query
                (repeat (dofZ 0) (Z.to_nat (num_indices * num_queries))))
             (Z.of_nat j * num_indices)%Z).

(** The ids of the points of an index of [N] points. *)
Definition points (N : Z) : list Z := map Z.of_nat (seq 0 (Z.to_nat N)).

(** The true distance from the query to point [p] of the data array: the
    Euclidean distance as the specification writes it. *)
Definition true_dist {D : Type} `{Double D} (dim : Z) (data query : list D) (p : Z) : D :=
  euclidean_dist (ptr_add data (p * dim)%Z) query dim.

(** The ascending order of distances. *)
Definition ascending {D : Type} `{Double D} (l : list D) : Prop :=
  StronglySorted (fun a b => dleb a b = true) l.

(** [ids], with the distances [dists], is an answer of [k] nearest
    neighbours among the points [ps] for the distance [dist]: distinct
    points of [ps], as many as [k] and [ps] allow, none farther than a point
    left out, listed with their distances in ascending order. *)
Definition nearest_of {D : Type} `{Double D} (k : Z) (dist : Z -> D) (ps ids : list Z)
    (dists : list D) : Prop :=
  dists = map dist ids /\
  ascending dists /\
  NoDup ids /\
  incl ids ps /\
  length ids = Nat.min (Z.to_nat k) (length ps) /\
  forall p q, In p ids -> In q ps -> ~ In q ids -> dleb (dist p) (dist q) = true.

(** Both caps are at their maxima, so that all points may be visited: no
    axis can fire before every point has been promoted.  The visited
    counter counts pops, of which an index of [N] points with [L]
    composites of [Ls] simple indices allows [L * Ls * N]; the retrieved
    counter counts points. *)
Definition caps_maximal {D : Type} `{Double D} (cfg : dci_query_config D) (N L Ls : Z)
    : Prop :=
  (forall c, visit_cap cfg N = Some c -> dleb (dofZ (L * Ls * N)) c = true) /\
  (forall c, retrieve_cap cfg N = Some c -> dleb (dofZ N) c = true).

(** Point [p] has been promoted by one of the composites. *)
Definition promoted_by {D : Type} (comps : list (comp_state D)) (p : Z) : Prop :=
  exists cs, In cs comps /\ In p (cs_promoted cs).

(** The pops the composites have made. *)
Definition pops {D : Type} (comps : list (comp_state D)) : Z :=
  Z.of_nat (list_sum (map (fun cs => length (cs_witnessed cs)) comps)).

(** An index with another data array. *)
Definition with_data {D : Type} (inst : dci D) (data' : list D) : dci D :=
  mk_dci (dim inst) (num_comp_indices inst) (num_simp_indices inst) (num_points inst)
    (num_levels inst) (num_coarse_points inst) (indices inst) (proj_vec inst) data'
    (next_level_ranges inst) (num_finest_level_points inst).

(** [c] is the effective cap of an axis with forms [num] and [prop]: one of
    the active forms, and not below any active form; [None] when no form is
    active. *)
Definition is_effective_cap {D : Type} `{Double D} (num : Z) (prop : D) (N : Z)
    (o : option D) : Prop :=
  match o with
  | None => (num < 0)%Z /\ dltb (dofZ 0) prop = false
  | Some c =>
      (((0 <= num)%Z /\ c = dofZ num)
       \/ (dltb (dofZ 0) prop = true /\ c = dmul prop (dofZ N))) /\
      ((0 <= num)%Z -> dleb (dofZ num) c = true) /\
      (dltb (dofZ 0) prop = true -> dleb (dmul prop (dofZ N)) c = true)
  end.

(** The state of a query after [n] iterations of its loop, whatever the
    budget. *)
Definition query_after {D : Type} `{Double D} (inst : dci D) (k dim : Z)
    (query qproj : list D) (cfg : dci_query_config D) (n : nat) : query_state D :=
  steps (blind cfg) k dim (num_simp_indices inst) (data inst) query n
    (query_start inst qproj).

(** An axis has reached its cap: the axis is active and its counter is not
    below the effective cap. *)
Definition axis_reached {D : Type} `{Double D} (cap : option D) (count : Z) : Prop :=
  exists c, cap = Some c /\ dleb c (dofZ count) = true.

(** A query is over in state [st]: the visit axis or the retrieve axis has
    reached its cap, or no queue holds an entry. *)
Definition stops_at {D : Type} `{Double D} (cfg : dci_query_config D) (N : Z)
    (st : query_state D) : Prop :=
  axis_reached (visit_cap cfg N) (ev_visited (qs_eval st)) \/
  axis_reached (retrieve_cap cfg N) (ev_retrieved (qs_eval st)) \/
  Forall (fun cs => cs_pq cs = []) (qs_comps st).

(** The point of query [j] in the array of the query points. *)
Definition query_point {D : Type} (query : list D) (dim : Z) (j : nat) : list D :=
  ptr_add query (Z.of_nat j * dim)%Z.
(* ================================================================== *)
(** * Programs: calls of the interface on a state *)
(* ================================================================== *)

Section Programs.
Context {D : Type} `{Double D} `{Libm D}.
Variable DGEMM : DGEMM_t D.

(** What a program run holds: the index, the statics of [rand_normal] and
    the draws [drand48] has yet to give (the seed fixes them). *)
Record world : Type := mk_world {
  w_inst : dci D;
  w_static : rn_static D;
  w_draws : list D
}.

Inductive dci_call : Type :=
| Call_init (dim num_comp_indices num_simp_indices : Z)
| Call_add (dim num_points : Z) (data : list D) (num_levels : Z)
    (construction_query_config : dci_query_config D)
| Call_query (dim num_queries : Z) (query : list D) (num_neighbours : Z)
    (query_config : dci_query_config D)
| Call_clear
| Call_reset.

(** One call: the state after it and, for a query, the arrays returned.  A
    call that is refused leaves the state as it was. *)
Definition run_call (c : dci_call) (w : world)
    : world * result (option (list (list Z) * list (list D) * list Z)) :=
  match c with
  | Call_init d L Ls =>
      match dci_init d L Ls (w_static w) (w_draws w) with
      | Ok (inst, st, rest) => (mk_world inst st rest, Ok None)
      | Configuration_error => (w, Configuration_error)
      | Unspecified => (w, Unspecified)
      | Out_of_draws => (w, Out_of_draws)
      end
  | Call_add d N pts levels cfg =>
      match dci_add DGEMM (w_inst w) d N pts levels cfg with
      | Ok inst => (mk_world inst (w_static w) (w_draws w), Ok None)
      | Configuration_error => (w, Configuration_error)
      | Unspecified => (w, Unspecified)
      | Out_of_draws => (w, Out_of_draws)
      end
  | Call_query d nq q k cfg =>
      match dci_query DGEMM (w_inst w) d nq q k cfg with
      | Ok out => (w, Ok (Some out))
      | Configuration_error => (w, Configuration_error)
      | Unspecified => (w, Unspecified)
      | Out_of_draws => (w, Out_of_draws)
      end
  | Call_clear =>
      (mk_world (dci_clear (w_inst w)) (w_static w) (w_draws w), Ok None)
  | Call_reset =>
      match dci_reset (w_inst w) (w_static w) (w_draws w) with
      | Ok (inst, st, rest) => (mk_world inst st rest, Ok None)
      | Configuration_error => (w, Configuration_error)
      | Unspecified => (w, Unspecified)
      | Out_of_draws => (w, Out_of_draws)
      end
  end.

End Programs.

Arguments world : clear implicits.
Arguments dci_call : clear implicits.

(* ================================================================== *)
(** * util.c: [gen_data] and [print_matrix] *)
(* ================================================================== *)

(** [INT_MAX] of limits.h for the 32-bit [int] of the platforms the code is
    built for.  The loop counters and the index expressions of the two
    functions are [int]s; the embedding computes them in [Z], and the
    statements about them carry the bound under which the C expression
    does not overflow. *)
Definition INT_MAX : Z := 2147483647.

Section GenData.
Context {D : Type} `{Double D}.
Variable DGEMM : DGEMM_t D.
Local Open Scope double_scope.

(** The two loops of [gen_data],
    [for (i = 0; i < n; i++) a[i] = 2 * drand48() - 1;],
    with [n] iterations left.  The array [a] comes from [memalign] and
    every cell of it is written, in the order of the indices: the result
    is the array after the loop and the draws not yet taken, or [None]
    when the supply of draws ends first. *)
Fixpoint gen_data_fill (n : nat) (draws : list D) : option (list D * list D) :=
  match n with
  | O => Some ([], draws)
  | S n' =>
      match draws with
      | u :: rest =>
          match gen_data_fill n' rest with
          | Some (a, draws1) => Some ((dofZ 2 * u - dofZ 1) :: a, draws1)
          | None => None
          end
      | [] => None
      end
  end.

(** [void gen_data(double* data, int ambient_dim, int intrinsic_dim,
    int num_points)]: the array [data] after the call and the draws left.
    "transformation is intrisic_dim x ambient_dim, latent_data is
    intrinsic_dim x num_points, data is ambient_dim x num_points". *)
Definition gen_data (data : list D) (ambient_dim intrinsic_dim num_points : Z)
    (draws : list D) : option (list D * list D) :=
  match gen_data_fill (Z.to_nat (intrinsic_dim * num_points)) draws with
  | Some (latent_data, draws1) =>
      match gen_data_fill (Z.to_nat (intrinsic_dim * ambient_dim)) draws1 with
      | Some (transformation, draws2) =>
          Some (matmul DGEMM ambient_dim num_points intrinsic_dim
                  transformation latent_data data,
                draws2)
      | None => None
      end
  | None => None
  end.

End GenData.

(** The value a cell of [gen_data] receives from the draw [u]:
    [2 * drand48() - 1]. *)
Definition centred {D : Type} `{Double D} (u : D) : D :=
  dsub (dmul (dofZ 2) u) (dofZ 1).

(** What [print_matrix] sends to the standard output: the sequence of its
    calls of [printf]. *)
Inductive printf_call (D : Type) : Type :=
| Printf_4f_tab : D -> printf_call D     (* printf("%.4f\t", x) *)
| Printf_newline : printf_call D.        (* printf("\n") *)
Arguments Printf_4f_tab {D} _.
Arguments Printf_newline {D}.

Section PrintMatrix.
Context {D : Type} `{Double D}.

(** The inner loop, [for (j = ...; j < num_cols; j++)
    printf("%.4f\t", data[i+j*num_rows]);], with [n] iterations left. *)
Fixpoint print_matrix_row (data : list D) (num_rows : Z) (i : Z) (n : nat) (j : Z)
    : list (printf_call D) :=
  match n with
  | O => []
  | S n' =>
      Printf_4f_tab (rd data (i + j * num_rows)%Z)
      :: print_matrix_row data num_rows i n' (j + 1)%Z
  end.

(** The outer loop, [for (i = ...; i < num_rows; i++) { ...; printf("\n"); }],
    with [n] iterations left. *)
Fixpoint print_matrix_loop (data : list D) (num_rows num_cols : Z) (n : nat) (i : Z)
    : list (printf_call D) :=
  match n with
  | O => []
  | S n' =>
      print_matrix_row data num_rows i (Z.to_nat num_cols) 0%Z
      ++ Printf_newline :: print_matrix_loop data num_rows num_cols n' (i + 1)%Z
  end.

(** [void print_matrix(const double* data, int num_rows, int num_cols)]:
    "Print matrix assuming column-major layout". *)
Definition print_matrix (data : list D) (num_rows num_cols : Z) : list (printf_call D) :=
  print_matrix_loop data num_rows num_cols (Z.to_nat num_rows) 0%Z.

(** The lines of an output: the values printed before each newline, with
    [cur] the values of the line being written. *)
Fixpoint printed_lines (out : list (printf_call D)) (cur : list D) : list (list D) :=
  match out with
  | [] => match cur with [] => [] | _ :: _ => [cur] end
  | Printf_4f_tab x :: out' => printed_lines out' (cur ++ [x])
  | Printf_newline :: out' => cur :: printed_lines out' []
  end.

(** The values of an output, in the order they are printed. *)
Fixpoint printed_values (out : list (printf_call D)) : list D :=
  match out with
  | [] => []
  | Printf_4f_tab x :: out' => x :: printed_values out'
  | Printf_newline :: out' => printed_values out'
  end.

End PrintMatrix.

(** Row [i] of a column-major matrix with [num_rows] rows and [num_cols]
    columns: the cells i, i + num_rows, i + 2 num_rows, ... *)
Definition row_of {D : Type} `{Double D} (data : list D) (num_rows num_cols : Z) (i : Z)
    : list D :=
  map (fun j : nat => rd data (i + Z.of_nat j * num_rows)%Z) (seq 0 (Z.to_nat num_cols)).

(** The indices of the cells of a column-major matrix of [r] rows and [c]
    columns, row after row. *)
Definition row_major_cells (r c : nat) : list nat :=
  flat_map (fun i : nat => map (fun j : nat => (i + j * r)%nat) (seq 0 c)) (seq 0 r).

(* ================================================================== *)
(** * Facts: the order of the reals *)
(* ================================================================== *)

Lemma Rltb_spec (a b : R) : Rltb a b = true <-> (a < b)%R.
Proof. unfold Rltb; destruct (Rlt_dec a b); split; intros; try easy. Qed.

Lemma Rleb_spec (a b : R) : Rleb a b = true <-> (a <= b)%R.
Proof. unfold Rleb; destruct (Rle_dec a b); split; intros; try easy. Qed.

Lemma Reqb_spec (a b : R) : Reqb a b = true <-> a = b.
Proof. unfold Reqb; destruct (Req_dec_T a b); split; intros; try easy. Qed.

Lemma Rltb_false (a b : R) : Rltb a b = false <-> (b <= a)%R.
Proof.
  unfold Rltb; destruct (Rlt_dec a b); split; intros; try easy; lra.
Qed.

Lemma Rleb_false (a b : R) : Rleb a b = false <-> (b < a)%R.
Proof.
  unfold Rleb; destruct (Rle_dec a b); split; intros; try easy; lra.
Qed.

Lemma Reqb_false (a b : R) : Reqb a b = false <-> a <> b.
Proof.
  unfold Reqb; destruct (Req_dec_T a b); split; intros; try easy.
Qed.

#[export] Instance DoubleOrder_R : @DoubleOrder R Double_R.
Proof.
  constructor; simpl.
  - intros a; apply Rleb_spec; lra.
  - intros a b c H1 H2; apply Rleb_spec in H1, H2; apply Rleb_spec; lra.
  - intros a b H1 H2; apply Rleb_spec in H1, H2; lra.
  - intros a b; rewrite !Rleb_spec; lra.
  - intros a b; destruct (Rleb b a) eqn:E; simpl.
    + apply Rleb_spec in E; apply Rltb_false; lra.
    + apply Rleb_false in E; apply Rltb_spec; lra.
  - intros a b; apply Reqb_spec.
  - intros a b; rewrite Rleb_spec; split; [apply le_IZR|apply IZR_le].
Qed.


(** Unfolds the operations of the instance [R] to those of the reals. *)
Ltac R_ops :=
  unfold dgeb in *;
  cbn [dofZ dadd dsub dmul ddiv dsqrt dabs dltb dleb deqb dlog Double_R Libm_R] in *.

(* ================================================================== *)
(** * Facts: util.c *)
(* ================================================================== *)

(** ** [compute_dist] *)

Section ComputeDistFacts.
Context {D : Type} `{Double D}.

(** The loop invariant: entered at index [i0] with the sum of the first
    [i0] squared differences, the loop leaves the sum of the first
    [i0 + n]. *)
Lemma compute_dist_loop_dsum (vec1 vec2 : list D) (n i0 : nat) :
  compute_dist_loop vec1 vec2 n (Z.of_nat i0) (dsum (sq_diff vec1 vec2) i0)
  = dsum (sq_diff vec1 vec2) (i0 + n).
Proof.
  revert i0; induction n as [|n IH]; intros i0; simpl.
  - now rewrite Nat.add_0_r.
  - replace (Z.of_nat i0 + 1)%Z with (Z.of_nat (S i0)) by lia.
    change (dadd (dsum (sq_diff vec1 vec2) i0)
              (dmul (dsub (rd vec1 (Z.of_nat i0)) (rd vec2 (Z.of_nat i0)))
                    (dsub (rd vec1 (Z.of_nat i0)) (rd vec2 (Z.of_nat i0)))))
      with (dsum (sq_diff vec1 vec2) (S i0)).
    rewrite IH. f_equal; lia.
Qed.

(** The value returned, written as the root of a sum. *)
Lemma compute_dist_as_sum (vec1 vec2 : list D) (dim : Z) :
  compute_dist vec1 vec2 dim = dsqrt (dsum (sq_diff vec1 vec2) (Z.to_nat dim)).
Proof.
  unfold compute_dist. f_equal.
  exact (compute_dist_loop_dsum vec1 vec2 (Z.to_nat dim) 0).
Qed.

(** C7.  [compute_dist vec1 vec2 dim] is the Euclidean distance
    sqrt(sum over i < dim of (vec1[i] - vec2[i])^2) of the two vectors, the
    sum and the root being those of the arithmetic of [double] (the exact
    ones in the instance [R]).  For [dim <= 0] the sum is empty. *)
Theorem compute_dist_euclidean (vec1 vec2 : list D) (dim : Z) :
  compute_dist vec1 vec2 dim = euclidean_dist vec1 vec2 dim.
Proof.
  unfold euclidean_dist. apply compute_dist_as_sum.
Qed.

End ComputeDistFacts.

(** In the reals the sum of squares is not negative. *)
Lemma dsum_sq_diff_nonneg (vec1 vec2 : list R) (n : nat) :
  (0 <= dsum (sq_diff vec1 vec2) n)%R.
Proof.
  induction n as [|n IH]; simpl.
  - lra.
  - assert (Hsq : (0 <= sq_diff vec1 vec2 n)%R)
      by (unfold sq_diff; simpl;
          generalize (rd vec1 (Z.of_nat n) - rd vec2 (Z.of_nat n))%R; intros a; nra).
    unfold sq_diff in *; simpl in *; lra.
Qed.

(** Over the reals the distance [compute_dist] returns is never negative. *)
Lemma compute_dist_R_nonneg (vec1 vec2 : list R) (dim : Z) :
  (0 <= compute_dist vec1 vec2 dim)%R.
Proof.
  rewrite compute_dist_as_sum. apply sqrt_pos.
Qed.

(** Over the reals [compute_dist] is symmetric in its two vectors. *)
Lemma compute_dist_R_sym (vec1 vec2 : list R) (dim : Z) :
  compute_dist vec1 vec2 dim = compute_dist vec2 vec1 dim.
Proof.
  rewrite !compute_dist_as_sum. f_equal.
  induction (Z.to_nat dim) as [|n IH]; simpl; [reflexivity|].
  rewrite IH. unfold sq_diff; simpl. ring.
Qed.

(** On binary64 the function runs: the distance from (0, 0) to (3, 4). *)
Example compute_dist_float_3_4 :
  compute_dist [float_of_Z 0; float_of_Z 0] [float_of_Z 3; float_of_Z 4] 2
  = float_of_Z 5.
Proof. vm_compute. reflexivity. Qed.

(** ** [rand_normal] *)

Section RandNormalFacts.
Local Open Scope R_scope.

(** [S] is a sum of two squares. *)
Lemma polar_S_nonneg (v1 v2 : R) : 0 <= v1 * v1 + v2 * v2.
Proof. nra. Qed.

(** The loop test [S >= 1 || S == 0] fails exactly when 0 < S < 1. *)
Lemma polar_test_false (v1 v2 : R) :
  (dgeb (v1 * v1 + v2 * v2) (dofZ 1) || deqb (v1 * v1 + v2 * v2) (dofZ 0))%bool = false
  <-> 0 < v1 * v1 + v2 * v2 < 1.
Proof.
  R_ops. rewrite orb_false_iff, Rleb_false, Reqb_false.
  pose proof (polar_S_nonneg v1 v2). split; intros; lra.
Qed.

(** A pair with 0 < S < 1 ends the loop at once. *)
Lemma rand_normal_loop_accept (U1 U2 : R) (rest : list R) :
  0 < (2 * U1 - 1) * (2 * U1 - 1) + (2 * U2 - 1) * (2 * U2 - 1) < 1 ->
  rand_normal_loop (U1 :: U2 :: rest)
  = Some (2 * U1 - 1, 2 * U2 - 1,
          (2 * U1 - 1) * (2 * U1 - 1) + (2 * U2 - 1) * (2 * U2 - 1), rest).
Proof.
  intros HS. apply polar_test_false in HS.
  cbn [rand_normal_loop]. cbv zeta. R_ops. now rewrite HS.
Qed.

(** A rejected pair is skipped. *)
Lemma rand_normal_loop_reject (U1 U2 : R) (rest : list R) :
  ~ 0 < (2 * U1 - 1) * (2 * U1 - 1) + (2 * U2 - 1) * (2 * U2 - 1) < 1 ->
  rand_normal_loop (U1 :: U2 :: rest) = rand_normal_loop rest.
Proof.
  intros HS. rewrite <- polar_test_false in HS. apply not_false_is_true in HS.
  cbn [rand_normal_loop]. cbv zeta. R_ops. now rewrite HS.
Qed.

(** What the loop leaves behind: it has skipped rejected pairs only, and
    the pair it stops at has 0 < S < 1. *)
Lemma rand_normal_loop_inv (draws : list R) :
  forall v1 v2 s rest,
    rand_normal_loop draws = Some (v1, v2, s, rest) ->
    exists rejected U1 U2,
      draws = rejected ++ U1 :: U2 :: rest /\
      rn_rejected rejected /\
      v1 = 2 * U1 - 1 /\ v2 = 2 * U2 - 1 /\
      s = v1 * v1 + v2 * v2 /\ 0 < s < 1.
Proof.
  induction draws as [draws IH]
    using (well_founded_induction (well_founded_ltof _ (@length R))).
  intros v1 v2 s rest Hloop.
  destruct draws as [|U1 [|U2 tl]]; try discriminate.
  destruct (Rlt_dec 0 ((2 * U1 - 1) * (2 * U1 - 1) + (2 * U2 - 1) * (2 * U2 - 1)))
    as [Hpos|Hpos];
    [destruct (Rlt_dec ((2 * U1 - 1) * (2 * U1 - 1) + (2 * U2 - 1) * (2 * U2 - 1)) 1)
      as [Hlt|Hlt]|].
  - rewrite rand_normal_loop_accept in Hloop by lra.
    inversion Hloop; subst; clear Hloop.
    exists [], U1, U2. repeat split; try reflexivity; try lra. constructor.
  - rewrite rand_normal_loop_reject in Hloop by lra.
    apply IH in Hloop; [|unfold ltof; simpl; lia].
    destruct Hloop as (rej & W1 & W2 & -> & Hrej & Hrest).
    exists (U1 :: U2 :: rej), W1, W2. split; [reflexivity|]. split; [|exact Hrest].
    constructor; [|exact Hrej]. cbv zeta.
    apply not_false_is_true. intros Hf. apply polar_test_false in Hf. R_ops. lra.
  - rewrite rand_normal_loop_reject in Hloop by lra.
    apply IH in Hloop; [|unfold ltof; simpl; lia].
    destruct Hloop as (rej & W1 & W2 & -> & Hrej & Hrest).
    exists (U1 :: U2 :: rej), W1, W2. split; [reflexivity|]. split; [|exact Hrest].
    constructor; [|exact Hrej]. cbv zeta.
    apply not_false_is_true. intros Hf. apply polar_test_false in Hf. R_ops. lra.
Qed.

(** The loop ends as soon as the supply holds an acceptable pair after
    rejected ones. *)
Lemma rand_normal_loop_total (rejected : list R) (U1 U2 : R) (rest : list R) :
  rn_rejected rejected ->
  0 < (2 * U1 - 1) * (2 * U1 - 1) + (2 * U2 - 1) * (2 * U2 - 1) < 1 ->
  rand_normal_loop (rejected ++ U1 :: U2 :: rest)
  = Some (2 * U1 - 1, 2 * U2 - 1,
          (2 * U1 - 1) * (2 * U1 - 1) + (2 * U2 - 1) * (2 * U2 - 1), rest).
Proof.
  intros Hrej HS. induction Hrej as [|W1 W2 l Hbad _ IH].
  - now apply rand_normal_loop_accept.
  - cbn [app]. rewrite rand_normal_loop_reject; [exact IH|].
    intros Hok. apply polar_test_false in Hok. cbv zeta in Hbad.
    R_ops. congruence.
Qed.

(** For 0 < S < 1 the argument of [sqrt] is positive. *)
Lemma rn_sqrt_arg_pos (s : R) : 0 < s < 1 -> 0 < rn_sqrt_arg s.
Proof.
  intros [H0 H1]. unfold rn_sqrt_arg. R_ops.
  assert (Hln : ln s < 0) by (rewrite <- ln_1; now apply ln_increasing).
  apply Rdiv_lt_0_compat; lra.
Qed.

End RandNormalFacts.

Section RandNormalClaims.
Local Open Scope R_scope.

(** A call in phase 1 returns whatever the supply of draws is, and leaves
    it as it was. *)
Lemma rand_normal_phase1 (st : rn_static R) (draws : list R) :
  rn_phase st <> 0%Z ->
  rand_normal st draws
  = Some (rn_V2 st * sqrt (-2 * ln (rn_S st) / rn_S st),
          mk_rn_static (rn_V1 st) (rn_V2 st) (rn_S st) (1 - rn_phase st)%Z,
          draws).
Proof.
  intros Hph. unfold rand_normal.
  destruct (Z.eqb_spec (rn_phase st) 0) as [E|_]; [contradiction|reflexivity].
Qed.

(** A call in phase 0 that returns has skipped rejected pairs and stopped
    at the first pair with 0 < S < 1, which it stores. *)
Lemma rand_normal_phase0 (st : rn_static R) (draws : list R)
    (x : R) (st' : rn_static R) (rest : list R) :
  rn_phase st = 0%Z ->
  rand_normal st draws = Some (x, st', rest) ->
  exists rejected U1 U2,
    draws = rejected ++ U1 :: U2 :: rest /\
    rn_rejected rejected /\
    0 < (2 * U1 - 1) * (2 * U1 - 1) + (2 * U2 - 1) * (2 * U2 - 1) < 1 /\
    st' = mk_rn_static (2 * U1 - 1) (2 * U2 - 1)
            ((2 * U1 - 1) * (2 * U1 - 1) + (2 * U2 - 1) * (2 * U2 - 1)) 1%Z /\
    x = rn_V1 st' * sqrt (-2 * ln (rn_S st') / rn_S st').
Proof.
  intros Hph Hcall. unfold rand_normal in Hcall. rewrite Hph in Hcall.
  cbn [Z.eqb Z.sub Z.add Z.opp Z.pos_sub] in Hcall.
  destruct (rand_normal_loop draws) as [[[[v1 v2] s] r]|] eqn:Hloop; [|discriminate].
  inversion Hcall; subst x st' rest; clear Hcall.
  apply rand_normal_loop_inv in Hloop.
  destruct Hloop as (rej & U1 & U2 & Hd & Hrej & Hv1 & Hv2 & Hs & Hrange).
  exists rej, U1, U2. subst v1 v2 s.
  split; [exact Hd|]. split; [exact Hrej|]. split; [exact Hrange|].
  split; reflexivity.
Qed.

(** A supply of rejected pairs, with at most one draw after them, never
    ends the loop: the call takes every draw and none is left to go on
    with. *)
Lemma rand_normal_loop_starved (rejected tail : list R) :
  rn_rejected rejected -> (length tail <= 1)%nat ->
  rand_normal_loop (rejected ++ tail) = None.
Proof.
  intros Hrej Htail. induction Hrej as [|W1 W2 l Hbad _ IH].
  - destruct tail as [|u [|v tail]]; [reflexivity|reflexivity|simpl in Htail; lia].
  - cbn [app]. rewrite rand_normal_loop_reject; [exact IH|].
    intros Hok. apply polar_test_false in Hok. cbv zeta in Hbad.
    R_ops. congruence.
Qed.

Lemma rand_normal_loop_None (draws : list R) :
  rand_normal_loop draws = None ->
  exists rejected tail,
    draws = rejected ++ tail /\ rn_rejected rejected /\ (length tail <= 1)%nat.
Proof.
  induction draws as [draws IH]
    using (well_founded_induction (well_founded_ltof _ (@length R))).
  intros Hloop.
  destruct draws as [|U1 [|U2 tl]].
  - exists [], []. repeat split; [constructor|simpl; lia].
  - exists [], [U1]. repeat split; [constructor|simpl; lia].
  - destruct (Rlt_dec 0 ((2 * U1 - 1) * (2 * U1 - 1) + (2 * U2 - 1) * (2 * U2 - 1)))
      as [Hpos|Hpos];
      [destruct (Rlt_dec ((2 * U1 - 1) * (2 * U1 - 1) + (2 * U2 - 1) * (2 * U2 - 1)) 1)
        as [Hlt|Hlt]|].
    + rewrite rand_normal_loop_accept in Hloop by lra. discriminate.
    + rewrite rand_normal_loop_reject in Hloop by lra.
      apply IH in Hloop; [|unfold ltof; simpl; lia].
      destruct Hloop as (rej & tail & -> & Hrej & Htail).
      exists (U1 :: U2 :: rej), tail. split; [reflexivity|]. split; [|exact Htail].
      constructor; [|exact Hrej]. cbv zeta.
      apply not_false_is_true. intros Hf. apply polar_test_false in Hf. R_ops. lra.
    + rewrite rand_normal_loop_reject in Hloop by lra.
      apply IH in Hloop; [|unfold ltof; simpl; lia].
      destruct Hloop as (rej & tail & -> & Hrej & Htail).
      exists (U1 :: U2 :: rej), tail. split; [reflexivity|]. split; [|exact Htail].
      constructor; [|exact Hrej]. cbv zeta.
      apply not_false_is_true. intros Hf. apply polar_test_false in Hf. R_ops. lra.
Qed.

(** C9.  The state of the polar method lives in the statics [V1], [V2],
    [S] and [phase].
    In phase 0 a call draws pairs from [drand48] by rejection: whatever
    rejected pairs (those with [S >= 1] or [S = 0]) come first, it goes on
    to the first pair with 0 < S < 1, takes no draw after it, stores [V1],
    [V2] and [S], moves to phase 1 and returns [V1 * sqrt(-2 * log(S) / S)];
    the call that follows, whatever draws are on offer, returns
    [V2 * sqrt(-2 * log(S) / S)] from the stored values, takes no draw and
    moves back to phase 0.  The call fails to return exactly when the
    supply holds rejected pairs only (with at most one draw after them),
    and a call that returns has done as described.
    In any other phase a call always returns, reads the statics only,
    takes no draw and replaces [phase] by [1 - phase]. *)
Theorem rand_normal_polar_state (st : rn_static R) :
  (rn_phase st = 0%Z ->
   (forall (rejected : list R) (U1 U2 : R) (rest : list R),
      rn_rejected rejected ->
      0 < (2 * U1 - 1) * (2 * U1 - 1) + (2 * U2 - 1) * (2 * U2 - 1) < 1 ->
      rand_normal st (rejected ++ U1 :: U2 :: rest)
      = Some ((2 * U1 - 1)
              * sqrt (-2 * ln ((2 * U1 - 1) * (2 * U1 - 1) + (2 * U2 - 1) * (2 * U2 - 1))
                      / ((2 * U1 - 1) * (2 * U1 - 1) + (2 * U2 - 1) * (2 * U2 - 1))),
              mk_rn_static (2 * U1 - 1) (2 * U2 - 1)
                ((2 * U1 - 1) * (2 * U1 - 1) + (2 * U2 - 1) * (2 * U2 - 1)) 1%Z,
              rest) /\
      forall draws2 : list R,
        rand_normal
          (mk_rn_static (2 * U1 - 1) (2 * U2 - 1)
             ((2 * U1 - 1) * (2 * U1 - 1) + (2 * U2 - 1) * (2 * U2 - 1)) 1%Z)
          draws2
        = Some ((2 * U2 - 1)
                * sqrt (-2 * ln ((2 * U1 - 1) * (2 * U1 - 1)
                                 + (2 * U2 - 1) * (2 * U2 - 1))
                        / ((2 * U1 - 1) * (2 * U1 - 1) + (2 * U2 - 1) * (2 * U2 - 1))),
                mk_rn_static (2 * U1 - 1) (2 * U2 - 1)
                  ((2 * U1 - 1) * (2 * U1 - 1) + (2 * U2 - 1) * (2 * U2 - 1)) 0%Z,
                draws2)) /\
   (forall draws : list R,
      rand_normal st draws = None
      <-> exists rejected tail,
            draws = rejected ++ tail /\ rn_rejected rejected /\
            (length tail <= 1)%nat) /\
   (forall (draws : list R) (x : R) (st' : rn_static R) (rest : list R),
      rand_normal st draws = Some (x, st', rest) ->
      exists rejected U1 U2,
        draws = rejected ++ U1 :: U2 :: rest /\
        rn_rejected rejected /\
        0 < (2 * U1 - 1) * (2 * U1 - 1) + (2 * U2 - 1) * (2 * U2 - 1) < 1 /\
        st' = mk_rn_static (2 * U1 - 1) (2 * U2 - 1)
                ((2 * U1 - 1) * (2 * U1 - 1) + (2 * U2 - 1) * (2 * U2 - 1)) 1%Z /\
        x = rn_V1 st' * sqrt (-2 * ln (rn_S st') / rn_S st'))) /\
  (rn_phase st <> 0%Z ->
   forall draws : list R,
     rand_normal st draws
     = Some (rn_V2 st * sqrt (-2 * ln (rn_S st) / rn_S st),
             mk_rn_static (rn_V1 st) (rn_V2 st) (rn_S st) (1 - rn_phase st)%Z,
             draws)).
Proof.
  split.
  - intros Hph. split; [|split].
    + intros rejected U1 U2 rest Hrej HS. split.
      * unfold rand_normal. rewrite Hph. cbn [Z.eqb].
        rewrite (rand_normal_loop_total rest Hrej HS). reflexivity.
      * intros draws2. rewrite rand_normal_phase1 by (cbn [rn_phase]; lia).
        reflexivity.
    + intros draws. unfold rand_normal. rewrite Hph. cbn [Z.eqb]. split.
      * destruct (rand_normal_loop draws) as [[[[v1 v2] s] r]|] eqn:Hloop;
          [discriminate|].
        intros _. now apply rand_normal_loop_None.
      * intros (rej & tail & -> & Hrej & Htail).
        now rewrite rand_normal_loop_starved.
    + intros draws x st' rest Hcall. now apply rand_normal_phase0 with (st := st).
  - intros Hph draws. now apply rand_normal_phase1.
Qed.

(** The call from the initial statics on the draws 3/4, 1/2: V1 = 1/2,
    V2 = 0, S = 1/4. *)
Lemma rand_normal_init_example :
  rand_normal rn_init [3 / 4; 1 / 2]
  = Some ((2 * (3 / 4) - 1) * sqrt (rn_sqrt_arg ((2 * (3 / 4) - 1) * (2 * (3 / 4) - 1)
                                       + (2 * (1 / 2) - 1) * (2 * (1 / 2) - 1))),
          mk_rn_static (2 * (3 / 4) - 1) (2 * (1 / 2) - 1)
            ((2 * (3 / 4) - 1) * (2 * (3 / 4) - 1) + (2 * (1 / 2) - 1) * (2 * (1 / 2) - 1))
            1%Z,
          []).
Proof.
  unfold rand_normal. cbn [rn_init rn_phase Z.eqb].
  rewrite rand_normal_loop_accept by lra. reflexivity.
Qed.

(** One rejected pair (1, 1), for which S = 2, then the pair 3/4, 1/2. *)
Lemma rand_normal_polar_state_witness :
  exists x,
    rand_normal (D := R) rn_init ([1; 1] ++ 3 / 4 :: 1 / 2 :: [1 / 3])
    = Some (x, mk_rn_static (2 * (3 / 4) - 1) (2 * (1 / 2) - 1)
                 ((2 * (3 / 4) - 1) * (2 * (3 / 4) - 1)
                  + (2 * (1 / 2) - 1) * (2 * (1 / 2) - 1)) 1%Z,
            [1 / 3]).
Proof.
  assert (Hrej : rn_rejected (D := R) [1; 1]).
  { constructor; [|constructor]. cbv zeta. R_ops.
    apply orb_true_iff. left. apply Rleb_spec. lra. }
  eexists.
  refine (proj1 (proj1 (proj1 (rand_normal_polar_state rn_init) eq_refl)
                   [1; 1] (3 / 4) (1 / 2) [1 / 3] Hrej _)).
  lra.
Defined.

(** The invariant of the statics: in phase 1 the stored [S] is the one of
    an accepted pair. *)
Definition rn_inv (st : rn_static R) : Prop :=
  rn_phase st = 0%Z \/ (rn_phase st = 1%Z /\ 0 < rn_S st < 1).

Lemma rn_inv_init : rn_inv rn_init.
Proof. left; reflexivity. Qed.

Lemma rn_inv_step (st : rn_static R) (draws : list R) x st' rest :
  rn_inv st -> rand_normal st draws = Some (x, st', rest) -> rn_inv st'.
Proof.
  intros Hinv Hcall. destruct Hinv as [Hz|[Ho Hs]].
  - apply rand_normal_phase0 in Hcall; [|exact Hz].
    destruct Hcall as (rej & U1 & U2 & _ & _ & Hr & -> & _).
    right. split; [reflexivity|exact Hr].
  - rewrite rand_normal_phase1 in Hcall by lia.
    inversion Hcall; subst. left. change (1 - rn_phase st = 0)%Z. lia.
Qed.

Lemma rn_reachable_inv (st : rn_static R) : rn_reachable st -> rn_inv st.
Proof.
  induction 1 as [|st draws x st' rest _ IH Hcall].
  - exact rn_inv_init.
  - eapply rn_inv_step; eassumption.
Qed.

(** C10.  In every call of every sequence of calls from the initial
    statics, the [S] under the root has 0 < S < 1: the divisor is not
    zero and the argument [-2 * log(S) / S] of [sqrt] is positive.  The
    value returned is [V1] (phase 0) or [V2] (phase 1) times that root. *)
Theorem rand_normal_sqrt_arg_positive (st : rn_static R) (draws : list R)
    (x : R) (st' : rn_static R) (rest : list R)
    (Hreach : rn_reachable st)
    (Hcall : rand_normal st draws = Some (x, st', rest)) :
  0 < rn_S st' < 1 /\
  rn_S st' <> 0 /\
  0 < rn_sqrt_arg (rn_S st') /\
  x = (if (rn_phase st =? 0)%Z then rn_V1 st' else rn_V2 st')
      * sqrt (rn_sqrt_arg (rn_S st')).
Proof.
  pose proof (rn_reachable_inv Hreach) as Hinv.
  assert (HS : 0 < rn_S st' < 1 /\
               x = (if (rn_phase st =? 0)%Z then rn_V1 st' else rn_V2 st')
                   * sqrt (rn_sqrt_arg (rn_S st'))).
  { destruct Hinv as [Hz|[Ho Hs]].
    - apply rand_normal_phase0 in Hcall; [|exact Hz].
      destruct Hcall as (rej & U1 & U2 & _ & _ & Hr & Hst & Hx).
      rewrite Hz. cbn [Z.eqb]. subst st'. cbn [rn_S rn_V1] in *.
      split; [exact Hr|]. unfold rn_sqrt_arg. R_ops. exact Hx.
    - rewrite rand_normal_phase1 in Hcall by lia.
      inversion Hcall; subst x st' rest; clear Hcall.
      rewrite Ho. cbn [Z.eqb rn_S rn_V2]. split; [exact Hs|].
      unfold rn_sqrt_arg. R_ops. reflexivity. }
  destruct HS as [Hr Hx]. split; [exact Hr|]. split; [lra|].
  split; [now apply rn_sqrt_arg_pos|exact Hx].
Qed.

Lemma rand_normal_sqrt_arg_positive_witness :
  exists x st' rest,
    rand_normal (D := R) rn_init [3 / 4; 1 / 2] = Some (x, st', rest) /\
    0 < rn_S st' < 1 /\ 0 < rn_sqrt_arg (rn_S st').
Proof.
  eexists _, _, _. split; [exact rand_normal_init_example|].
  pose proof (@rand_normal_sqrt_arg_positive _ _ _ _ _ (rn_reach_init (D := R))
                rand_normal_init_example) as (Hr & _ & Hpos & _).
  split; [exact Hr|exact Hpos].
Defined.

(** The invariant holds along any run of [n] calls, so each of the values
    a run returns is computed under it. *)
Lemma rand_normal_n_reachable (n : nat) :
  forall (st : rn_static R) draws xs st' rest,
    rn_reachable st ->
    rand_normal_n n st draws = Some (xs, st', rest) ->
    rn_reachable st' /\ length xs = n.
Proof.
  induction n as [|n IH]; intros st draws xs st' rest Hreach Hrun; simpl in Hrun.
  - inversion Hrun; subst. split; [assumption|reflexivity].
  - destruct (rand_normal st draws) as [[[x st1] d1]|] eqn:Hcall; [|discriminate].
    destruct (rand_normal_n n st1 d1) as [[[xs' st2] d2]|] eqn:Hrec; [|discriminate].
    inversion Hrun; subst; clear Hrun.
    destruct (IH _ _ _ _ _ (rn_reach_call draws Hreach Hcall) Hrec) as [Hr Hl].
    split; [exact Hr|simpl; now rewrite Hl].
Qed.

End RandNormalClaims.

(** ** [matmul] *)

Section MatmulFacts.
Local Open Scope R_scope.

Lemma rd_in_range {D : Type} `{Double D} (a : list D) (i : nat) :
  rd a (Z.of_nat i) = nth i a (dofZ 0).
Proof.
  unfold rd. destruct (Z.ltb_spec (Z.of_nat i) 0); [lia|]. now rewrite Nat2Z.id.
Qed.

Lemma rd_map_seq {D : Type} `{Double D} (f : nat -> D) (len : nat) (i : Z) :
  (0 <= i < Z.of_nat len)%Z ->
  rd (map f (seq 0 len)) i = f (Z.to_nat i).
Proof.
  intros Hi. unfold rd. destruct (Z.ltb_spec i 0); [lia|].
  rewrite nth_indep with (d' := f 0%nat) by (rewrite length_map, length_seq; lia).
  rewrite map_nth with (f := f) (d := 0%nat), seq_nth by lia. reflexivity.
Qed.

(** The cell of entry (i, j) in a column-major array of leading dimension
    [ldc] determines i and j. *)
Lemma cell_mod (i j ldc : Z) :
  (0 <= i < ldc)%Z -> (0 <= j)%Z -> ((i + j * ldc) mod ldc = i)%Z.
Proof.
  intros Hi Hj. symmetry. apply Z.mod_unique with (q := j); [left; lia|lia].
Qed.

Lemma cell_div (i j ldc : Z) :
  (0 <= i < ldc)%Z -> (0 <= j)%Z -> ((i + j * ldc) / ldc = j)%Z.
Proof.
  intros Hi Hj. symmetry. apply Z.div_unique with (r := i); [left; lia|lia].
Qed.

(** The reference routine meets the contract. *)
Lemma dgemm_ref_contract : dgemm_contract dgemm_ref.
Proof.
  intros ta tb m n k alpha A lda B ldb beta C ldc
         (Hta & Htb & Hm & Hn & Hk & Hlda & Hldb & Hldc & HA & HB & HC).
  split.
  - unfold dgemm_ref. now rewrite length_map, length_seq.
  - intros i j Hi Hj. unfold dgemm_ref.
    assert (Hcell : (0 <= i + j * ldc < Z.of_nat (length C))%Z) by nia.
    rewrite rd_map_seq by exact Hcell. cbv zeta.
    rewrite Z2Nat.id by lia.
    rewrite cell_mod, cell_div by lia.
    destruct (Z.ltb_spec 0 ldc); [|lia].
    destruct (Z.ltb_spec i m); [|lia].
    destruct (Z.ltb_spec j n); [|lia].
    reflexivity.
Qed.

(** With the flags of [matmul], the inner product of DGEMM is the entry of
    A^T B. *)
Lemma dgemm_dot_T_N (K : Z) (A B : list R) (i j : Z) :
  dgemm_dot "T" "N" K A K B K i j = At_B_entry K A B i j.
Proof. reflexivity. Qed.

(** C8.  [matmul M N K A B C] is the call
    [DGEMM('T', 'N', M, N, K, 1, A, K, B, K, 0, C, M)]; under the contract
    of DGEMM, and for a K x M array [A], a K x N array [B] and an M x N
    array [C], it leaves in [C] the column-major product A^T B. *)
Theorem matmul_computes_At_B (DGEMM : DGEMM_t R) (M N K : Z) (A B C : list R)
    (Hcontract : dgemm_contract DGEMM)
    (HM : (0 <= M)%Z) (HN : (0 <= N)%Z) (HK : (0 <= K)%Z)
    (HA : Z.of_nat (length A) = (K * M)%Z)
    (HB : Z.of_nat (length B) = (K * N)%Z)
    (HC : Z.of_nat (length C) = (M * N)%Z) :
  matmul DGEMM M N K A B C = DGEMM "T"%char "N"%char M N K 1 A K B K 0 C M /\
  length (matmul DGEMM M N K A B C) = length C /\
  forall i j, (0 <= i < M)%Z -> (0 <= j < N)%Z ->
    rd (matmul DGEMM M N K A B C) (i + j * M)%Z = At_B_entry K A B i j.
Proof.
  split; [reflexivity|].
  assert (Hlegal : dgemm_legal "T" "N" M N K (length A) K (length B) K (length C) M).
  { unfold dgemm_legal. cbn [Ascii.eqb Bool.eqb].
    repeat split; try lia; auto. }
  destruct (Hcontract "T"%char "N"%char M N K 1 A K B K 0 C M Hlegal) as [Hlen Hent].
  split; [exact Hlen|].
  intros i j Hi Hj. unfold matmul. cbv zeta. R_ops.
  rewrite (Hent i j Hi Hj). unfold dgemm_entry. rewrite dgemm_dot_T_N. R_ops. ring.
Qed.

(** A = [[1 3] [2 4]] stored by columns as 1 2 3 4 (K = 2, M = 2) and
    B = (5 6) (K = 2, N = 1): A^T B = (17 39). *)
Lemma matmul_computes_At_B_witness :
  rd (matmul dgemm_ref 2 1 2 [1; 2; 3; 4] [5; 6] [0; 0]) (1 + 0 * 2)%Z
  = At_B_entry 2 [1; 2; 3; 4] [5; 6] 1 0.
Proof.
  refine (proj2 (proj2 (@matmul_computes_At_B dgemm_ref 2 1 2 [1; 2; 3; 4] [5; 6] [0; 0]
                        dgemm_ref_contract _ _ _ _ _ _)) 1%Z 0%Z _ _);
    simpl; lia.
Defined.

Example At_B_entry_example : At_B_entry 2 [1; 2; 3; 4] [5; 6] 1 0 = 39.
Proof. unfold At_B_entry. simpl. unfold rd. simpl. lra. Qed.

End MatmulFacts.

(** On binary64 the reference routine runs. *)
Example matmul_float_example :
  matmul dgemm_ref 2 1 2
    [float_of_Z 1; float_of_Z 2; float_of_Z 3; float_of_Z 4]
    [float_of_Z 5; float_of_Z 6] [float_of_Z 0; float_of_Z 0]
  = [float_of_Z 17; float_of_Z 39].
Proof. vm_compute. reflexivity. Qed.

(* ================================================================== *)
(** * Facts: selection and sorting *)
(* ================================================================== *)

Section ExtractBest.
Context {A : Type} (better : A -> A -> bool).

Lemma extract_best_None (l : list A) :
  extract_best better l = None <-> l = [].
Proof.
  destruct l as [|x l]; simpl; [tauto|].
  destruct (extract_best better l) as [[b r]|]; [destruct (better b x)|];
    split; intros; discriminate.
Qed.

(** The selection takes one element out and keeps the others. *)
Lemma extract_best_perm (l : list A) (x : A) (r : list A) :
  extract_best better l = Some (x, r) -> Permutation l (x :: r).
Proof.
  revert x r; induction l as [|y l IH]; intros x r Hx; simpl in Hx; [discriminate|].
  destruct (extract_best better l) as [[b r']|] eqn:E.
  - destruct (better b y); inversion Hx; subst; clear Hx.
    + rewrite (IH _ _ eq_refl). apply perm_swap.
    + reflexivity.
  - inversion Hx; subst. apply extract_best_None in E. subst. reflexivity.
Qed.

Lemma extract_best_In (l : list A) (x : A) (r : list A) :
  extract_best better l = Some (x, r) -> In x l.
Proof.
  intros Hx. apply extract_best_perm in Hx.
  apply Permutation_sym in Hx. eapply Permutation_in; [exact Hx|now left].
Qed.

Lemma extract_best_length (l : list A) (x : A) (r : list A) :
  extract_best better l = Some (x, r) -> length l = S (length r).
Proof.
  intros Hx. apply extract_best_perm in Hx. now rewrite (Permutation_length Hx).
Qed.

(** For a strict weak order, nothing in the list is better than the element
    selected. *)
Hypothesis better_irrefl : forall x, better x x = false.
Hypothesis better_asym : forall x y, better x y = true -> better y x = false.
Hypothesis better_negtrans :
  forall x y z, better x y = false -> better y z = false -> better x z = false.

Lemma extract_best_best (l : list A) (x : A) (r : list A) :
  extract_best better l = Some (x, r) ->
  forall y, In y l -> better y x = false.
Proof.
  revert x r; induction l as [|a l IH]; intros x r Hx y Hy; simpl in Hx; [discriminate|].
  destruct (extract_best better l) as [[b r']|] eqn:E.
  - destruct (better b a) eqn:Hba; inversion Hx; subst; clear Hx.
    + destruct Hy as [<-|Hy]; [now apply better_asym|now apply (IH _ _ eq_refl)].
    + destruct Hy as [<-|Hy]; [apply better_irrefl|].
      apply better_negtrans with (y := b); [now apply (IH _ _ eq_refl)|exact Hba].
  - inversion Hx; subst. apply extract_best_None in E. subst.
    destruct Hy as [<-|[]]. apply better_irrefl.
Qed.

(** When the order leaves no ties between distinct elements, the element
    selected is the only one nothing is better than. *)
Lemma extract_best_unique (l : list A) (x : A) (r : list A) (z : A) :
  (forall a b, In a l -> In b l -> better a b = false -> better b a = false -> a = b) ->
  extract_best better l = Some (x, r) ->
  In z l -> (forall y, In y l -> better y z = false) ->
  z = x.
Proof.
  intros Htie Hx Hz Hmin.
  pose proof (extract_best_In _ Hx) as Hxl.
  pose proof (extract_best_best _ Hx) as Hbest.
  apply Htie; auto.
Qed.

End ExtractBest.

Section Sorting.
Context {A : Type} (leb : A -> A -> bool).

Definition le_of (a b : A) : Prop := leb a b = true.

Lemma insert_by_perm (x : A) (l : list A) : Permutation (insert_by leb x l) (x :: l).
Proof.
  induction l as [|y l IH]; simpl; [reflexivity|].
  destruct (leb x y); [reflexivity|].
  rewrite IH. apply perm_swap.
Qed.

Lemma sort_by_perm (l : list A) : Permutation (sort_by leb l) l.
Proof.
  induction l as [|x l IH]; simpl; [reflexivity|].
  unfold sort_by in *. simpl. rewrite insert_by_perm. now constructor.
Qed.

Lemma sort_by_length (l : list A) : length (sort_by leb l) = length l.
Proof. apply Permutation_length, sort_by_perm. Qed.

Hypothesis leb_total : forall a b, leb a b = true \/ leb b a = true.
Hypothesis leb_trans : forall a b c, leb a b = true -> leb b c = true -> leb a c = true.

Lemma insert_by_sorted (x : A) (l : list A) :
  StronglySorted le_of l -> StronglySorted le_of (insert_by leb x l).
Proof.
  induction 1 as [|y l Hs IH Hy]; simpl.
  - repeat constructor.
  - destruct (leb x y) eqn:E.
    + constructor; [now constructor|].
      constructor; [exact E|].
      rewrite Forall_forall in *. intros z Hz. apply leb_trans with y; auto.
      apply Hy; exact Hz.
    + constructor; [exact IH|].
      rewrite Forall_forall in *. intros z Hz.
      apply (Permutation_in _ (insert_by_perm x l)) in Hz.
      destruct Hz as [<-|Hz]; [|now apply Hy].
      destruct (leb_total x y) as [H1|H1]; [congruence|exact H1].
Qed.

Lemma sort_by_sorted (l : list A) : StronglySorted le_of (sort_by leb l).
Proof.
  induction l as [|x l IH]; simpl; [constructor|].
  now apply insert_by_sorted.
Qed.

Hypothesis leb_antisym : forall a b, leb a b = true -> leb b a = true -> a = b.

(** Two ascending lists with the same elements are the same list. *)
Lemma sorted_perm_eq (l1 l2 : list A) :
  StronglySorted le_of l1 -> StronglySorted le_of l2 -> Permutation l1 l2 -> l1 = l2.
Proof.
  intros H1; revert l2; induction H1 as [|x l1 Hs1 IH Hx]; intros l2 H2 Hp.
  - apply Permutation_nil in Hp. now subst.
  - destruct H2 as [|y l2 Hs2 Hy].
    + apply Permutation_sym, Permutation_nil in Hp. discriminate.
    + assert (Hxy : x = y).
      { rewrite Forall_forall in Hx, Hy.
        assert (Hyin : In y (x :: l1))
          by (eapply Permutation_in; [apply Permutation_sym, Hp|now left]).
        assert (Hxin : In x (y :: l2))
          by (eapply Permutation_in; [apply Hp|now left]).
        destruct Hyin as [E|Hyin]; [exact E|].
        destruct Hxin as [E|Hxin]; [now symmetry|].
        apply leb_antisym; [now apply Hx|now apply Hy]. }
      subst y. f_equal. apply IH; [exact Hs2|].
      now apply Permutation_cons_inv in Hp.
Qed.

Lemma sort_by_perm_eq (l1 l2 : list A) :
  Permutation l1 l2 -> sort_by leb l1 = sort_by leb l2.
Proof.
  intros Hp. apply sorted_perm_eq; try apply sort_by_sorted.
  rewrite !sort_by_perm. exact Hp.
Qed.

Lemma sorted_app (l1 l2 : list A) :
  StronglySorted le_of l1 -> StronglySorted le_of l2 ->
  (forall a b, In a l1 -> In b l2 -> leb a b = true) ->
  StronglySorted le_of (l1 ++ l2).
Proof.
  induction 1 as [|x l1 Hs IH Hx]; intros H2 Hc; simpl; [exact H2|].
  constructor.
  - apply IH; [exact H2|]. intros a b Ha Hb. apply Hc; [now right|exact Hb].
  - rewrite Forall_forall in *. intros z Hz. apply in_app_or in Hz.
    destruct Hz as [Hz|Hz]; [now apply Hx|]. apply Hc; [now left|exact Hz].
Qed.

(** Sorting a list that splits into a low part and a high part sorts the
    parts. *)
Lemma sort_by_split (l a b : list A) :
  Permutation l (a ++ b) ->
  (forall x y, In x a -> In y b -> leb x y = true) ->
  sort_by leb l = sort_by leb a ++ sort_by leb b.
Proof.
  intros Hp Hc. apply sorted_perm_eq.
  - apply sort_by_sorted.
  - apply sorted_app; try apply sort_by_sorted.
    intros x y Hx Hy. apply Hc.
    + eapply Permutation_in; [apply sort_by_perm|exact Hx].
    + eapply Permutation_in; [apply sort_by_perm|exact Hy].
  - rewrite !sort_by_perm. exact Hp.
Qed.

(** The first [k] of the sorted list are the sorted low part, when the low
    part has [min k (length l)] elements. *)
Lemma firstn_sort_by_split (k : nat) (l a b : list A) :
  Permutation l (a ++ b) ->
  (forall x y, In x a -> In y b -> leb x y = true) ->
  length a = Nat.min k (length l) ->
  firstn k (sort_by leb l) = sort_by leb a.
Proof.
  intros Hp Hc Hlen.
  rewrite sort_by_split with (a := a) (b := b) by assumption.
  pose proof (Permutation_length Hp) as Hl. rewrite length_app in Hl.
  destruct (Nat.le_gt_cases k (length l)) as [Hk|Hk].
  - rewrite Nat.min_l in Hlen by exact Hk.
    rewrite <- Hlen, <- (sort_by_length a) at 1.
    rewrite firstn_app, firstn_all, Nat.sub_diag. simpl. apply app_nil_r.
  - rewrite Nat.min_r in Hlen by lia.
    assert (Hb : b = []) by (apply length_zero_iff_nil; lia). subst b.
    simpl. rewrite app_nil_r. apply firstn_all2. rewrite sort_by_length. lia.
Qed.

End Sorting.

(** Sorting pairs by their first component sorts the first components. *)
Lemma insert_by_map {A B : Type} (f : A -> B) (lebA : A -> A -> bool)
    (lebB : B -> B -> bool) (x : A) (l : list A) :
  (forall a b, lebA a b = lebB (f a) (f b)) ->
  map f (insert_by lebA x l) = insert_by lebB (f x) (map f l).
Proof.
  intros Hf. induction l as [|y l IH]; simpl; [reflexivity|].
  rewrite Hf. destruct (lebB (f x) (f y)); simpl; [reflexivity|now rewrite IH].
Qed.

Lemma sort_by_map {A B : Type} (f : A -> B) (lebA : A -> A -> bool)
    (lebB : B -> B -> bool) (l : list A) :
  (forall a b, lebA a b = lebB (f a) (f b)) ->
  map f (sort_by lebA l) = sort_by lebB (map f l).
Proof.
  intros Hf. induction l as [|x l IH]; simpl; [reflexivity|].
  unfold sort_by in *. simpl. rewrite insert_by_map with (lebB := lebB) by exact Hf.
  now rewrite IH.
Qed.

(** Sums over the first [n] naturals. *)
Lemma sumn_ext (g h : nat -> nat) (n : nat) :
  (forall j, (j < n)%nat -> g j = h j) -> sumn g n = sumn h n.
Proof.
  induction n as [|n IH]; intros He; simpl; [reflexivity|].
  rewrite IH, He; auto.
Qed.

Lemma sumn_update (g h : nat -> nat) (n j0 d : nat) :
  (j0 < n)%nat ->
  (forall j, (j < n)%nat -> j <> j0 -> h j = g j) ->
  h j0 = (g j0 + d)%nat ->
  sumn h n = (sumn g n + d)%nat.
Proof.
  induction n as [|n IH]; intros Hj He H0; [lia|]. simpl.
  destruct (Nat.eq_dec j0 n) as [->|Hne].
  - rewrite H0. rewrite (sumn_ext h g); [lia|]. intros j Hj'. apply He; lia.
  - rewrite IH by (auto; lia). rewrite (He n) by lia. lia.
Qed.

Lemma sumn_const (g : nat -> nat) (n c : nat) :
  (forall j, (j < n)%nat -> g j = c) -> sumn g n = (n * c)%nat.
Proof.
  induction n as [|n IH]; intros Hc; simpl; [reflexivity|].
  rewrite IH, Hc by auto. lia.
Qed.

(* ================================================================== *)
(** * Facts: candidate evaluation *)
(* ================================================================== *)

Section OrderFacts.
Context {D : Type} {HD : Double D} {HO : @DoubleOrder D HD}.

Lemma dltb_true (a b : D) : dltb a b = true <-> dleb b a = false.
Proof. rewrite dltb_dleb. destruct (dleb b a); simpl; split; congruence. Qed.

Lemma dltb_false (a b : D) : dltb a b = false <-> dleb b a = true.
Proof. rewrite dltb_dleb. destruct (dleb b a); simpl; split; congruence. Qed.

Lemma dltb_dleb_weak (a b : D) : dltb a b = true -> dleb a b = true.
Proof.
  intros Hlt. apply dltb_true in Hlt.
  destruct (dleb_total a b) as [Hab|Hba]; [exact Hab|congruence].
Qed.

Lemma farther_irrefl (x : D * Z) : farther x x = false.
Proof. unfold farther. apply dltb_false, dleb_refl. Qed.

Lemma farther_asym (x y : D * Z) : farther x y = true -> farther y x = false.
Proof.
  unfold farther. intros Hxy. apply dltb_false. now apply dltb_dleb_weak.
Qed.

Lemma farther_negtrans (x y z : D * Z) :
  farther x y = false -> farther y z = false -> farther x z = false.
Proof.
  unfold farther. rewrite !dltb_false. intros Hxy Hyz.
  now apply dleb_trans with (fst y).
Qed.

(** The worst pair of the retrieved set is at least as far as every pair
    of it. *)
Lemma worst_is_farthest (h : list (D * Z)) (w : D * Z) (r : list (D * Z)) :
  extract_best farther h = Some (w, r) ->
  forall y, In y h -> dleb (fst y) (fst w) = true.
Proof.
  intros Hw y Hy. apply dltb_false.
  change (farther y w = false).
  eapply extract_best_best; eauto using farther_irrefl, farther_asym, farther_negtrans.
Qed.

(** ** The retrieved set holds the k smallest distances seen *)

(** [h] holds [min k (length dists)] of the distances [dists], and none of
    the others is below one of them. *)
Definition heap_inv (k : Z) (dists : list D) (h : list (D * Z)) : Prop :=
  exists rest,
    Permutation dists (map fst h ++ rest) /\
    (forall x y, In x (map fst h) -> In y rest -> dleb x y = true) /\
    length h = Nat.min (Z.to_nat k) (length dists).

Lemma heap_inv_nil (k : Z) : heap_inv k [] [].
Proof.
  exists []. split; [reflexivity|]. split; [intros x y []|].
  simpl. now rewrite Nat.min_0_r.
Qed.

Lemma heap_insert_inv (k : Z) (dists : list D) (h : list (D * Z)) (d : D) (p : Z) :
  heap_inv k dists h -> heap_inv k (d :: dists) (heap_insert k (d, p) h).
Proof.
  intros (rest & Hperm & Hcross & Hlen).
  pose proof (Permutation_length Hperm) as Hl.
  rewrite length_app, length_map in Hl.
  unfold heap_insert.
  destruct (Z.ltb_spec (Z.of_nat (length h)) k) as [Hlt|Hge].
  - (* room left *)
    assert (Hrest : rest = []) by (apply length_zero_iff_nil; lia). subst rest.
    exists []. split; [simpl; now apply perm_skip|]. split; [intros x y _ []|].
    simpl. lia.
  - destruct (extract_best farther h) as [[w r]|] eqn:Hw.
    + pose proof (extract_best_perm _ _ Hw) as Hhw.
      pose proof (worst_is_farthest _ Hw) as Hmax.
      pose proof (extract_best_length _ _ Hw) as Hlr.
      assert (Hwin : In (fst w) (map fst h))
        by (apply in_map; eapply extract_best_In; eauto).
      change (fst (d, p)) with d.
      destruct (dltb d (fst w)) eqn:Hdw.
      * (* the new point replaces the worst *)
        exists (fst w :: rest). split; [|split].
        -- simpl. apply perm_skip. rewrite Hperm.
           rewrite (Permutation_map fst Hhw). simpl.
           apply Permutation_middle.
        -- intros x y Hx Hy. simpl in Hx.
           assert (Hxw : dleb x (fst w) = true).
           { destruct Hx as [<-|Hx]; [now apply dltb_dleb_weak|].
             apply in_map_iff in Hx. destruct Hx as (e & <- & He).
             apply Hmax. eapply Permutation_in; [apply Permutation_sym, Hhw|now right]. }
           destruct Hy as [<-|Hy]; [exact Hxw|].
           apply dleb_trans with (fst w); [exact Hxw|]. now apply Hcross.
        -- simpl. lia.
      * (* the new point is not kept *)
        exists (d :: rest). split; [|split].
        -- rewrite Hperm. apply Permutation_middle.
        -- intros x y Hx Hy. destruct Hy as [<-|Hy]; [|now apply Hcross].
           apply dleb_trans with (fst w); [|now apply dltb_false].
           apply in_map_iff in Hx. destruct Hx as (e & <- & He). now apply Hmax.
        -- simpl. lia.
    + apply extract_best_None in Hw. subst h.
      exists (d :: rest). split; [|split].
      * simpl in *. now apply perm_skip.
      * intros x y [].
      * simpl in *. lia.
Qed.

Lemma heap_inv_perm (k : Z) (d1 d2 : list D) (h : list (D * Z)) :
  Permutation d1 d2 -> heap_inv k d1 h -> heap_inv k d2 h.
Proof.
  intros Hp (rest & Hperm & Hcross & Hlen). exists rest.
  split; [now rewrite <- Hp|]. split; [exact Hcross|].
  now rewrite <- (Permutation_length Hp).
Qed.

(** From the invariant: the retrieved set, sorted, is the head of the sorted
    list of all the distances seen. *)
Lemma heap_inv_sorted (k : Z) (dists : list D) (h : list (D * Z)) :
  heap_inv k dists h ->
  map fst (sort_by closer h) = firstn (Z.to_nat k) (sort_by dleb dists).
Proof.
  intros (rest & Hperm & Hcross & Hlen).
  rewrite sort_by_map with (lebB := dleb) by reflexivity.
  symmetry. apply firstn_sort_by_split with (b := rest);
    eauto using dleb_total, dleb_trans, dleb_antisym.
  now rewrite length_map.
Qed.

End OrderFacts.

Section EvaluateFacts.
Context {D : Type} {HD : Double D}.
Variables (is_blind : bool) (k dim : Z) (data query : list D).

Lemma seen_before_In (p : Z) (order : list Z) :
  seen_before p order = true <-> In p order.
Proof.
  unfold seen_before. rewrite existsb_exists. split.
  - intros (x & Hx & Heq). apply Z.eqb_eq in Heq. now subst.
  - intros Hp. exists p. split; [exact Hp|apply Z.eqb_refl].
Qed.

Lemma seen_before_not_In (p : Z) (order : list Z) :
  seen_before p order = false <-> ~ In p order.
Proof.
  rewrite <- seen_before_In. destruct (seen_before p order); split; congruence.
Qed.

(** The distance the engine computes for point [p]. *)
Definition dist_of (p : Z) : D :=
  compute_dist (ptr_add data (p * dim)%Z) query dim.

Lemma evaluate_order (p : Z) (ev : eval_state D) :
  ev_order (evaluate is_blind k dim data query p ev)
  = if seen_before p (ev_order ev) then ev_order ev else ev_order ev ++ [p].
Proof. unfold evaluate. now destruct (seen_before p (ev_order ev)). Qed.

Lemma evaluate_In (p : Z) (ev : eval_state D) :
  In p (ev_order (evaluate is_blind k dim data query p ev)).
Proof.
  rewrite evaluate_order. destruct (seen_before p (ev_order ev)) eqn:E.
  - now apply seen_before_In.
  - apply in_or_app. right. now left.
Qed.

Lemma evaluate_incl (p : Z) (ev : eval_state D) :
  incl (ev_order ev) (ev_order (evaluate is_blind k dim data query p ev)).
Proof.
  rewrite evaluate_order. destruct (seen_before p (ev_order ev)).
  - apply incl_refl.
  - apply incl_appl, incl_refl.
Qed.

Lemma evaluate_order_inv (p q : Z) (ev : eval_state D) :
  In q (ev_order (evaluate is_blind k dim data query p ev)) ->
  q = p \/ In q (ev_order ev).
Proof.
  rewrite evaluate_order. destruct (seen_before p (ev_order ev)); [now right|].
  intros Hq. apply in_app_or in Hq. destruct Hq as [Hq|[Hq|[]]]; auto.
Qed.

(** The order is a prefix-extension: evaluation only appends. *)
Lemma evaluate_prefix (p : Z) (ev : eval_state D) :
  exists tl, ev_order (evaluate is_blind k dim data query p ev) = ev_order ev ++ tl.
Proof.
  rewrite evaluate_order. destruct (seen_before p (ev_order ev)).
  - exists []. now rewrite app_nil_r.
  - now exists [p].
Qed.

(** The retrieved counter counts the distinct points evaluated. *)
Definition eval_counts (ev : eval_state D) : Prop :=
  NoDup (ev_order ev) /\
  ev_retrieved ev = Z.of_nat (length (ev_order ev)).

Lemma eval_counts_init : eval_counts (@eval_init D).
Proof. split; [constructor|reflexivity]. Qed.

Lemma count_pop_counts (ev : eval_state D) : eval_counts ev -> eval_counts (count_pop ev).
Proof. intros H. exact H. Qed.

Lemma evaluate_visited (p : Z) (ev : eval_state D) :
  ev_visited (evaluate is_blind k dim data query p ev) = ev_visited ev.
Proof. unfold evaluate. now destruct (seen_before p (ev_order ev)). Qed.

Lemma evaluate_counts (p : Z) (ev : eval_state D) :
  eval_counts ev -> eval_counts (evaluate is_blind k dim data query p ev).
Proof.
  intros (Hnd & Hr). unfold evaluate, eval_counts.
  destruct (seen_before p (ev_order ev)) eqn:E; [now split|].
  cbn [ev_order ev_visited ev_retrieved].
  apply seen_before_not_In in E. rewrite length_app. simpl.
  split; [|lia].
  apply NoDup_app; [exact Hnd|repeat constructor; intros []|].
  intros x Hx [<-|[]]. contradiction.
Qed.

End EvaluateFacts.

Section EvaluateBlind.
Context {D : Type} {HD : Double D}.

(** In blind mode the evaluation reads neither the data nor the query nor
    [k], and leaves the retrieved set alone. *)
Lemma evaluate_blind_indep (k1 dim1 : Z) (data1 query1 : list D)
    (k2 dim2 : Z) (data2 query2 : list D) (p : Z) (ev : eval_state D) :
  evaluate true k1 dim1 data1 query1 p ev = evaluate true k2 dim2 data2 query2 p ev.
Proof. reflexivity. Qed.

Lemma evaluate_blind_heap (k dim : Z) (data query : list D) (p : Z) (ev : eval_state D) :
  ev_heap (evaluate true k dim data query p ev) = ev_heap ev.
Proof. unfold evaluate. now destruct (seen_before p (ev_order ev)). Qed.

End EvaluateBlind.

Section EvaluateHeap.
Context {D : Type} {HD : Double D} {HO : @DoubleOrder D HD}.
Variables (k dim : Z) (data query : list D).

(** The retrieved set of a non-blind query: the [k] smallest of the
    distances of the points evaluated, each pair a point evaluated with its
    distance, no point twice. *)
Definition eval_heap_inv (ev : eval_state D) : Prop :=
  heap_inv k (map (dist_of dim data query) (ev_order ev)) (ev_heap ev) /\
  (forall x, In x (ev_heap ev) ->
     fst x = dist_of dim data query (snd x) /\ In (snd x) (ev_order ev)) /\
  NoDup (map snd (ev_heap ev)).

Lemma eval_heap_inv_init : eval_heap_inv eval_init.
Proof. split; [apply heap_inv_nil|split; [intros x []|constructor]]. Qed.

Lemma count_pop_heap_inv (ev : eval_state D) :
  eval_heap_inv ev -> eval_heap_inv (count_pop ev).
Proof. intros H. exact H. Qed.

Lemma heap_insert_NoDup (x : D * Z) (h : list (D * Z)) :
  NoDup (map snd h) -> ~ In (snd x) (map snd h) ->
  NoDup (map snd (heap_insert k x h)).
Proof.
  intros Hnd Hnew. unfold heap_insert. destruct (Z.of_nat (length h) <? k)%Z.
  - simpl. now constructor.
  - destruct (extract_best farther h) as [[w r]|] eqn:Hw; [|exact Hnd].
    destruct (dltb (fst x) (fst w)); [|exact Hnd].
    pose proof (Permutation_map snd (extract_best_perm _ _ Hw)) as Hp.
    simpl in Hp.
    assert (Hnd' : NoDup (snd w :: map snd r))
      by (eapply Permutation_NoDup; [exact Hp|exact Hnd]).
    inversion Hnd' as [|? ? Hw' Hr]; subst.
    simpl. constructor; [|exact Hr].
    intros Hin. apply Hnew. eapply Permutation_in; [apply Permutation_sym, Hp|].
    now right.
Qed.

Lemma heap_insert_In (x y : D * Z) (h : list (D * Z)) :
  In y (heap_insert k x h) -> y = x \/ In y h.
Proof.
  unfold heap_insert. destruct (Z.of_nat (length h) <? k)%Z.
  - intros [<-|Hy]; auto.
  - destruct (extract_best farther h) as [[w r]|] eqn:Hw; [|now right].
    destruct (dltb (fst x) (fst w)); [|now right].
    intros [<-|Hy]; [now left|right].
    eapply Permutation_in; [apply Permutation_sym, (extract_best_perm _ _ Hw)|now right].
Qed.

Lemma evaluate_heap_inv (p : Z) (ev : eval_state D) :
  eval_heap_inv ev -> eval_heap_inv (evaluate false k dim data query p ev).
Proof.
  intros (Hh & Hent & Hnd). unfold evaluate.
  destruct (seen_before p (ev_order ev)) eqn:E;
    [split; [exact Hh|split; [exact Hent|exact Hnd]]|].
  split; [|split]; cbn [ev_order ev_heap].
  - apply heap_inv_perm with (d1 := dist_of dim data query p
                                    :: map (dist_of dim data query) (ev_order ev)).
    + rewrite map_app. simpl. apply Permutation_cons_append.
    + now apply heap_insert_inv.
  - intros x Hx. apply heap_insert_In in Hx. destruct Hx as [->|Hx].
    + split; [reflexivity|]. apply in_or_app. right. now left.
    + destruct (Hent x Hx) as [H1 H2]. split; [exact H1|].
      apply in_or_app. now left.
  - apply heap_insert_NoDup; [exact Hnd|]. cbn [snd].
    apply seen_before_not_In in E. intros Hin. apply E.
    apply in_map_iff in Hin. destruct Hin as (x & Hx1 & Hx2).
    rewrite <- Hx1. now apply Hent.
Qed.

End EvaluateHeap.

(* ================================================================== *)
(** * Facts: the traversal of a composite index *)
(* ================================================================== *)

Section TraversalFacts.
Context {D : Type} {HD : Double D}.

Lemma nthZ_of_nat {A : Type} (l : list A) (j : nat) (d : A) :
  nthZ l (Z.of_nat j) d = nth j l d.
Proof.
  unfold nthZ. destruct (Z.ltb_spec (Z.of_nat j) 0); [lia|]. now rewrite Nat2Z.id.
Qed.

Lemma file_at_Some (f : list (idx_elem D)) (pos : Z) (el : idx_elem D) :
  file_at f pos = Some el ->
  (0 <= pos < Z.of_nat (length f))%Z /\ nth_error f (Z.to_nat pos) = Some el /\ In el f.
Proof.
  unfold file_at. destruct (Z.ltb_spec pos 0); [discriminate|]. intros Hn.
  assert (Hlt : (Z.to_nat pos < length f)%nat)
    by (apply nth_error_Some; congruence).
  split; [lia|]. split; [exact Hn|]. eapply nth_error_In; eauto.
Qed.

Lemma file_at_of_nat (f : list (idx_elem D)) (n : nat) :
  file_at f (Z.of_nat n) = nth_error f n.
Proof.
  unfold file_at. destruct (Z.ltb_spec (Z.of_nat n) 0); [lia|]. now rewrite Nat2Z.id.
Qed.

Lemma file_at_None (f : list (idx_elem D)) (pos : Z) :
  file_at f pos = None -> (pos < 0 \/ Z.of_nat (length f) <= pos)%Z.
Proof.
  unfold file_at. destruct (Z.ltb_spec pos 0); [now left|]. intros Hn.
  apply nth_error_None in Hn. right. lia.
Qed.

Lemma make_entry_Some (f : list (idx_elem D)) (q : D) (j : Z) (dir : direction)
    (pos : Z) (e : pq_entry D) :
  make_entry f q j dir pos = Some e ->
  exists el, file_at f pos = Some el /\
             e = mk_pq_entry (dabs (dsub (key el) q)) j dir pos (global_value el).
Proof.
  unfold make_entry. destruct (file_at f pos) as [el|]; [|discriminate].
  intros He. inversion He. now exists el.
Qed.

Lemma make_entry_None (f : list (idx_elem D)) (q : D) (j : Z) (dir : direction)
    (pos : Z) :
  make_entry f q j dir pos = None -> file_at f pos = None.
Proof.
  unfold make_entry. destruct (file_at f pos); [discriminate|reflexivity].
Qed.

(** ** Every entry stands in its file, and every pop uses up one step *)

Definition entry_valid (files : list (list (idx_elem D))) (e : pq_entry D) : Prop :=
  exists el, file_at (nthZ files (e_simp e) []) (e_pos e) = Some el
             /\ e_point e = global_value el.

Definition pq_valid (cs : comp_state D) : Prop :=
  forall e, In e (cs_pq cs) -> entry_valid (cs_files cs) e.

Lemma entry_valid_steps (files : list (list (idx_elem D))) (e : pq_entry D) :
  entry_valid files e -> (1 <= entry_steps files e)%nat.
Proof.
  intros (el & Hel & _). apply file_at_Some in Hel. destruct Hel as (Hr & _).
  unfold entry_steps. destruct (e_dir e); lia.
Qed.

Lemma make_entry_valid (files : list (list (idx_elem D))) (q : D) (j : Z)
    (dir : direction) (pos : Z) (e : pq_entry D) :
  make_entry (nthZ files j []) q j dir pos = Some e -> entry_valid files e.
Proof.
  intros He. apply make_entry_Some in He. destruct He as (el & Hel & ->).
  exists el. cbn [e_simp e_pos e_point]. now split.
Qed.

(** The entry pushed after a pop has one step less than the entry popped;
    nothing is pushed only when the entry popped had one step left. *)
Lemma next_entry_steps (files : list (list (idx_elem D))) (q : D) (e : pq_entry D) :
  entry_valid files e ->
  list_sum (map (entry_steps files)
              (push_opt (make_entry (nthZ files (e_simp e) []) q (e_simp e)
                           (e_dir e) (advance e)) []))
  = (entry_steps files e - 1)%nat.
Proof.
  intros (el & Hel & _). apply file_at_Some in Hel. destruct Hel as (Hr & _).
  destruct (make_entry (nthZ files (e_simp e) []) q (e_simp e) (e_dir e) (advance e))
    as [e'|] eqn:He'.
  - apply make_entry_Some in He'. destruct He' as (el' & Hel' & ->).
    apply file_at_Some in Hel'. destruct Hel' as (Hr' & _).
    cbn [push_opt map]. unfold entry_steps, advance, list_sum in *.
    cbn [e_simp e_pos e_dir fold_right]. destruct (e_dir e); lia.
  - apply make_entry_None, file_at_None in He'.
    cbn [push_opt map]. unfold entry_steps, advance, list_sum in *.
    cbn [fold_right]. destruct (e_dir e); lia.
Qed.

Lemma push_opt_app (o : option (pq_entry D)) (pq : list (pq_entry D)) :
  push_opt o pq = push_opt o [] ++ pq.
Proof. now destruct o. Qed.

Lemma comp_step_files (Ls : Z) (cs cs' : comp_state D) (prom : option Z) :
  comp_step Ls cs = Some (prom, cs') ->
  cs_files cs' = cs_files cs /\ cs_qproj cs' = cs_qproj cs.
Proof.
  unfold comp_step. destruct (extract_best entry_before (cs_pq cs)) as [[e pq']|];
    [|discriminate].
  intros Hs. inversion Hs; subst. now split.
Qed.

Lemma comp_step_None (Ls : Z) (cs : comp_state D) :
  comp_step Ls cs = None <-> cs_pq cs = [].
Proof.
  unfold comp_step. destruct (extract_best entry_before (cs_pq cs)) as [[e pq']|] eqn:E.
  - split; [discriminate|]. intros Hnil. rewrite Hnil in E. discriminate.
  - apply extract_best_None in E. split; auto.
Qed.

Lemma comp_step_valid (Ls : Z) (cs cs' : comp_state D) (prom : option Z) :
  pq_valid cs -> comp_step Ls cs = Some (prom, cs') -> pq_valid cs'.
Proof.
  unfold comp_step, pq_valid. intros Hv.
  destruct (extract_best entry_before (cs_pq cs)) as [[e pq']|] eqn:E; [|discriminate].
  intros Hs. inversion Hs; subst; clear Hs. cbn [cs_pq cs_files].
  intros x Hx. rewrite push_opt_app in Hx. apply in_app_or in Hx.
  destruct Hx as [Hx|Hx].
  - destruct (make_entry (nthZ (cs_files cs) (e_simp e) [])
                (nthZ (cs_qproj cs) (e_simp e) (dofZ 0)) (e_simp e) (e_dir e) (advance e))
      as [e'|] eqn:He'; [|destruct Hx].
    destruct Hx as [<-|[]]. eapply make_entry_valid; eauto.
  - apply Hv. eapply Permutation_in;
      [apply Permutation_sym, (extract_best_perm _ _ E)|now right].
Qed.

Lemma comp_step_steps (Ls : Z) (cs cs' : comp_state D) (prom : option Z) :
  pq_valid cs -> comp_step Ls cs = Some (prom, cs') ->
  (S (comp_steps cs') = comp_steps cs)%nat.
Proof.
  unfold comp_step, pq_valid, comp_steps. intros Hv.
  destruct (extract_best entry_before (cs_pq cs)) as [[e pq']|] eqn:E; [|discriminate].
  intros Hs. inversion Hs; subst; clear Hs. cbn [cs_pq cs_files].
  pose proof (extract_best_perm _ _ E) as Hp.
  assert (Hev : entry_valid (cs_files cs) e)
    by (apply Hv; eapply extract_best_In; eauto).
  rewrite (Permutation_list_sum (Permutation_map (entry_steps (cs_files cs)) Hp)).
  rewrite push_opt_app, map_app, list_sum_app, next_entry_steps by exact Hev.
  pose proof (entry_valid_steps Hev). simpl. lia.
Qed.

(** The entry popped names the point promoted. *)
Lemma comp_step_promoted (Ls : Z) (cs cs' : comp_state D) (prom : option Z) :
  comp_step Ls cs = Some (prom, cs') ->
  cs_promoted cs' = cs_promoted cs ++ match prom with Some p => [p] | None => [] end.
Proof.
  unfold comp_step.
  destruct (extract_best entry_before (cs_pq cs)) as [[e pq']|]; [|discriminate].
  intros Hs. inversion Hs; subst; clear Hs. cbn [cs_promoted].
  destruct (witness_count (e_point e) (e_point e :: cs_witnessed cs) =? Ls)%Z;
    [reflexivity|now rewrite app_nil_r].
Qed.

End TraversalFacts.

(* ================================================================== *)
(** * Facts: what a composite index has visited *)
(* ================================================================== *)

Lemma firstn_succ_snoc {A : Type} (l : list A) (n : nat) (x : A) :
  nth_error l n = Some x -> firstn (S n) l = firstn n l ++ [x].
Proof.
  revert n; induction l as [|a l IH]; intros [|n] Hn; simpl in *; try discriminate.
  - now inversion Hn.
  - f_equal. now apply IH.
Qed.

Lemma skipn_nth_cons {A : Type} (l : list A) (n : nat) (x : A) :
  nth_error l n = Some x -> skipn n l = x :: skipn (S n) l.
Proof.
  revert n; induction l as [|a l IH]; intros [|n] Hn; simpl in *; try discriminate.
  - now inversion Hn.
  - now apply IH.
Qed.

Lemma direction_eq_dec (a b : direction) : {a = b} + {a <> b}.
Proof. decide equality. Qed.

Section CursorFacts.
Context {D : Type} {HD : Double D}.

(** The iterators of simple index [j] have visited the positions from
    [fst c] up to [snd c - 1] of its file: the one going up stands at
    [snd c], the one going down at [fst c - 1]. *)
Definition slot_pos (c : nat * nat) (d : direction) : Z :=
  match d with
  | Up => Z.of_nat (snd c)
  | Down => (Z.of_nat (fst c) - 1)%Z
  end.

Definition slot_entry (F : list (list (idx_elem D))) (Q : list D)
    (cur : nat -> nat * nat) (j : nat) (d : direction) : option (pq_entry D) :=
  make_entry (nth j F []) (nth j Q (dofZ 0)) (Z.of_nat j) d (slot_pos (cur j) d).

Definition visited_of (f : list (idx_elem D)) (c : nat * nat) : list Z :=
  map (@global_value D) (firstn (snd c - fst c) (skipn (fst c) f)).

Lemma visited_of_up (f : list (idx_elem D)) (lo hi : nat) (el : idx_elem D) :
  (lo <= hi)%nat -> nth_error f hi = Some el ->
  visited_of f (lo, S hi) = visited_of f (lo, hi) ++ [global_value el].
Proof.
  intros Hle Hn. unfold visited_of. cbn [fst snd].
  replace (S hi - lo)%nat with (S (hi - lo)) by lia.
  rewrite firstn_succ_snoc with (x := el).
  - now rewrite map_app.
  - rewrite nth_error_skipn. now replace (lo + (hi - lo))%nat with hi by lia.
Qed.

Lemma visited_of_down (f : list (idx_elem D)) (lo hi : nat) (el : idx_elem D) :
  (1 <= lo <= hi)%nat -> nth_error f (lo - 1) = Some el ->
  visited_of f ((lo - 1)%nat, hi) = global_value el :: visited_of f (lo, hi).
Proof.
  intros Hle Hn. unfold visited_of. cbn [fst snd].
  rewrite (skipn_nth_cons _ _ Hn).
  replace (S (lo - 1)) with lo by lia.
  replace (hi - (lo - 1))%nat with (S (hi - lo)) by lia.
  reflexivity.
Qed.

Lemma visited_of_empty (f : list (idx_elem D)) (n : nat) : visited_of f (n, n) = [].
Proof. unfold visited_of. cbn [fst snd]. now rewrite Nat.sub_diag. Qed.

Lemma visited_of_all (f : list (idx_elem D)) :
  visited_of f (0%nat, length f) = map (@global_value D) f.
Proof.
  unfold visited_of. cbn [fst snd skipn]. now rewrite Nat.sub_0_r, firstn_all.
Qed.

Lemma slot_entry_ident (F : list (list (idx_elem D))) (Q : list D)
    (cur : nat -> nat * nat) (j : nat) (d : direction) (x : pq_entry D) :
  slot_entry F Q cur j d = Some x -> e_simp x = Z.of_nat j /\ e_dir x = d.
Proof.
  unfold slot_entry. intros Hx. apply make_entry_Some in Hx.
  destruct Hx as (el & _ & ->). now split.
Qed.

(** Replacing the entry popped by the next entry of the same iterator keeps
    the queue the set of the entries of all the iterators. *)
Lemma pq_slot_update (m : nat) (S S' : nat -> direction -> option (pq_entry D))
    (pq pq' : list (pq_entry D)) (e : pq_entry D) (j0 : nat) (d0 : direction) :
  (forall x, In x pq <-> exists j d, (j < m)%nat /\ S j d = Some x) ->
  NoDup pq -> Permutation pq (e :: pq') ->
  (j0 < m)%nat -> S j0 d0 = Some e ->
  (forall j d x, S j d = Some x -> e_simp x = Z.of_nat j /\ e_dir x = d) ->
  (forall j d x, S' j d = Some x -> e_simp x = Z.of_nat j /\ e_dir x = d) ->
  (forall j d, (j, d) <> (j0, d0) -> S' j d = S j d) ->
  (forall x, In x (push_opt (S' j0 d0) pq')
             <-> exists j d, (j < m)%nat /\ S' j d = Some x) /\
  NoDup (push_opt (S' j0 d0) pq').
Proof.
  intros Hpq Hnd Hperm Hj0 He Hid Hid' Hsame.
  assert (Hnd' : NoDup (e :: pq')) by (eapply Permutation_NoDup; eauto).
  inversion Hnd' as [|? ? Hnotin Hndq]; subst.
  assert (Hslot : forall j d, {(j, d) = (j0, d0)} + {(j, d) <> (j0, d0)}).
  { intros j d. destruct (Nat.eq_dec j j0) as [->|Hj];
      [destruct (direction_eq_dec d d0) as [->|Hd]|].
    - now left.
    - right. congruence.
    - right. congruence. }
  assert (Hin_pq' : forall x, In x pq' <->
            exists j d, (j < m)%nat /\ (j, d) <> (j0, d0) /\ S j d = Some x).
  { intros x. split.
    - intros Hx. assert (Hxp : In x pq)
        by (eapply Permutation_in; [apply Permutation_sym, Hperm|now right]).
      apply Hpq in Hxp. destruct Hxp as (j & d & Hj & Hs).
      exists j, d. split; [exact Hj|]. split; [|exact Hs].
      intros Heq. inversion Heq; subst. rewrite He in Hs. inversion Hs; subst.
      contradiction.
    - intros (j & d & Hj & Hne & Hs).
      assert (Hxp : In x pq) by (apply Hpq; eauto).
      apply (Permutation_in _ Hperm) in Hxp. destruct Hxp as [<-|Hxp]; [|exact Hxp].
      exfalso. apply Hne.
      destruct (Hid _ _ _ Hs) as [H1 H2]. destruct (Hid _ _ _ He) as [H3 H4].
      f_equal; [lia|congruence]. }
  split.
  - intros x. rewrite push_opt_app, in_app_iff. split.
    + intros [Hx|Hx].
      * destruct (S' j0 d0) as [e'|] eqn:E'; [|destruct Hx].
        destruct Hx as [<-|[]]. eauto.
      * apply Hin_pq' in Hx. destruct Hx as (j & d & Hj & Hne & Hs).
        exists j, d. split; [exact Hj|]. now rewrite Hsame.
    + intros (j & d & Hj & Hs). destruct (Hslot j d) as [Heq|Hne].
      * inversion Heq; subst. left. rewrite Hs. now left.
      * right. apply Hin_pq'. exists j, d. rewrite <- Hsame by exact Hne. auto.
  - destruct (S' j0 d0) as [e'|] eqn:E'; cbn [push_opt]; [|exact Hndq].
    constructor; [|exact Hndq]. intros Hin. apply Hin_pq' in Hin.
    destruct Hin as (j & d & Hj & Hne & Hs). apply Hne.
    destruct (Hid _ _ _ Hs) as [H1 H2]. destruct (Hid' _ _ _ E') as [H3 H4].
    f_equal; [lia|congruence].
Qed.

End CursorFacts.

Section CompositeInvariant.
Context {D : Type} {HD : Double D}.
Variable Ls : Z.

(** The invariant of a composite index, for cursors [cur]: the queue holds
    exactly the entries of the iterators; the counters count, per point, the
    simple indices that have visited it; the points promoted are those whose
    counter has reached [Ls]. *)
Record comp_inv (cs : comp_state D) (cur : nat -> nat * nat) : Prop := mk_comp_inv {
  ci_len : Z.of_nat (length (cs_files cs)) = Ls;
  ci_pos : (1 <= Ls)%Z;
  ci_cur : forall j, (j < length (cs_files cs))%nat ->
             (fst (cur j) <= snd (cur j) <= length (nth j (cs_files cs) []))%nat;
  ci_pq : forall e, In e (cs_pq cs) <->
             exists j d, (j < length (cs_files cs))%nat /\
                         slot_entry (cs_files cs) (cs_qproj cs) cur j d = Some e;
  ci_nodup : NoDup (cs_pq cs);
  ci_wit : forall p,
             count_occ Z.eq_dec (cs_witnessed cs) p
             = sumn (fun j => count_occ Z.eq_dec
                                (visited_of (nth j (cs_files cs) []) (cur j)) p)
                    (length (cs_files cs));
  ci_prom : forall p, In p (cs_promoted cs)
                      <-> (Ls <= witness_count p (cs_witnessed cs))%Z
}.

(** The cursors after the iterator [d0] of simple index [j0] has advanced. *)
Definition cur_advance (cur : nat -> nat * nat) (j0 : nat) (d0 : direction)
    : nat -> nat * nat :=
  fun j =>
    if Nat.eqb j j0 then
      match d0 with
      | Up => (fst (cur j0), S (snd (cur j0)))
      | Down => ((fst (cur j0) - 1)%nat, snd (cur j0))
      end
    else cur j.

Lemma cur_advance_other (cur : nat -> nat * nat) (j0 : nat) (d0 : direction) (j : nat) :
  j <> j0 -> cur_advance cur j0 d0 j = cur j.
Proof.
  intros Hne. unfold cur_advance. destruct (Nat.eqb_spec j j0); [contradiction|reflexivity].
Qed.

Lemma cur_advance_same (cur : nat -> nat * nat) (j0 : nat) (d0 : direction) :
  cur_advance cur j0 d0 j0
  = match d0 with
    | Up => (fst (cur j0), S (snd (cur j0)))
    | Down => ((fst (cur j0) - 1)%nat, snd (cur j0))
    end.
Proof. unfold cur_advance. now rewrite Nat.eqb_refl. Qed.

(** The other iterators keep their entries. *)
Lemma slot_entry_advance_other (F : list (list (idx_elem D))) (Q : list D)
    (cur : nat -> nat * nat) (j0 : nat) (d0 : direction) (j : nat) (d : direction) :
  (j, d) <> (j0, d0) ->
  slot_entry F Q (cur_advance cur j0 d0) j d = slot_entry F Q cur j d.
Proof.
  intros Hne. unfold slot_entry. destruct (Nat.eq_dec j j0) as [->|Hj].
  - rewrite cur_advance_same.
    destruct d0, d; try (exfalso; apply Hne; reflexivity); reflexivity.
  - now rewrite cur_advance_other.
Qed.

(** The counters after a pop that visits point [p] in file [j0]. *)
Lemma witnessed_advance (F : list (list (idx_elem D))) (cur cur' : nat -> nat * nat)
    (w : list Z) (j0 : nat) (p : Z) :
  (j0 < length F)%nat ->
  (forall j, j <> j0 -> cur' j = cur j) ->
  (forall q, count_occ Z.eq_dec (visited_of (nth j0 F []) (cur' j0)) q
             = (count_occ Z.eq_dec (visited_of (nth j0 F []) (cur j0)) q
                + count_occ Z.eq_dec [p] q)%nat) ->
  (forall q, count_occ Z.eq_dec w q
             = sumn (fun j => count_occ Z.eq_dec (visited_of (nth j F []) (cur j)) q)
                    (length F)) ->
  forall q, count_occ Z.eq_dec (p :: w) q
            = sumn (fun j => count_occ Z.eq_dec (visited_of (nth j F []) (cur' j)) q)
                   (length F).
Proof.
  intros Hj0 Hother Hsame Hw q.
  rewrite sumn_update with (g := fun j => count_occ Z.eq_dec
                                            (visited_of (nth j F []) (cur j)) q)
                           (j0 := j0) (d := count_occ Z.eq_dec [p] q).
  - rewrite <- Hw. simpl. destruct (Z.eq_dec p q); lia.
  - exact Hj0.
  - intros j _ Hne. now rewrite Hother.
  - apply Hsame.
Qed.

(** The points promoted after a pop that witnesses [p]. *)
Lemma promoted_advance (promoted w : list Z) (p : Z) :
  (1 <= Ls)%Z ->
  (forall q, In q promoted <-> (Ls <= witness_count q w)%Z) ->
  forall q,
    In q (match (if (witness_count p (p :: w) =? Ls)%Z then Some p else None) with
          | Some p' => promoted ++ [p']
          | None => promoted
          end)
    <-> (Ls <= witness_count q (p :: w))%Z.
Proof.
  intros HLs Hprom q. unfold witness_count in *. simpl.
  destruct (Z.eq_dec p p) as [_|Hne]; [|contradiction].
  destruct (Z.eq_dec p q) as [<-|Hpq].
  - destruct (Z.eqb_spec (Z.of_nat (S (count_occ Z.eq_dec w p))) Ls) as [Heq|Hneq].
    + rewrite in_app_iff. split; [lia|]. intros _. right. now left.
    + rewrite Hprom. lia.
  - destruct (Z.of_nat (S (count_occ Z.eq_dec w p)) =? Ls)%Z.
    + rewrite in_app_iff, Hprom. split; [intros [H|[H|[]]]; [exact H|contradiction]|auto].
    + apply Hprom.
Qed.

End CompositeInvariant.

Section CompositeStep.
Context {D : Type} {HD : Double D}.
Variable Ls : Z.

(** A pop keeps the invariant, for the cursors advanced by one step. *)
Lemma comp_step_inv (cs cs' : comp_state D) (cur : nat -> nat * nat) (prom : option Z) :
  comp_inv Ls cs cur -> comp_step Ls cs = Some (prom, cs') ->
  exists cur', comp_inv Ls cs' cur'.
Proof.
  intros [Hlen HLs Hcur Hpq Hnd Hwit Hprom]. unfold comp_step.
  destruct (extract_best entry_before (cs_pq cs)) as [[e pq']|] eqn:E; [|discriminate].
  intros Hs. inversion Hs; subst prom cs'; clear Hs.
  pose proof (extract_best_perm _ _ E) as Hperm.
  assert (Hein : In e (cs_pq cs)) by (eapply extract_best_In; eauto).
  apply Hpq in Hein. destruct Hein as (j0 & d0 & Hj0 & Hslot).
  pose proof Hslot as Hmk. unfold slot_entry in Hmk.
  apply make_entry_Some in Hmk. destruct Hmk as (el & Hfile & He).
  apply file_at_Some in Hfile. destruct Hfile as (Hrange & Hnth & _).
  specialize (Hcur j0 Hj0) as Hc0.
  assert (Hnext :
    make_entry (nthZ (cs_files cs) (e_simp e) []) (nthZ (cs_qproj cs) (e_simp e) (dofZ 0))
      (e_simp e) (e_dir e) (advance e)
    = slot_entry (cs_files cs) (cs_qproj cs) (cur_advance cur j0 d0) j0 d0).
  { subst e. unfold slot_entry, advance. cbn [e_simp e_dir e_pos].
    rewrite !nthZ_of_nat, cur_advance_same. f_equal.
    destruct d0; cbn [slot_pos fst snd] in *; lia. }
  rewrite Hnext.
  destruct (pq_slot_update
              (slot_entry (cs_files cs) (cs_qproj cs) cur)
              (slot_entry (cs_files cs) (cs_qproj cs) (cur_advance cur j0 d0))
              Hpq Hnd Hperm Hj0 Hslot)
    as [Hpq' Hnd'].
  { intros j d x. apply slot_entry_ident. }
  { intros j d x. apply slot_entry_ident. }
  { intros j d. apply slot_entry_advance_other. }
  exists (cur_advance cur j0 d0).
  constructor; cbn [cs_files cs_qproj cs_pq cs_witnessed cs_promoted].
  - exact Hlen.
  - exact HLs.
  - intros j Hj. destruct (Nat.eq_dec j j0) as [->|Hne].
    + rewrite cur_advance_same.
      destruct d0; cbn [slot_pos fst snd] in *; lia.
    + rewrite cur_advance_other by exact Hne. now apply Hcur.
  - exact Hpq'.
  - exact Hnd'.
  - apply witnessed_advance with (cur := cur) (j0 := j0); auto.
    + intros j Hne. now apply cur_advance_other.
    + intros q. rewrite cur_advance_same. subst e. cbn [e_point].
      destruct (cur j0) as [lo hi] eqn:Hc. cbn [fst snd slot_pos] in *.
      destruct d0; cbn [slot_pos fst snd] in *.
      * rewrite Nat2Z.id in Hnth.
        rewrite visited_of_up with (el := el) by (auto; lia).
        now rewrite count_occ_app.
      * replace (Z.to_nat (Z.of_nat lo - 1)) with (lo - 1)%nat in Hnth by lia.
        rewrite visited_of_down with (el := el) by (auto; lia).
        simpl. destruct (Z.eq_dec (global_value el) q); lia.
  - now apply promoted_advance.
Qed.

(** The point a pop visits is a point of the files. *)
Lemma comp_step_point (cs cs' : comp_state D) (cur : nat -> nat * nat) (p : Z) :
  comp_inv Ls cs cur -> comp_step Ls cs = Some (Some p, cs') ->
  exists f el, In f (cs_files cs) /\ In el f /\ p = global_value el.
Proof.
  intros [Hlen HLs Hcur Hpq Hnd Hwit Hprom]. unfold comp_step.
  destruct (extract_best entry_before (cs_pq cs)) as [[e pq']|] eqn:E; [|discriminate].
  intros Hs.
  destruct (witness_count (e_point e) (e_point e :: cs_witnessed cs) =? Ls)%Z;
    inversion Hs; subst; clear Hs.
  assert (Hein : In e (cs_pq cs)) by (eapply extract_best_In; eauto).
  apply Hpq in Hein. destruct Hein as (j0 & d0 & Hj0 & Hslot).
  unfold slot_entry in Hslot. apply make_entry_Some in Hslot.
  destruct Hslot as (el & Hfile & ->). apply file_at_Some in Hfile.
  destruct Hfile as (_ & _ & Hin).
  exists (nth j0 (cs_files cs) []), el. split; [now apply nth_In|]. now split.
Qed.

(** When the queue is empty every iterator is at its end, and every point
    that stands once in each file has been promoted. *)
Lemma comp_inv_drained (cs : comp_state D) (cur : nat -> nat * nat) (p : Z) :
  comp_inv Ls cs cur -> cs_pq cs = [] ->
  (forall f, In f (cs_files cs) ->
     count_occ Z.eq_dec (map (@global_value D) f) p = 1%nat) ->
  In p (cs_promoted cs).
Proof.
  intros [Hlen HLs Hcur Hpq Hnd Hwit Hprom] Hempty Hone.
  apply Hprom. unfold witness_count. rewrite Hwit.
  rewrite sumn_const with (c := 1%nat); [lia|].
  intros j Hj. specialize (Hcur j Hj).
  assert (Hup : slot_entry (cs_files cs) (cs_qproj cs) cur j Up = None).
  { destruct (slot_entry (cs_files cs) (cs_qproj cs) cur j Up) as [x|] eqn:Hx;
      [|reflexivity].
    assert (Hin : In x (cs_pq cs)) by (apply Hpq; eauto). rewrite Hempty in Hin.
    destruct Hin. }
  assert (Hdown : slot_entry (cs_files cs) (cs_qproj cs) cur j Down = None).
  { destruct (slot_entry (cs_files cs) (cs_qproj cs) cur j Down) as [x|] eqn:Hx;
      [|reflexivity].
    assert (Hin : In x (cs_pq cs)) by (apply Hpq; eauto). rewrite Hempty in Hin.
    destruct Hin. }
  unfold slot_entry in Hup, Hdown.
  apply make_entry_None, file_at_None in Hup.
  apply make_entry_None, file_at_None in Hdown.
  destruct (cur j) as [lo hi]. cbn [slot_pos fst snd] in *.
  assert (Hlo : lo = 0%nat) by lia. assert (Hhi : hi = length (nth j (cs_files cs) [])) by lia.
  subst lo hi. rewrite visited_of_all. apply Hone. now apply nth_In.
Qed.

End CompositeStep.

Section CompositeInit.
Context {D : Type} {HD : Double D}.

Lemma search_loop_bounds (f : list (idx_elem D)) (q : D) (fuel : nat) (lo hi : Z) :
  (lo <= hi)%Z -> (lo <= search_loop f q fuel lo hi <= hi)%Z.
Proof.
  revert lo hi; induction fuel as [|fuel IH]; intros lo hi Hle; cbn [search_loop]; [lia|].
  destruct (Z.ltb_spec lo hi) as [Hlt|_]; [|lia].
  assert (Hmid : (lo <= (lo + hi) / 2 < hi)%Z).
  { split; [apply Z.div_le_lower_bound; lia|apply Z.div_lt_upper_bound; lia]. }
  destruct (file_at f ((lo + hi) / 2)) as [el|]; [|lia].
  destruct (dltb (key el) q).
  - specialize (IH ((lo + hi) / 2 + 1)%Z hi). lia.
  - specialize (IH lo ((lo + hi) / 2)%Z). lia.
Qed.

Lemma insertion_point_bounds (f : list (idx_elem D)) (q : D) :
  (0 <= insertion_point f q <= Z.of_nat (length f))%Z.
Proof. unfold insertion_point. apply search_loop_bounds. lia. Qed.

Lemma push_opt_In (o : option (pq_entry D)) (pq : list (pq_entry D)) (e : pq_entry D) :
  In e (push_opt o pq) <-> o = Some e \/ In e pq.
Proof.
  destruct o as [x|]; simpl; split.
  - intros [->|H]; auto.
  - intros [H|H]; [inversion H; auto|auto].
  - auto.
  - intros [H|H]; [discriminate|exact H].
Qed.

(** The cursors at the start of a query: both iterators of a simple index
    stand at the insertion point of the query's projection. *)
Definition cur_init (F : list (list (idx_elem D))) (Q : list D) : nat -> nat * nat :=
  fun j =>
    let ins := Z.to_nat (insertion_point (nth j F []) (nth j Q (dofZ 0))) in (ins, ins).

(** The entries seeded are those of the iterators at their start. *)
Lemma seed_pq_In (F : list (list (idx_elem D))) (Q : list D) (j0 : Z) (e : pq_entry D) :
  length Q = length F ->
  (In e (seed_pq F Q j0) <->
   exists i d, (i < length F)%nat /\
     make_entry (nth i F []) (nth i Q (dofZ 0)) (j0 + Z.of_nat i) d
       (slot_pos (cur_init F Q i) d) = Some e).
Proof.
  revert Q j0; induction F as [|f F IH]; intros [|q Q] j0 Hlen; try discriminate.
  - simpl. split; [intros []|intros (i & d & Hi & _); lia].
  - cbn [seed_pq]. rewrite !push_opt_In.
    pose proof (insertion_point_bounds f q) as Hb.
    rewrite IH by (simpl in Hlen; lia). split.
    + intros [Hup|[Hdown|(i & d & Hi & Hmk)]].
      * exists 0%nat, Up. split; [simpl; lia|].
        unfold cur_init. cbn [nth slot_pos fst snd].
        rewrite Z2Nat.id by lia. now rewrite Z.add_0_r.
      * exists 0%nat, Down. split; [simpl; lia|].
        unfold cur_init. cbn [nth slot_pos fst snd].
        rewrite Z2Nat.id by lia. now rewrite Z.add_0_r.
      * exists (S i), d. split; [simpl; lia|].
        unfold cur_init in *. cbn [nth].
        replace (j0 + Z.of_nat (S i))%Z with (j0 + 1 + Z.of_nat i)%Z by lia. exact Hmk.
    + intros ([|i] & d & Hi & Hmk).
      * unfold cur_init in Hmk. cbn [nth slot_pos fst snd] in Hmk.
        rewrite Z.add_0_r in Hmk.
        destruct d; cbn [slot_pos fst snd] in Hmk; rewrite Z2Nat.id in Hmk by lia; auto.
      * right. right. exists i, d. split; [simpl in Hi; lia|].
        unfold cur_init in *. cbn [nth] in Hmk.
        replace (j0 + Z.of_nat (S i))%Z with (j0 + 1 + Z.of_nat i)%Z in Hmk by lia.
        exact Hmk.
Qed.

Lemma seed_pq_simp (F : list (list (idx_elem D))) (Q : list D) (j0 : Z) (e : pq_entry D) :
  In e (seed_pq F Q j0) -> (j0 <= e_simp e)%Z.
Proof.
  revert Q j0; induction F as [|f F IH]; intros [|q Q] j0; cbn [seed_pq];
    try (intros []).
  rewrite !push_opt_In. intros [Hup|[Hdown|Hin]].
  - apply make_entry_Some in Hup. destruct Hup as (el & _ & ->). simpl. lia.
  - apply make_entry_Some in Hdown. destruct Hdown as (el & _ & ->). simpl. lia.
  - apply IH in Hin. lia.
Qed.

Lemma seed_pq_NoDup (F : list (list (idx_elem D))) (Q : list D) (j0 : Z) :
  NoDup (seed_pq F Q j0).
Proof.
  revert Q j0; induction F as [|f F IH]; intros [|q Q] j0; cbn [seed_pq];
    try constructor.
  assert (Htail : forall e, In e (seed_pq F Q (j0 + 1)) -> e_simp e <> j0)
    by (intros e He; apply seed_pq_simp in He; lia).
  assert (Hnd2 : NoDup (push_opt (make_entry f q j0 Down (insertion_point f q - 1))
                          (seed_pq F Q (j0 + 1)))).
  { destruct (make_entry f q j0 Down (insertion_point f q - 1)) as [x|] eqn:Hx;
      cbn [push_opt]; [|apply IH].
    constructor; [|apply IH]. intros Hin. apply Htail in Hin.
    apply make_entry_Some in Hx. destruct Hx as (el & _ & ->). now apply Hin. }
  destruct (make_entry f q j0 Up (insertion_point f q)) as [x|] eqn:Hx;
    cbn [push_opt]; [|exact Hnd2].
  constructor; [|exact Hnd2]. rewrite push_opt_In.
  apply make_entry_Some in Hx. destruct Hx as (el & _ & ->).
  intros [Hd|Hin].
  - apply make_entry_Some in Hd. destruct Hd as (el' & _ & Heq). inversion Heq.
  - apply Htail in Hin. now apply Hin.
Qed.

(** The invariant holds at the start of a query. *)
Lemma comp_init_inv (Ls : Z) (F : list (list (idx_elem D))) (Q : list D) :
  Z.of_nat (length F) = Ls -> (1 <= Ls)%Z -> length Q = length F ->
  comp_inv Ls (comp_init F Q) (cur_init F Q).
Proof.
  intros Hlen HLs HQ. constructor; cbn [comp_init cs_files cs_qproj cs_pq cs_witnessed
                                          cs_promoted].
  - exact Hlen.
  - exact HLs.
  - intros j Hj. unfold cur_init. cbn [fst snd].
    pose proof (insertion_point_bounds (nth j F []) (nth j Q (dofZ 0))). lia.
  - intros e. rewrite seed_pq_In by exact HQ. unfold slot_entry. now cbn [Z.add].
  - apply seed_pq_NoDup.
  - intros p. simpl. symmetry. rewrite sumn_const with (c := 0%nat); [lia|].
    intros j _. unfold cur_init. now rewrite visited_of_empty.
  - intros p. unfold witness_count. simpl. split; [intros []|lia].
Qed.

Lemma comp_init_valid (F : list (list (idx_elem D))) (Q : list D) :
  pq_valid (comp_init F Q).
Proof.
  unfold pq_valid. cbn [comp_init cs_pq cs_files].
  assert (Hgen : forall (F' : list (list (idx_elem D))) (Q' : list D) (pre : list (list (idx_elem D))) e,
             In e (seed_pq F' Q' (Z.of_nat (length pre))) ->
             entry_valid (pre ++ F') e).
  { induction F' as [|f F' IH]; intros [|q Q'] pre e; cbn [seed_pq]; try (intros []).
    rewrite !push_opt_In. intros [Hmk|[Hmk|Hin]].
    - apply make_entry_Some in Hmk. destruct Hmk as (el & Hel & ->).
      exists el. cbn [e_simp e_pos e_point]. rewrite nthZ_of_nat, nth_middle. now split.
    - apply make_entry_Some in Hmk. destruct Hmk as (el & Hel & ->).
      exists el. cbn [e_simp e_pos e_point]. rewrite nthZ_of_nat, nth_middle. now split.
    - specialize (IH Q' (pre ++ [f]) e).
      rewrite length_app, <- app_assoc in IH. cbn [length app] in IH.
      apply IH. replace (Z.of_nat (length pre + 1)) with (Z.of_nat (length pre) + 1)%Z by lia.
      exact Hin. }
  intros e He. apply (Hgen F Q [] e). exact He.
Qed.

End CompositeInit.

(* ================================================================== *)
(** * Facts: the query loop *)
(* ================================================================== *)

Section CompositesFacts.
Context {D : Type} {HD : Double D}.

(** Replacing one composite. *)
Lemma set_comp_perm (c : nat) (cs cs' : comp_state D) (comps : list (comp_state D)) :
  nth_error comps c = Some cs ->
  Permutation comps (cs :: firstn c comps ++ skipn (S c) comps) /\
  Permutation (set_comp c cs' comps) (cs' :: firstn c comps ++ skipn (S c) comps).
Proof.
  intros Hnth. split.
  - rewrite <- (firstn_skipn c comps) at 1.
    assert (Hsk : skipn c comps = cs :: skipn (S c) comps).
    { revert c Hnth. induction comps as [|x comps IH]; intros [|c] Hnth;
        try discriminate.
      - simpl in Hnth. now inversion Hnth.
      - simpl in Hnth. apply IH in Hnth. exact Hnth. }
    rewrite Hsk. symmetry. apply Permutation_middle.
  - unfold set_comp. symmetry. apply Permutation_middle.
Qed.

Lemma set_comp_length (c : nat) (cs cs' : comp_state D) (comps : list (comp_state D)) :
  nth_error comps c = Some cs -> length (set_comp c cs' comps) = length comps.
Proof.
  intros Hnth. destruct (@set_comp_perm c cs cs' comps Hnth) as [H1 H2].
  rewrite (Permutation_length H1), (Permutation_length H2). reflexivity.
Qed.

Lemma set_comp_In (c : nat) (cs cs' x : comp_state D) (comps : list (comp_state D)) :
  nth_error comps c = Some cs ->
  In x (set_comp c cs' comps) -> x = cs' \/ (In x comps).
Proof.
  intros Hnth Hx. destruct (@set_comp_perm c cs cs' comps Hnth) as [H1 H2].
  apply (Permutation_in _ H2) in Hx. destruct Hx as [<-|Hx]; [now left|right].
  apply (Permutation_in _ (Permutation_sym H1)). now right.
Qed.

Lemma set_comp_In_new (c : nat) (cs cs' : comp_state D) (comps : list (comp_state D)) :
  nth_error comps c = Some cs -> In cs' (set_comp c cs' comps).
Proof.
  intros Hnth. destruct (@set_comp_perm c cs cs' comps Hnth) as [_ H2].
  apply (Permutation_in _ (Permutation_sym H2)). now left.
Qed.

Lemma set_comp_In_old (c : nat) (cs cs' x : comp_state D) (comps : list (comp_state D)) :
  nth_error comps c = Some cs -> In x comps ->
  x = cs \/ In x (set_comp c cs' comps).
Proof.
  intros Hnth Hx. destruct (@set_comp_perm c cs cs' comps Hnth) as [H1 H2].
  apply (Permutation_in _ H1) in Hx. destruct Hx as [<-|Hx]; [now left|right].
  apply (Permutation_in _ (Permutation_sym H2)). now right.
Qed.

Lemma set_comp_Forall (P : comp_state D -> Prop) (c : nat) (cs cs' : comp_state D)
    (comps : list (comp_state D)) :
  nth_error comps c = Some cs -> Forall P comps -> P cs' ->
  Forall P (set_comp c cs' comps).
Proof.
  intros Hnth Hall Hcs'. rewrite Forall_forall in *. intros x Hx.
  apply (@set_comp_In c cs cs' x comps Hnth) in Hx. destruct Hx as [->|Hx]; auto.
Qed.

Lemma set_comp_sum (f : comp_state D -> nat) (c : nat) (cs cs' : comp_state D)
    (comps : list (comp_state D)) :
  nth_error comps c = Some cs ->
  (list_sum (map f (set_comp c cs' comps)) + f cs
   = list_sum (map f comps) + f cs')%nat.
Proof.
  intros Hnth. destruct (@set_comp_perm c cs cs' comps Hnth) as [H1 H2].
  rewrite (Permutation_list_sum (Permutation_map f H1)).
  rewrite (Permutation_list_sum (Permutation_map f H2)). simpl. lia.
Qed.

(** ** The turn *)

Lemma turn_order_all (turn L c : nat) : (c < L)%nat -> In c (turn_order turn L).
Proof.
  intros Hc. unfold turn_order. apply in_map_iff.
  exists ((c + L - turn mod L) mod L)%nat. split.
  - assert (HL : L <> 0%nat) by lia.
    pose proof (Nat.mod_upper_bound turn L HL) as Ht.
    rewrite Nat.Div0.add_mod_idemp_r.
    rewrite (Nat.div_mod_eq turn L) at 1.
    replace (L * (turn / L) + turn mod L + (c + L - turn mod L))%nat
      with (c + (1 + turn / L) * L)%nat by nia.
    rewrite Nat.Div0.mod_add. now apply Nat.mod_small.
  - apply in_seq. split; [lia|]. simpl. apply Nat.mod_upper_bound. lia.
Qed.

Lemma next_turn_Some (turn c : nat) (comps : list (comp_state D)) :
  next_turn turn comps = Some c ->
  exists cs, nth_error comps c = Some cs /\ queue_empty cs = false.
Proof.
  unfold next_turn. intros Hf. apply find_some in Hf. destruct Hf as [_ Hc].
  destruct (nth_error comps c) as [cs|]; [|discriminate].
  exists cs. split; [reflexivity|]. now destruct (queue_empty cs).
Qed.

Lemma next_turn_None (turn : nat) (comps : list (comp_state D)) :
  next_turn turn comps = None -> exhausted comps = true.
Proof.
  unfold next_turn, exhausted. intros Hf. apply forallb_forall. intros cs Hcs.
  destruct (In_nth_error _ _ Hcs) as (c & Hc).
  assert (Hlt : (c < length comps)%nat) by (apply nth_error_Some; congruence).
  pose proof (find_none _ _ Hf c (@turn_order_all turn (length comps) c Hlt)) as Hnone.
  cbv beta in Hnone. rewrite Hc in Hnone. now destruct (queue_empty cs).
Qed.

Lemma exhausted_false (turn : nat) (comps : list (comp_state D)) :
  exhausted comps = false -> exists c, next_turn turn comps = Some c.
Proof.
  intros Hex. destruct (next_turn turn comps) as [c|] eqn:E; [now exists c|].
  apply next_turn_None in E. congruence.
Qed.

Lemma exhausted_queue (comps : list (comp_state D)) (cs : comp_state D) :
  exhausted comps = true -> In cs comps -> cs_pq cs = [].
Proof.
  unfold exhausted. intros Hex Hcs. rewrite forallb_forall in Hex.
  specialize (Hex cs Hcs). unfold queue_empty in Hex.
  now destruct (cs_pq cs).
Qed.

Lemma comp_step_witnessed (Ls : Z) (cs cs' : comp_state D) (prom : option Z) :
  comp_step Ls cs = Some (prom, cs') ->
  length (cs_witnessed cs') = S (length (cs_witnessed cs)).
Proof.
  unfold comp_step.
  destruct (extract_best entry_before (cs_pq cs)) as [[e pq']|]; [|discriminate].
  intros Hs. inversion Hs; subst; clear Hs. reflexivity.
Qed.

End CompositesFacts.

Section LoopFacts.
Context {D : Type} {HD : Double D}.
Variable is_blind : bool.
Variables k dim Ls : Z.
Variables data query : list D.

(** What an iteration does: nothing when every queue is empty; otherwise
    one composite pops once. *)
Lemma query_step_cases (st : query_state D) :
  (exhausted (qs_comps st) = true /\ query_step is_blind k dim Ls data query st = st) \/
  (exhausted (qs_comps st) = false /\
   exists c cs prom cs',
     nth_error (qs_comps st) c = Some cs /\
     comp_step Ls cs = Some (prom, cs') /\
     query_step is_blind k dim Ls data query st
     = mk_qs (S c mod length (qs_comps st)) (set_comp c cs' (qs_comps st))
         (match prom with
          | Some p => evaluate is_blind k dim data query p (count_pop (qs_eval st))
          | None => count_pop (qs_eval st)
          end)).
Proof.
  unfold query_step.
  destruct (next_turn (qs_turn st) (qs_comps st)) as [c|] eqn:Hturn.
  - right. pose proof Hturn as Hsome. apply next_turn_Some in Hsome.
    destruct Hsome as (cs & Hnth & Hne).
    split.
    + destruct (exhausted (qs_comps st)) eqn:Hex; [|reflexivity].
      assert (Hq : cs_pq cs = [])
        by (eapply exhausted_queue; [exact Hex|eapply nth_error_In; exact Hnth]).
      unfold queue_empty in Hne. rewrite Hq in Hne. discriminate.
    + rewrite Hnth.
      destruct (comp_step Ls cs) as [[prom cs']|] eqn:Hstep.
      * exists c, cs, prom, cs'. repeat split; [exact Hnth|].
        now destruct prom.
      * apply comp_step_None in Hstep. unfold queue_empty in Hne.
        rewrite Hstep in Hne. discriminate.
  - left. split; [now apply next_turn_None in Hturn|reflexivity].
Qed.

(** The steps left in all the queues. *)
Definition total_steps (comps : list (comp_state D)) : nat :=
  list_sum (map (@comp_steps D) comps).

Lemma query_step_valid (st : query_state D) :
  Forall (@pq_valid D) (qs_comps st) -> Forall (@pq_valid D) (qs_comps (query_step is_blind k dim Ls data query st)).
Proof.
  intros Hv. destruct (query_step_cases st) as [[_ ->]|(_ & c & cs & prom & cs' & Hnth & Hs & ->)];
    [exact Hv|].
  cbn [qs_comps]. eapply set_comp_Forall; [exact Hnth|exact Hv|].
  eapply comp_step_valid; [|exact Hs].
  rewrite Forall_forall in Hv. apply Hv. eapply nth_error_In; eauto.
Qed.

Lemma query_step_steps (st : query_state D) :
  Forall (@pq_valid D) (qs_comps st) -> exhausted (qs_comps st) = false ->
  S (total_steps (qs_comps (query_step is_blind k dim Ls data query st))) = total_steps (qs_comps st).
Proof.
  intros Hv Hex.
  destruct (query_step_cases st) as [[Hex' _]|(_ & c & cs & prom & cs' & Hnth & Hs & ->)];
    [congruence|].
  cbn [qs_comps]. unfold total_steps.
  assert (Hsum := @set_comp_sum D (@comp_steps D) c cs cs' _ Hnth).
  assert (Hcs : pq_valid cs)
    by (rewrite Forall_forall in Hv; apply Hv; eapply nth_error_In; eauto).
  assert (Hdec := @comp_step_steps D HD Ls cs cs' prom Hcs Hs). lia.
Qed.

Lemma steps_S (n : nat) (st : query_state D) :
  steps is_blind k dim Ls data query (S n) st
  = query_step is_blind k dim Ls data query (steps is_blind k dim Ls data query n st).
Proof.
  revert st; induction n as [|n IH]; intros st; [reflexivity|].
  change (steps is_blind k dim Ls data query (S (S n)) st)
    with (steps is_blind k dim Ls data query (S n) (query_step is_blind k dim Ls data query st)).
  rewrite IH. reflexivity.
Qed.

Lemma steps_add (n m : nat) (st : query_state D) :
  steps is_blind k dim Ls data query (n + m) st
  = steps is_blind k dim Ls data query m (steps is_blind k dim Ls data query n st).
Proof.
  revert st; induction n as [|n IH]; intros st; [reflexivity|]. simpl. apply IH.
Qed.

(** An invariant of the iteration holds after any number of iterations. *)
Lemma steps_invariant (P : query_state D -> Prop) :
  (forall st, P st -> P (query_step is_blind k dim Ls data query st)) ->
  forall n st, P st -> P (steps is_blind k dim Ls data query n st).
Proof.
  intros Hstep n. induction n as [|n IH]; intros st HP; [exact HP|].
  simpl. apply IH, Hstep, HP.
Qed.

End LoopFacts.

Section LoopRuns.
Context {D : Type} {HD : Double D}.
Variable cfg : dci_query_config D.
Variables k dim N Ls : Z.
Variables data query : list D.

(** The loop makes a number of iterations and stops: before none of them
    was it over. *)
Lemma query_loop_steps (fuel : nat) (st : query_state D) :
  exists n, (n <= fuel)%nat /\
    query_loop cfg k dim N Ls data query fuel st = steps (blind cfg) k dim Ls data query n st /\
    (forall m, (m < n)%nat -> query_done cfg N (steps (blind cfg) k dim Ls data query m st) = false) /\
    ((n < fuel)%nat -> query_done cfg N (steps (blind cfg) k dim Ls data query n st) = true).
Proof.
  revert st; induction fuel as [|fuel IH]; intros st.
  - exists 0%nat. repeat split; [lia|intros m Hm; lia|intros Hf; lia].
  - cbn [query_loop]. destruct (query_done cfg N st) eqn:Hdone.
    + exists 0%nat. repeat split; [lia|intros m Hm; lia|intros _; exact Hdone].
    + destruct (IH (query_step (blind cfg) k dim Ls data query st))
        as (n & Hle & Heq & Hbefore & Hat).
      exists (S n). split; [lia|]. split; [exact Heq|]. split.
      * intros [|m] Hm; [exact Hdone|]. apply Hbefore. lia.
      * intros Hlt. apply Hat. lia.
Qed.

(** With the fuel of [query_fuel] the loop ends because it is over. *)
Lemma query_loop_done (st : query_state D) :
  Forall (@pq_valid D) (qs_comps st) ->
  exists n,
    query_loop cfg k dim N Ls data query (query_fuel (qs_comps st)) st = steps (blind cfg) k dim Ls data query n st /\
    (forall m, (m < n)%nat -> query_done cfg N (steps (blind cfg) k dim Ls data query m st) = false) /\
    query_done cfg N (steps (blind cfg) k dim Ls data query n st) = true.
Proof.
  intros Hv.
  destruct (query_loop_steps (query_fuel (qs_comps st)) st)
    as (n & Hle & Heq & Hbefore & Hat).
  exists n. split; [exact Heq|]. split; [exact Hbefore|].
  destruct (Nat.eq_dec n (query_fuel (qs_comps st))) as [Hn|Hn]; [|apply Hat; lia].
  (* all the fuel is used: the queues are empty *)
  assert (Hpot : forall m, (m <= n)%nat ->
            Forall (@pq_valid D) (qs_comps (steps (blind cfg) k dim Ls data query m st)) /\
            (m + total_steps (qs_comps (steps (blind cfg) k dim Ls data query m st)) = total_steps (qs_comps st))%nat).
  { induction m as [|m IHm]; intros Hm; [split; [exact Hv|reflexivity]|].
    destruct IHm as [Hvm Hsm]; [lia|].
    rewrite steps_S. split; [now apply query_step_valid|].
    assert (Hex : exhausted (qs_comps (steps (blind cfg) k dim Ls data query m st)) = false).
    { specialize (Hbefore m ltac:(lia)). unfold query_done in Hbefore.
      apply orb_false_iff in Hbefore. tauto. }
    assert (Hdec := @query_step_steps D HD (blind cfg) k dim Ls data query _ Hvm Hex). lia. }
  destruct (Hpot n (Nat.le_refl n)) as [_ Hsum].
  unfold query_fuel in Hn. fold (total_steps (qs_comps st)) in Hn. lia.
Qed.

End LoopRuns.

(* ================================================================== *)
(** * Facts: what every state of a query satisfies *)
(* ================================================================== *)

Lemma In_firstn {A : Type} (n : nat) (l : list A) (x : A) : In x (firstn n l) -> In x l.
Proof.
  intros Hx. rewrite <- (firstn_skipn n l). apply in_or_app. now left.
Qed.

Lemma In_skipn {A : Type} (n : nat) (l : list A) (x : A) : In x (skipn n l) -> In x l.
Proof.
  intros Hx. rewrite <- (firstn_skipn n l). apply in_or_app. now right.
Qed.

Lemma points_NoDup (N : Z) : NoDup (points N).
Proof.
  unfold points. apply NoDup_map_NoDup_ForallPairs; [|apply seq_NoDup].
  intros a b _ _ Hab. lia.
Qed.

Lemma points_length (N : Z) : length (points N) = Z.to_nat N.
Proof. unfold points. now rewrite length_map, length_seq. Qed.

Lemma points_In (N p : Z) : In p (points N) <-> (0 <= p < N)%Z.
Proof.
  unfold points. rewrite in_map_iff. split.
  - intros (n & <- & Hn). apply in_seq in Hn. lia.
  - intros Hp. exists (Z.to_nat p). split; [lia|]. apply in_seq. lia.
Qed.

Section QueryInvariant.
Context {D : Type} {HD : Double D}.
Variable is_blind : bool.
Variables k dim Ls : Z.
Variables data query : list D.

(** What holds between two iterations, of any index: the entries of the
    queues stand on cells of the files; the points evaluated are the points
    promoted by a composite, each once; the retrieved counter counts them
    and the visited counter counts the pops. *)
Definition query_inv (st : query_state D) : Prop :=
  Forall (@pq_valid D) (qs_comps st) /\
  (forall p, In p (ev_order (qs_eval st)) <-> promoted_by (qs_comps st) p) /\
  eval_counts (qs_eval st) /\
  ev_visited (qs_eval st) = pops (qs_comps st).

Lemma pops_step (comps : list (comp_state D)) (c : nat) (cs cs' : comp_state D)
    (prom : option Z) :
  nth_error comps c = Some cs -> comp_step Ls cs = Some (prom, cs') ->
  pops (set_comp c cs' comps) = (pops comps + 1)%Z.
Proof.
  intros Hnth Hstep. unfold pops.
  pose proof (set_comp_sum (fun x : comp_state D => length (cs_witnessed x)) c cs'
                comps Hnth) as Hsum.
  cbv beta in Hsum. pose proof Hstep as Hw. apply comp_step_witnessed in Hw.
  rewrite Hw in Hsum. lia.
Qed.

Lemma promoted_by_step (comps : list (comp_state D)) (c : nat) (cs cs' : comp_state D)
    (prom : option Z) (p : Z) :
  nth_error comps c = Some cs -> comp_step Ls cs = Some (prom, cs') ->
  (promoted_by (set_comp c cs' comps) p <-> promoted_by comps p \/ prom = Some p).
Proof.
  intros Hnth Hstep. pose proof Hstep as Hprom. apply comp_step_promoted in Hprom.
  pose proof (nth_error_In _ _ Hnth) as Hcs. split.
  - intros (x & Hx & Hp). eapply set_comp_In in Hx; [|exact Hnth].
    destruct Hx as [->|Hx]; [|left; exists x; now split].
    rewrite Hprom in Hp. apply in_app_or in Hp. destruct Hp as [Hp|Hp].
    + left. exists cs. now split.
    + right. destruct prom as [q|]; [|destruct Hp].
      destruct Hp as [->|[]]. reflexivity.
  - intros [(x & Hx & Hp)|Hp].
    + eapply set_comp_In_old with (cs' := cs') in Hx; [|exact Hnth].
      destruct Hx as [->|Hx]; [|exists x; now split].
      exists cs'. split; [eapply set_comp_In_new; exact Hnth|].
      rewrite Hprom. apply in_or_app. now left.
    + exists cs'. split; [eapply set_comp_In_new; exact Hnth|].
      rewrite Hprom, Hp. apply in_or_app. right. now left.
Qed.

Lemma query_step_inv (st : query_state D) :
  query_inv st -> query_inv (query_step is_blind k dim Ls data query st).
Proof.
  intros (Hvalid & Hlink & Hcounts & Hvis).
  pose proof (query_step_valid is_blind k dim Ls data query st Hvalid) as Hvalid'.
  destruct (query_step_cases is_blind k dim Ls data query st)
    as [[_ Hst]|(_ & c & cs & prom & cs' & Hnth & Hstep & Hst)].
  - rewrite Hst. split; [exact Hvalid|split; [exact Hlink|split; [exact Hcounts|exact Hvis]]].
  - split; [exact Hvalid'|]. rewrite Hst. cbn [qs_comps qs_eval].
    split; [|split].
    + intros p. rewrite (@promoted_by_step (qs_comps st) c cs cs' prom p Hnth Hstep), <- Hlink.
      destruct prom as [q|].
      * split.
        -- intros Hp. apply evaluate_order_inv in Hp. destruct Hp as [->|Hp]; auto.
        -- intros [Hp|Hp].
           ++ apply evaluate_incl. exact Hp.
           ++ inversion Hp; subst. apply evaluate_In.
      * cbn [count_pop ev_order]. split; [auto|]. intros [Hp|Hp]; [exact Hp|discriminate].
    + destruct prom as [q|].
      * apply evaluate_counts, count_pop_counts, Hcounts.
      * apply count_pop_counts, Hcounts.
    + rewrite (@pops_step (qs_comps st) c cs cs' prom Hnth Hstep), <- Hvis.
      destruct prom as [q|]; [rewrite evaluate_visited|]; reflexivity.
Qed.

(** An iteration appends at most one point to the points evaluated. *)
Lemma query_step_order (st : query_state D) :
  exists tl, ev_order (qs_eval (query_step is_blind k dim Ls data query st))
             = ev_order (qs_eval st) ++ tl /\ (length tl <= 1)%nat.
Proof.
  destruct (query_step_cases is_blind k dim Ls data query st)
    as [[_ Hst]|(_ & c & cs & prom & cs' & Hnth & Hstep & Hst)]; rewrite Hst.
  - exists []. rewrite app_nil_r. split; [reflexivity|simpl; lia].
  - cbn [qs_eval]. destruct prom as [q|].
    + rewrite evaluate_order. cbn [count_pop ev_order].
      destruct (seen_before q (ev_order (qs_eval st))).
      * exists []. rewrite app_nil_r. split; [reflexivity|simpl; lia].
      * exists [q]. split; [reflexivity|simpl; lia].
    + exists []. cbn [count_pop ev_order]. rewrite app_nil_r.
      split; [reflexivity|simpl; lia].
Qed.

(** An iteration that finds an entry is one pop. *)
Lemma query_step_visited (st : query_state D) :
  exhausted (qs_comps st) = false ->
  ev_visited (qs_eval (query_step is_blind k dim Ls data query st))
  = (ev_visited (qs_eval st) + 1)%Z.
Proof.
  intros Hex.
  destruct (query_step_cases is_blind k dim Ls data query st)
    as [[Hex' _]|(_ & c & cs & prom & cs' & Hnth & Hstep & Hst)]; [congruence|].
  rewrite Hst. cbn [qs_eval].
  destruct prom as [q|]; [rewrite evaluate_visited|]; reflexivity.
Qed.

Lemma query_step_length (st : query_state D) :
  length (qs_comps (query_step is_blind k dim Ls data query st)) = length (qs_comps st).
Proof.
  destruct (query_step_cases is_blind k dim Ls data query st)
    as [[_ Hst]|(_ & c & cs & prom & cs' & Hnth & Hstep & Hst)]; rewrite Hst;
    [reflexivity|].
  cbn [qs_comps]. eapply set_comp_length. exact Hnth.
Qed.

(** The pops made and the steps the iterators have left add up to the same
    number all along. *)
Lemma query_step_potential (st : query_state D) :
  Forall (@pq_valid D) (qs_comps st) ->
  (pops (qs_comps (query_step is_blind k dim Ls data query st))
   + Z.of_nat (total_steps (qs_comps (query_step is_blind k dim Ls data query st)))
   = pops (qs_comps st) + Z.of_nat (total_steps (qs_comps st)))%Z.
Proof.
  intros Hvalid.
  destruct (exhausted (qs_comps st)) eqn:Hex.
  - destruct (query_step_cases is_blind k dim Ls data query st)
      as [[_ Hst]|(Hex' & _)]; [now rewrite Hst|congruence].
  - pose proof (query_step_steps is_blind k dim Ls data query st Hvalid Hex) as Hsteps.
    destruct (query_step_cases is_blind k dim Ls data query st)
      as [[Hex' _]|(_ & c & cs & prom & cs' & Hnth & Hstep & Hst)]; [congruence|].
    rewrite Hst in Hsteps |- *. cbn [qs_comps] in Hsteps |- *.
    rewrite (@pops_step (qs_comps st) c cs cs' prom Hnth Hstep). lia.
Qed.

(** With no step left every queue is empty. *)
Lemma total_steps_zero (comps : list (comp_state D)) :
  Forall (@pq_valid D) comps -> total_steps comps = 0%nat -> exhausted comps = true.
Proof.
  unfold total_steps, exhausted. induction 1 as [|cs comps Hcs _ IH]; [reflexivity|].
  cbn [map list_sum fold_right forallb]. intros Hsum.
  rewrite IH by (unfold list_sum in *; lia). rewrite andb_true_r.
  unfold queue_empty. destruct (cs_pq cs) as [|e pq] eqn:Hpq; [reflexivity|].
  assert (He : entry_valid (cs_files cs) e) by (apply Hcs; rewrite Hpq; now left).
  apply entry_valid_steps in He.
  unfold comp_steps in Hsum. rewrite Hpq in Hsum. cbn [map list_sum fold_right] in Hsum.
  unfold list_sum in *. lia.
Qed.

End QueryInvariant.

Section QueryBlind.
Context {D : Type} {HD : Double D}.

(** In blind mode an iteration reads neither the data array nor the query
    point, and does not depend on k. *)
Lemma query_step_blind_indep (Ls : Z) (k1 dim1 : Z) (data1 query1 : list D)
    (k2 dim2 : Z) (data2 query2 : list D) (st : query_state D) :
  query_step true k1 dim1 Ls data1 query1 st = query_step true k2 dim2 Ls data2 query2 st.
Proof.
  unfold query_step.
  destruct (next_turn (qs_turn st) (qs_comps st)) as [c|]; [|reflexivity].
  destruct (nth_error (qs_comps st) c) as [cs|]; [|reflexivity].
  destruct (comp_step Ls cs) as [[[p|] cs']|]; reflexivity.
Qed.

Lemma query_step_blind_heap (Ls k dim : Z) (data query : list D) (st : query_state D) :
  ev_heap (qs_eval (query_step true k dim Ls data query st)) = ev_heap (qs_eval st).
Proof.
  destruct (query_step_cases true k dim Ls data query st)
    as [[_ Hst]|(_ & c & cs & prom & cs' & Hnth & Hstep & Hst)]; rewrite Hst;
    [reflexivity|].
  cbn [qs_eval]. destruct prom as [q|]; [rewrite evaluate_blind_heap|]; reflexivity.
Qed.

End QueryBlind.

Section QueryHeap.
Context {D : Type} {HD : Double D} {HO : @DoubleOrder D HD}.

Lemma query_step_heap_inv (Ls k dim : Z) (data query : list D) (st : query_state D) :
  eval_heap_inv k dim data query (qs_eval st) ->
  eval_heap_inv k dim data query (qs_eval (query_step false k dim Ls data query st)).
Proof.
  intros Hinv.
  destruct (query_step_cases false k dim Ls data query st)
    as [[_ Hst]|(_ & c & cs & prom & cs' & Hnth & Hstep & Hst)]; rewrite Hst;
    [exact Hinv|].
  cbn [qs_eval]. destruct prom as [q|].
  - apply evaluate_heap_inv, count_pop_heap_inv, Hinv.
  - apply count_pop_heap_inv, Hinv.
Qed.

End QueryHeap.

(* ================================================================== *)
(** * Facts: queries of an index whose files list every point once *)
(* ================================================================== *)

Lemma list_sum_bound {A : Type} (g : A -> nat) (l : list A) (b : nat) :
  (forall x, In x l -> (g x <= b)%nat) -> (list_sum (map g l) <= length l * b)%nat.
Proof.
  induction l as [|x l IH]; intros Hg; [simpl; lia|].
  cbn [map list_sum fold_right length]. fold (list_sum (map g l)).
  pose proof (Hg x (or_introl eq_refl)).
  assert (list_sum (map g l) <= length l * b)%nat by (apply IH; intros y Hy; apply Hg; now right).
  lia.
Qed.

Section QueryWellFormed.
Context {D : Type} {HD : Double D}.
Variables N Ls : Z.

(** A position file lists every point once. *)
Definition file_wf (f : list (idx_elem D)) : Prop :=
  Permutation (map (@global_value D) f) (points N).

Definition comp_wf (cs : comp_state D) : Prop :=
  (exists cur, comp_inv Ls cs cur) /\ Forall file_wf (cs_files cs).

(** What holds between two iterations of a query of such an index: the
    composites keep their invariant, and the points evaluated are points of
    the index. *)
Definition query_wf (st : query_state D) : Prop :=
  Forall comp_wf (qs_comps st) /\ incl (ev_order (qs_eval st)) (points N).

Lemma file_wf_length (f : list (idx_elem D)) : file_wf f -> length f = Z.to_nat N.
Proof.
  intros Hf. apply Permutation_length in Hf.
  now rewrite length_map, points_length in Hf.
Qed.

Lemma comp_step_wf (cs cs' : comp_state D) (prom : option Z) :
  comp_wf cs -> comp_step Ls cs = Some (prom, cs') ->
  comp_wf cs' /\ (forall p, prom = Some p -> In p (points N)).
Proof.
  intros [[cur Hinv] Hfiles] Hstep. split; [split|].
  - eapply comp_step_inv; eauto.
  - pose proof Hstep as Hf. apply comp_step_files in Hf. destruct Hf as [-> _].
    exact Hfiles.
  - intros p ->. destruct (comp_step_point Hinv Hstep) as (f & el & Hf & Hel & ->).
    rewrite Forall_forall in Hfiles. specialize (Hfiles f Hf).
    eapply Permutation_in; [exact Hfiles|]. now apply in_map.
Qed.

Lemma query_step_wf (is_blind : bool) (k dim : Z) (data query : list D)
    (st : query_state D) :
  query_wf st -> query_wf (query_step is_blind k dim Ls data query st).
Proof.
  intros [Hwf Hrange].
  destruct (query_step_cases is_blind k dim Ls data query st)
    as [[_ Hst]|(_ & c & cs & prom & cs' & Hnth & Hstep & Hst)]; rewrite Hst;
    [now split|].
  assert (Hcs : comp_wf cs).
  { rewrite Forall_forall in Hwf. apply Hwf. eapply nth_error_In; eauto. }
  destruct (comp_step_wf Hcs Hstep) as [Hcs' Hpoint].
  split; cbn [qs_comps qs_eval].
  - eapply set_comp_Forall; eauto.
  - destruct prom as [q|]; [|exact Hrange].
    intros p Hp. apply evaluate_order_inv in Hp. destruct Hp as [->|Hp].
    + now apply Hpoint.
    + now apply Hrange.
Qed.

(** When every queue is empty, every composite has promoted every point. *)
Lemma exhausted_all_promoted (comps : list (comp_state D)) (cs : comp_state D) (p : Z) :
  Forall comp_wf comps -> exhausted comps = true ->
  In cs comps -> In p (points N) -> In p (cs_promoted cs).
Proof.
  intros Hwf Hex Hcs Hp.
  assert (Hpq : cs_pq cs = []) by (eapply exhausted_queue; eauto).
  rewrite Forall_forall in Hwf. destruct (Hwf cs Hcs) as [[cur Hinv] Hfiles].
  eapply comp_inv_drained; eauto.
  intros f Hf. rewrite Forall_forall in Hfiles. specialize (Hfiles f Hf).
  rewrite (proj1 (Permutation_count_occ Z.eq_dec _ _) Hfiles).
  apply NoDup_count_occ'; [apply points_NoDup|exact Hp].
Qed.

End QueryWellFormed.

Section QueryStart.
Context {D : Type} {HD : Double D}.

Lemma comps_init_valid (Lc Ls : Z) (files : list (list (idx_elem D))) (qproj : list D) :
  Forall (@pq_valid D) (comps_init Lc Ls files qproj).
Proof.
  unfold comps_init. apply Forall_map. apply Forall_forall. intros c _.
  apply comp_init_valid.
Qed.

Lemma comps_init_promoted (Lc Ls : Z) (files : list (list (idx_elem D))) (qproj : list D)
    (cs : comp_state D) :
  In cs (comps_init Lc Ls files qproj) ->
  cs_promoted cs = [] /\ cs_witnessed cs = [].
Proof.
  unfold comps_init. rewrite in_map_iff. intros (c & <- & _). now split.
Qed.

Lemma comps_init_length (Lc Ls : Z) (files : list (list (idx_elem D))) (qproj : list D) :
  length (comps_init Lc Ls files qproj) = Z.to_nat Lc.
Proof. unfold comps_init. now rewrite length_map, length_seq. Qed.

Lemma pops_init (Lc Ls : Z) (files : list (list (idx_elem D))) (qproj : list D) :
  pops (comps_init Lc Ls files qproj) = 0%Z.
Proof.
  unfold pops.
  assert (H0 : (list_sum (map (fun cs : comp_state D => length (cs_witnessed cs))
                            (comps_init Lc Ls files qproj))
                <= length (comps_init Lc Ls files qproj) * 0)%nat).
  { apply list_sum_bound. intros cs Hcs. apply comps_init_promoted in Hcs.
    destruct Hcs as [_ ->]. simpl. lia. }
  lia.
Qed.

(** A query starts under the invariant. *)
Lemma query_start_inv (inst : dci D) (qproj : list D) :
  query_inv (query_start inst qproj).
Proof.
  unfold query_start, query_inv. cbn [qs_comps qs_eval].
  split; [apply comps_init_valid|]. split; [|split].
  - intros p. split; [intros []|].
    intros (cs & Hcs & Hp). apply comps_init_promoted in Hcs.
    destruct Hcs as [Hprom _]. now rewrite Hprom in Hp.
  - apply eval_counts_init.
  - cbn [eval_init ev_visited]. now rewrite pops_init.
Qed.

(** The composites of a well-formed index start under their invariant. *)
Lemma comps_init_wf (N Lc Ls : Z) (files : list (list (idx_elem D))) (qproj : list D) :
  (1 <= Ls)%Z -> (0 <= Lc)%Z ->
  Z.of_nat (length files) = (Lc * Ls)%Z ->
  Z.of_nat (length qproj) = (Lc * Ls)%Z ->
  Forall (file_wf N) files ->
  Forall (comp_wf N Ls) (comps_init Lc Ls files qproj).
Proof.
  intros HLs HLc Hfiles Hq Hwf. unfold comps_init.
  apply Forall_map. apply Forall_forall. intros c Hc. apply in_seq in Hc.
  assert (Hchunk : forall (A : Type) (l : list A),
             Z.of_nat (length l) = (Lc * Ls)%Z ->
             length (firstn (Z.to_nat Ls) (skipn (c * Z.to_nat Ls) l)) = Z.to_nat Ls).
  { intros A l Hl. rewrite length_firstn, length_skipn. nia. }
  split.
  - exists (cur_init (firstn (Z.to_nat Ls) (skipn (c * Z.to_nat Ls) files))
                     (firstn (Z.to_nat Ls) (skipn (c * Z.to_nat Ls) qproj))).
    apply comp_init_inv.
    + rewrite Hchunk by exact Hfiles. lia.
    + exact HLs.
    + now rewrite !Hchunk.
  - cbn [comp_init cs_files]. apply Forall_forall. intros f Hf.
    rewrite Forall_forall in Hwf. apply Hwf. eapply In_skipn, In_firstn, Hf.
Qed.

(** The seeds of a composite stand at the insertion points: the steps their
    iterators have left are the cells of the files. *)
Lemma seed_pq_steps (F : list (list (idx_elem D))) (Q : list D)
    (pre : list (list (idx_elem D))) :
  (list_sum (map (entry_steps (pre ++ F)) (seed_pq F Q (Z.of_nat (length pre))))
   <= list_sum (map (@length (idx_elem D)) F))%nat.
Proof.
  revert Q pre. induction F as [|f F IH]; intros [|q Q] pre; cbn [seed_pq];
    try (simpl; lia).
  cbv zeta. set (ins := insertion_point f q).
  specialize (IH Q (pre ++ [f])).
  rewrite length_app, <- app_assoc in IH. cbn [length app] in IH.
  replace (Z.of_nat (length pre + 1)) with (Z.of_nat (length pre) + 1)%Z in IH by lia.
  set (rest := seed_pq F Q (Z.of_nat (length pre) + 1)) in *.
  cbn [map list_sum fold_right]. fold (list_sum (map (@length (idx_elem D)) F)).
  rewrite (push_opt_app (make_entry f q (Z.of_nat (length pre)) Up ins)).
  rewrite (push_opt_app (make_entry f q (Z.of_nat (length pre)) Down (ins - 1)%Z) rest).
  rewrite !map_app, !list_sum_app.
  assert (Hup : (list_sum (map (entry_steps (pre ++ f :: F))
                   (push_opt (make_entry f q (Z.of_nat (length pre)) Up ins) []))
                 <= Z.to_nat (Z.of_nat (length f) - ins))%nat).
  { destruct (make_entry f q (Z.of_nat (length pre)) Up ins) as [e|] eqn:He;
      [|simpl; lia].
    apply make_entry_Some in He. destruct He as (el & Hel & ->).
    cbn [push_opt map list_sum fold_right]. unfold entry_steps.
    cbn [e_dir e_simp e_pos]. rewrite nthZ_of_nat, nth_middle. lia. }
  assert (Hdown : (list_sum (map (entry_steps (pre ++ f :: F))
                     (push_opt (make_entry f q (Z.of_nat (length pre)) Down (ins - 1)%Z) []))
                   <= Z.to_nat ins)%nat).
  { destruct (make_entry f q (Z.of_nat (length pre)) Down (ins - 1)%Z) as [e|] eqn:He;
      [|simpl; lia].
    apply make_entry_Some in He. destruct He as (el & Hel & ->).
    cbn [push_opt map list_sum fold_right]. unfold entry_steps.
    cbn [e_dir e_simp e_pos]. lia. }
  pose proof (insertion_point_bounds f q) as Hb. fold ins in Hb.
  lia.
Qed.

Lemma comp_init_steps (F : list (list (idx_elem D))) (Q : list D) :
  (comp_steps (comp_init F Q) <= list_sum (map (@length (idx_elem D)) F))%nat.
Proof.
  unfold comp_steps, comp_init. cbn [cs_files cs_pq].
  exact (seed_pq_steps F Q []).
Qed.

(** The steps all iterators have at the start: no more than one for each
    cell of each file. *)
Lemma comps_init_steps (n : nat) (Lc Ls : Z) (files : list (list (idx_elem D)))
    (qproj : list D) :
  Forall (fun f => length f = n) files ->
  (total_steps (comps_init Lc Ls files qproj) <= Z.to_nat Lc * (Z.to_nat Ls * n))%nat.
Proof.
  intros Hlen. unfold total_steps.
  rewrite <- (comps_init_length Lc Ls files qproj).
  apply list_sum_bound. intros cs Hcs. unfold comps_init in Hcs.
  apply in_map_iff in Hcs. destruct Hcs as (c & <- & _).
  eapply Nat.le_trans; [apply comp_init_steps|].
  eapply Nat.le_trans; [apply list_sum_bound with (b := n)|].
  - intros f Hf. apply In_firstn, In_skipn in Hf.
    rewrite Forall_forall in Hlen. rewrite (Hlen f Hf). lia.
  - rewrite length_firstn. nia.
Qed.

End QueryStart.

Section AddFacts.
Context {D : Type} {HD : Double D}.

(** A position file lists every point once, whatever the projections. *)
Lemma position_file_wf (data_proj : list D) (num_indices N : Z) (i : nat) :
  file_wf N (position_file data_proj num_indices (Z.to_nat N) i).
Proof.
  unfold file_wf, position_file, points.
  rewrite (Permutation_map _ (sort_by_perm _ _)).
  rewrite map_map. cbn [global_value]. reflexivity.
Qed.

Lemma position_file_length (data_proj : list D) (num_indices : Z) (N i : nat) :
  length (position_file data_proj num_indices N i) = N.
Proof.
  unfold position_file. now rewrite sort_by_length, length_map, length_seq.
Qed.

End AddFacts.

(* ================================================================== *)
(** * Facts: the run of a query and the answer it gives *)
(* ================================================================== *)

Lemma StronglySorted_map {A B : Type} (f : A -> B) (RA : A -> A -> Prop)
    (RB : B -> B -> Prop) (l : list A) :
  (forall a b, RA a b -> RB (f a) (f b)) ->
  StronglySorted RA l -> StronglySorted RB (map f l).
Proof.
  intros Hf. induction 1 as [|a l Hs IH Hall]; cbn [map]; constructor; [exact IH|].
  apply Forall_map. eapply Forall_impl; [|exact Hall]. intros b. apply Hf.
Qed.

(** A list without repetition splits into a part of it and what is left. *)
Lemma NoDup_split (l s : list Z) :
  NoDup l -> NoDup s -> incl s l ->
  Permutation l (s ++ filter (fun x => negb (existsb (Z.eqb x) s)) l).
Proof.
  intros Hl Hs Hincl.
  assert (Hmem : forall x, existsb (Z.eqb x) s = true <-> In x s).
  { intros x. rewrite existsb_exists. split.
    - intros (y & Hy & Heq). apply Z.eqb_eq in Heq. now subst.
    - intros Hx. exists x. split; [exact Hx|apply Z.eqb_refl]. }
  apply NoDup_Permutation; [exact Hl| |].
  - apply NoDup_app; [exact Hs|now apply NoDup_filter|].
    intros x Hx Hf. apply filter_In in Hf. destruct Hf as [_ Hf].
    apply Hmem in Hx. rewrite Hx in Hf. discriminate.
  - intros x. rewrite in_app_iff, filter_In. split.
    + intros Hx. destruct (existsb (Z.eqb x) s) eqn:E.
      * left. now apply Hmem.
      * right. now split.
    + intros [Hx|[Hx _]]; [now apply Hincl|exact Hx].
Qed.

Section RunFacts.
Context {D : Type} {HD : Double D}.

Lemma queue_empty_iff (cs : comp_state D) : queue_empty cs = true <-> cs_pq cs = [].
Proof. unfold queue_empty. destruct (cs_pq cs); split; congruence. Qed.

Lemma exhausted_iff (comps : list (comp_state D)) :
  exhausted comps = true <-> Forall (fun cs => cs_pq cs = []) comps.
Proof.
  unfold exhausted. rewrite forallb_forall, Forall_forall.
  split; intros Hall cs Hcs; apply queue_empty_iff, Hall, Hcs.
Qed.

Lemma cap_reached_iff (cap : option D) (count : Z) :
  cap_reached count cap = true <-> axis_reached cap count.
Proof.
  unfold cap_reached, axis_reached. destruct cap as [c|]; split.
  - intros Hc. now exists c.
  - intros (c' & Heq & Hc). now inversion Heq; subst.
  - discriminate.
  - intros (c' & Heq & _). discriminate.
Qed.

(** The test of the loop is the test whether the query is over. *)
Lemma query_done_iff (cfg : dci_query_config D) (N : Z) (st : query_state D) :
  query_done cfg N st = true <-> stops_at cfg N st.
Proof.
  unfold query_done, caps_fired, stops_at.
  rewrite !orb_true_iff, !cap_reached_iff, exhausted_iff. tauto.
Qed.

Lemma query_done_false (cfg : dci_query_config D) (N : Z) (st : query_state D) :
  query_done cfg N st = false <-> ~ stops_at cfg N st.
Proof.
  rewrite <- query_done_iff. destruct (query_done cfg N st); split; congruence.
Qed.

(** The loop returns: its result is the first state, in the sequence of the
    iterations, in which the query is over. *)
Lemma query_final_run (inst : dci D) (k dim : Z) (query qproj : list D)
    (cfg : dci_query_config D) :
  exists n,
    query_final inst k dim query qproj cfg = query_after inst k dim query qproj cfg n /\
    stops_at cfg (num_points inst) (query_after inst k dim query qproj cfg n) /\
    forall m, (m < n)%nat ->
      ~ stops_at cfg (num_points inst) (query_after inst k dim query qproj cfg m).
Proof.
  unfold query_final, query_after. cbv zeta.
  destruct (query_loop_done cfg k dim (num_points inst) (num_simp_indices inst)
              (data inst) query (query_start inst qproj)) as (n & Hn & Hbefore & Hat).
  { apply comps_init_valid. }
  exists n. split; [exact Hn|]. split; [now apply query_done_iff|].
  intros m Hm. apply query_done_false. now apply Hbefore.
Qed.

Lemma query_after_inv (inst : dci D) (k dim : Z) (query qproj : list D)
    (cfg : dci_query_config D) (n : nat) :
  query_inv (query_after inst k dim query qproj cfg n).
Proof.
  unfold query_after. apply steps_invariant.
  - intros st. apply query_step_inv.
  - apply query_start_inv.
Qed.

Lemma query_after_S (inst : dci D) (k dim : Z) (query qproj : list D)
    (cfg : dci_query_config D) (n : nat) :
  query_after inst k dim query qproj cfg (S n)
  = query_step (blind cfg) k dim (num_simp_indices inst) (data inst) query
      (query_after inst k dim query qproj cfg n).
Proof. unfold query_after. apply steps_S. Qed.

(** The points evaluated grow at their end, by one point at most in an
    iteration. *)
Lemma query_after_order (inst : dci D) (k dim : Z) (query qproj : list D)
    (cfg : dci_query_config D) (m n : nat) :
  (m <= n)%nat ->
  exists tl,
    ev_order (qs_eval (query_after inst k dim query qproj cfg n))
    = ev_order (qs_eval (query_after inst k dim query qproj cfg m)) ++ tl /\
    (length tl <= n - m)%nat.
Proof.
  induction 1 as [|n Hle IH].
  - exists []. rewrite app_nil_r. split; [reflexivity|simpl; lia].
  - destruct IH as (tl & Htl & Hlen). rewrite query_after_S.
    destruct (query_step_order (blind cfg) k dim (num_simp_indices inst) (data inst)
                query (query_after inst k dim query qproj cfg n)) as (tl' & Htl' & Hlen').
    exists (tl ++ tl'). rewrite Htl', Htl, app_assoc. split; [reflexivity|].
    rewrite length_app. lia.
Qed.

(** Until the query is over every iteration is one pop: after [m]
    iterations the visited counter holds [m]. *)
Lemma query_after_visited (inst : dci D) (k dim : Z) (query qproj : list D)
    (cfg : dci_query_config D) (n : nat) :
  (forall m, (m < n)%nat ->
     ~ stops_at cfg (num_points inst) (query_after inst k dim query qproj cfg m)) ->
  ev_visited (qs_eval (query_after inst k dim query qproj cfg n)) = Z.of_nat n.
Proof.
  induction n as [|n IH]; intros Hbefore; [reflexivity|].
  rewrite query_after_S, query_step_visited, IH; [lia| |].
  - intros m Hm. apply Hbefore. lia.
  - specialize (Hbefore n (Nat.lt_succ_diag_r n)).
    destruct (exhausted (qs_comps (query_after inst k dim query qproj cfg n))) eqn:E;
      [|reflexivity].
    exfalso. apply Hbefore. right. right. now apply exhausted_iff.
Qed.

End RunFacts.

Section AnswerFacts.
Context {D : Type} {HD : Double D} {HO : @DoubleOrder D HD}.

Lemma dist_of_true_dist (dim : Z) (data query : list D) (p : Z) :
  dist_of dim data query p = true_dist dim data query p.
Proof. unfold dist_of, true_dist, euclidean_dist. apply compute_dist_as_sum. Qed.

Lemma closer_total (a b : D * Z) : closer a b = true \/ closer b a = true.
Proof. unfold closer. apply dleb_total. Qed.

Lemma closer_trans (a b c : D * Z) :
  closer a b = true -> closer b c = true -> closer a c = true.
Proof. unfold closer. apply dleb_trans. Qed.

(** The retrieved set, sorted, is an answer of [k] nearest neighbours among
    the points evaluated. *)
Lemma heap_nearest (k dim : Z) (data query : list D) (ev : eval_state D) :
  eval_counts ev -> eval_heap_inv k dim data query ev ->
  nearest_of k (true_dist dim data query) (ev_order ev)
    (map snd (sort_by closer (ev_heap ev))) (map fst (sort_by closer (ev_heap ev))).
Proof.
  intros [Hnd _] ((rest & Hperm & Hle & Hlen) & Hent & Hids).
  pose proof (sort_by_perm closer (ev_heap ev)) as Hsort.
  assert (Hin : forall x, In x (sort_by closer (ev_heap ev)) <-> In x (ev_heap ev)).
  { intros x. split; apply Permutation_in; [exact Hsort|now apply Permutation_sym]. }
  assert (Hincl : incl (map snd (ev_heap ev)) (ev_order ev)).
  { intros p Hp. apply in_map_iff in Hp. destruct Hp as (x & <- & Hx). now apply Hent. }
  assert (Hdist : map fst (ev_heap ev)
                  = map (dist_of dim data query) (map snd (ev_heap ev))).
  { rewrite map_map. apply map_ext_in. intros x Hx. now apply Hent. }
  split; [|split; [|split; [|split; [|split]]]].
  - rewrite map_map. apply map_ext_in. intros x Hx. apply Hin in Hx.
    rewrite <- dist_of_true_dist. now apply Hent.
  - unfold ascending.
    apply StronglySorted_map with (RA := le_of closer); [intros a b Hab; exact Hab|].
    apply sort_by_sorted; [apply closer_total|apply closer_trans].
  - eapply Permutation_NoDup; [|exact Hids].
    apply Permutation_map, Permutation_sym, Hsort.
  - intros p Hp. apply Hincl.
    eapply Permutation_in; [apply Permutation_map, Hsort|exact Hp].
  - rewrite length_map, sort_by_length, Hlen, length_map. reflexivity.
  - intros p q Hp Hq Hnq.
    assert (Hp' : In p (map snd (ev_heap ev)))
      by (eapply Permutation_in; [apply Permutation_map, Hsort|exact Hp]).
    assert (Hnq' : ~ In q (map snd (ev_heap ev))).
    { intros Hc. apply Hnq.
      eapply Permutation_in; [apply Permutation_map, Permutation_sym, Hsort|exact Hc]. }
    pose proof (NoDup_split Hnd Hids Hincl) as Hsplit.
    set (left_out := filter (fun x => negb (existsb (Z.eqb x) (map snd (ev_heap ev))))
                       (ev_order ev)) in *.
    assert (Hrest : Permutation rest (map (dist_of dim data query) left_out)).
    { apply Permutation_app_inv_l with (l := map fst (ev_heap ev)).
      rewrite <- Hperm, Hdist, <- map_app. now apply Permutation_map. }
    rewrite <- !dist_of_true_dist. apply Hle.
    + rewrite Hdist. now apply in_map.
    + eapply Permutation_in; [apply Permutation_sym, Hrest|].
      apply in_map. unfold left_out. apply filter_In. split; [exact Hq|].
      destruct (existsb (Z.eqb q) (map snd (ev_heap ev))) eqn:E; [|reflexivity].
      exfalso. apply Hnq'. apply existsb_exists in E. destruct E as (y & Hy & Heq).
      apply Z.eqb_eq in Heq. now subst.
Qed.

(** The distances of the retrieved set, sorted: the [k] smallest of the
    distances of the points evaluated. *)
Lemma heap_dists (k dim : Z) (data query : list D) (ev : eval_state D) :
  eval_heap_inv k dim data query ev ->
  map fst (sort_by closer (ev_heap ev))
  = firstn (Z.to_nat k) (sort_by dleb (map (true_dist dim data query) (ev_order ev))).
Proof.
  intros [Hh _]. rewrite (heap_inv_sorted Hh). do 2 f_equal.
  apply map_ext. intros p. apply dist_of_true_dist.
Qed.

Lemma nearest_of_perm (k : Z) (dist : Z -> D) (ps ps' ids : list Z) (dists : list D) :
  Permutation ps ps' -> nearest_of k dist ps ids dists -> nearest_of k dist ps' ids dists.
Proof.
  intros Hperm (Hd & Hasc & Hnd & Hincl & Hlen & Hbest).
  split; [exact Hd|]. split; [exact Hasc|]. split; [exact Hnd|].
  split; [|split].
  - intros p Hp. eapply Permutation_in; [exact Hperm|]. now apply Hincl.
  - rewrite Hlen, (Permutation_length Hperm). reflexivity.
  - intros p q Hp Hq Hnq. apply Hbest; [exact Hp| |exact Hnq].
    eapply Permutation_in; [apply Permutation_sym, Hperm|exact Hq].
Qed.

Lemma query_after_heap_inv (inst : dci D) (k dim : Z) (query qproj : list D)
    (cfg : dci_query_config D) (n : nat) :
  blind cfg = false ->
  eval_heap_inv k dim (data inst) query
    (qs_eval (query_after inst k dim query qproj cfg n)).
Proof.
  intros Hblind. unfold query_after. rewrite Hblind.
  apply (steps_invariant false k dim (num_simp_indices inst) (data inst) query
           (fun st => eval_heap_inv k dim (data inst) query (qs_eval st))).
  - intros st. apply query_step_heap_inv.
  - apply eval_heap_inv_init.
Qed.

End AnswerFacts.

(* ================================================================== *)
(** * [dci_query]: the answer of a query that computes distances *)
(* ================================================================== *)

Lemma nth_map_seq {A : Type} (f : nat -> A) (n j : nat) (d : A) :
  (j < n)%nat -> nth j (map f (seq 0 n)) d = f j.
Proof.
  intros Hj. rewrite nth_indep with (d' := f 0%nat) by (rewrite length_map, length_seq; lia).
  rewrite map_nth with (f := f) (d := 0%nat), seq_nth by lia. reflexivity.
Qed.

Section QueryResults.
Context {D : Type} {HD : Double D}.
Variable DGEMM : DGEMM_t D.

(** A query with a configuration that passes the check returns its three
    arrays; the cells of query [j] are the result of the query of one
    point. *)
Lemma dci_query_Ok (inst : dci D) (dim nq : Z) (query : list D) (k : Z)
    (cfg : dci_query_config D) :
  query_config_error inst dim k cfg = false ->
  (index_levels inst <= 1)%Z ->
  exists ids dists counts,
    dci_query DGEMM inst dim nq query k cfg = Ok (ids, dists, counts) /\
    length ids = Z.to_nat nq /\ length dists = Z.to_nat nq /\
    length counts = Z.to_nat nq /\
    forall j, (j < Z.to_nat nq)%nat ->
      (nth j ids [], nth j dists [], nth j counts 0%Z)
      = dci_query_single_point inst k dim (ptr_add query (Z.of_nat j * dim)%Z)
          (query_projections DGEMM inst dim nq query j) cfg.
Proof.
  intros Hcfg Hlev. unfold dci_query. rewrite Hcfg.
  replace (1 <? index_levels inst)%Z with false by (symmetry; apply Z.ltb_ge; lia).
  cbv zeta. eexists _, _, _. split; [reflexivity|].
  rewrite !length_map, !length_seq. repeat split.
  intros j Hj. unfold query_projections. cbv zeta.
  rewrite !map_map, !nth_map_seq by exact Hj.
  now destruct (dci_query_single_point _ _ _ _ _ _) as [[a b] c].
Qed.

Lemma query_projections_length (inst : dci D) (dim nq : Z) (query : list D) (j : nat) :
  dgemm_inplace DGEMM ->
  (0 <= num_comp_indices inst * num_simp_indices inst)%Z ->
  (j < Z.to_nat nq)%nat ->
  Z.of_nat (length (query_projections DGEMM inst dim nq query j))
  = (num_comp_indices inst * num_simp_indices inst)%Z.
Proof.
  intros Hin Hni Hj. unfold query_projections, matmul, ptr_add. cbv zeta.
  rewrite length_firstn, length_skipn, Hin, repeat_length. nia.
Qed.

(** What [dci_add] has checked and built when it returns an index. *)
Lemma dci_add_Ok (inst0 : dci D) (dim N : Z) (pts : list D) (num_levels : Z)
    (ccfg : dci_query_config D) (inst : dci D) :
  dci_add DGEMM inst0 dim N pts num_levels ccfg = Ok inst ->
  (0 <= N)%Z /\ num_levels = 1%Z /\ dim = index_dim inst0 /\
  index_dim inst = dim /\ index_levels inst = 1%Z /\
  num_points inst = N /\ data inst = pts /\
  num_comp_indices inst = num_comp_indices inst0 /\
  num_simp_indices inst = num_simp_indices inst0 /\
  proj_vec inst = proj_vec inst0 /\
  length (nth 0 (indices inst) [])
  = Z.to_nat (num_comp_indices inst0 * num_simp_indices inst0) /\
  Forall (file_wf N) (nth 0 (indices inst) []).
Proof.
  unfold dci_add.
  destruct ((dim <=? 0)%Z || negb (dim =? index_dim inst0)%Z)%bool eqn:E1; [discriminate|].
  destruct (negb (index_levels inst0 =? 0)%Z || (N <? 0)%Z
            || (Z.of_nat (length pts) <? dim * N)%Z)%bool eqn:E2; [discriminate|].
  destruct (negb (num_levels =? 1)%Z) eqn:E3; [discriminate|].
  cbv zeta. intros Heq. inversion Heq; subst inst; clear Heq.
  apply orb_false_iff in E1. destruct E1 as [_ E1].
  apply negb_false_iff, Z.eqb_eq in E1.
  apply orb_false_iff in E2. destruct E2 as [E2 _].
  apply orb_false_iff in E2. destruct E2 as [_ E2]. apply Z.ltb_ge in E2.
  apply negb_false_iff, Z.eqb_eq in E3.
  unfold index_dim, index_levels in *.
  cbn.
  repeat (split; [first [exact E1|exact E2|exact E3|reflexivity]|]).
  split.
  - now rewrite length_map, length_seq.
  - apply Forall_map. apply Forall_forall. intros i _. apply position_file_wf.
Qed.

End QueryResults.

Section Exactness.
Context {D : Type} {HD : Double D} {HO : @DoubleOrder D HD}.

(** With both caps at their maxima a query that is over has evaluated every
    point: a cap at its maximum is not reached before. *)
Lemma maximal_caps_all_evaluated (cfg : dci_query_config D) (N L Ls : Z)
    (st : query_state D) :
  query_inv st -> query_wf N Ls st ->
  (pops (qs_comps st) + Z.of_nat (total_steps (qs_comps st)) <= L * Ls * N)%Z ->
  qs_comps st <> [] -> (0 <= N)%Z ->
  caps_maximal cfg N L Ls -> stops_at cfg N st ->
  Permutation (ev_order (qs_eval st)) (points N).
Proof.
  intros (Hvalid & Hlink & [Hnd Hret] & Hvis) [Hwf Hrange] Hpot Hne HN [Hv Hr] Hstop.
  assert (Hex : exhausted (qs_comps st) = true -> incl (points N) (ev_order (qs_eval st))).
  { intros Hex p Hp. apply Hlink.
    destruct (qs_comps st) as [|cs comps] eqn:Hcomps; [contradiction|].
    exists cs. split; [now left|].
    eapply exhausted_all_promoted; eauto. now left. }
  apply NoDup_Permutation; [exact Hnd|apply points_NoDup|].
  intros p. split; [apply Hrange|]. revert p.
  destruct Hstop as [(c & Hc & Hreach)|[(c & Hc & Hreach)|Hempty]].
  - apply Hex. apply total_steps_zero; [exact Hvalid|].
    assert (Hle : (L * Ls * N <= ev_visited (qs_eval st))%Z).
    { apply dofZ_le. apply dleb_trans with c; [now apply Hv|exact Hreach]. }
    lia.
  - assert (Hle : (N <= ev_retrieved (qs_eval st))%Z).
    { apply dofZ_le. apply dleb_trans with c; [now apply Hr|exact Hreach]. }
    apply NoDup_length_incl; [exact Hnd| |exact Hrange].
    rewrite points_length. lia.
  - apply Hex. now apply exhausted_iff.
Qed.

(** The two invariants and the bound of the pops hold all along a query of
    an index whose files list every point once. *)
Lemma query_after_wf (inst : dci D) (k dim : Z) (query qproj : list D)
    (cfg : dci_query_config D) (n : nat) :
  (1 <= num_comp_indices inst)%Z -> (1 <= num_simp_indices inst)%Z ->
  length (nth 0 (indices inst) [])
  = Z.to_nat (num_comp_indices inst * num_simp_indices inst) ->
  Forall (file_wf (num_points inst)) (nth 0 (indices inst) []) ->
  Z.of_nat (length qproj) = (num_comp_indices inst * num_simp_indices inst)%Z ->
  (0 <= num_points inst)%Z ->
  query_wf (num_points inst) (num_simp_indices inst)
    (query_after inst k dim query qproj cfg n) /\
  (pops (qs_comps (query_after inst k dim query qproj cfg n))
   + Z.of_nat (total_steps (qs_comps (query_after inst k dim query qproj cfg n)))
   <= num_comp_indices inst * num_simp_indices inst * num_points inst)%Z /\
  qs_comps (query_after inst k dim query qproj cfg n) <> [].
Proof.
  intros HL HLs Hlen Hfiles Hq HN. unfold query_after.
  enough (Hall4 :
            (fun st =>
               query_wf (num_points inst) (num_simp_indices inst) st /\
               (pops (qs_comps st) + Z.of_nat (total_steps (qs_comps st))
                <= num_comp_indices inst * num_simp_indices inst * num_points inst)%Z /\
               qs_comps st <> [] /\ Forall (@pq_valid D) (qs_comps st))
              (steps (blind cfg) k dim (num_simp_indices inst) (data inst) query n
                 (query_start inst qproj))).
  { cbv beta in Hall4. destruct Hall4 as (H1 & H2 & H3 & _).
    split; [exact H1|split; [exact H2|exact H3]]. }
  apply steps_invariant.
  - intros st (Hwf & Hpot & Hne & Hvalid). split; [now apply query_step_wf|]. split.
    + now rewrite query_step_potential.
    + split; [|now apply query_step_valid].
      intros Hnil. apply Hne. apply length_zero_iff_nil.
      rewrite <- (query_step_length (blind cfg) k dim (num_simp_indices inst)
                    (data inst) query st), Hnil. reflexivity.
  - unfold query_start. cbn [qs_comps qs_eval]. split; [split|split; [|split]].
    + apply comps_init_wf; auto; lia.
    + intros p [].
    + rewrite pops_init.
      pose proof (@comps_init_steps D HD (Z.to_nat (num_points inst))
                    (num_comp_indices inst) (num_simp_indices inst)
                    (nth 0 (indices inst) []) qproj) as Hsteps.
      assert (Hall : Forall (fun f : list (idx_elem D) => length f = Z.to_nat (num_points inst))
                       (nth 0 (indices inst) [])).
      { eapply Forall_impl; [|exact Hfiles]. intros f. apply file_wf_length. }
      specialize (Hsteps Hall). nia.
    + intros Hnil. apply (f_equal (@length _)) in Hnil.
      rewrite comps_init_length in Hnil. simpl in Hnil. lia.
    + apply comps_init_valid.
Qed.

End Exactness.

Section QueryAnswer.
Context {D : Type} {HD : Double D} {HO : @DoubleOrder D HD}.
Variable DGEMM : DGEMM_t D.

Lemma query_config_k (inst : dci D) (dim k : Z) (cfg : dci_query_config D) :
  query_config_error inst dim k cfg = false -> (0 < k)%Z.
Proof.
  unfold query_config_error. intros Hcfg.
  apply orb_false_iff in Hcfg. destruct Hcfg as [Hcfg _].
  apply orb_false_iff in Hcfg. destruct Hcfg as [_ Hk].
  apply Z.leb_gt in Hk. exact Hk.
Qed.

(** The answer of the query of one point that computes distances: the loop
    ends in the first state in which the query is over, and the result is
    an answer of [k] nearest neighbours among the points evaluated by
    then. *)
Lemma single_point_answer (inst : dci D) (k dim : Z) (query qproj : list D)
    (cfg : dci_query_config D) (ids : list Z) (dists : list D) (count : Z) :
  blind cfg = false ->
  (ids, dists, count) = dci_query_single_point inst k dim query qproj cfg ->
  exists n,
    stops_at cfg (num_points inst) (query_after inst k dim query qproj cfg n) /\
    (forall m, (m < n)%nat ->
       ~ stops_at cfg (num_points inst) (query_after inst k dim query qproj cfg m)) /\
    nearest_of k (true_dist dim (data inst) query)
      (ev_order (qs_eval (query_after inst k dim query qproj cfg n))) ids dists /\
    dists = firstn (Z.to_nat k)
              (sort_by dleb
                 (map (true_dist dim (data inst) query)
                    (ev_order (qs_eval (query_after inst k dim query qproj cfg n))))) /\
    count = Z.of_nat (length ids).
Proof.
  intros Hblind Hres. unfold dci_query_single_point in Hres. rewrite Hblind in Hres.
  destruct (query_final_run inst k dim query qproj cfg) as (n & Hfin & Hstop & Hbefore).
  rewrite Hfin in Hres. cbv zeta in Hres. inversion Hres; subst ids dists count; clear Hres.
  exists n. split; [exact Hstop|]. split; [exact Hbefore|].
  pose proof (query_after_inv inst k dim query qproj cfg n) as (_ & _ & Hcounts & _).
  pose proof (query_after_heap_inv inst k dim query qproj cfg n Hblind) as Hheap.
  split; [now apply heap_nearest|]. split; [now apply heap_dists|].
  now rewrite length_map.
Qed.

(** C4.  A query that computes distances and passes the check of its
    configuration returns, for each query point, the retrieved set as it is
    when the loop ends, that is in the first state in which an axis has
    reached its cap (or every queue is empty): the points returned are
    distinct points among those promoted by then, as many as [k] and the
    points evaluated allow, none farther than an evaluated point left out,
    with their true Euclidean distances in ascending order.  The count
    written for the query is the number of the neighbours returned,
    min (k, points evaluated): it is less than [k] when fewer than [k]
    distinct points were evaluated, and the call returns its arrays all the
    same, not an error. *)
Theorem dci_query_returns_sorted_heap (inst : dci D) (dim nq : Z) (query : list D)
    (k : Z) (cfg : dci_query_config D) :
  query_config_error inst dim k cfg = false ->
  (index_levels inst <= 1)%Z ->
  blind cfg = false ->
  exists ids dists counts,
    dci_query DGEMM inst dim nq query k cfg = Ok (ids, dists, counts) /\
    length ids = Z.to_nat nq /\ length dists = Z.to_nat nq /\
    length counts = Z.to_nat nq /\
    forall j, (j < Z.to_nat nq)%nat ->
      exists n,
        stops_at cfg (num_points inst)
          (query_after inst k dim (query_point query dim j)
             (query_projections DGEMM inst dim nq query j) cfg n) /\
        (forall m, (m < n)%nat ->
           ~ stops_at cfg (num_points inst)
               (query_after inst k dim (query_point query dim j)
                  (query_projections DGEMM inst dim nq query j) cfg m)) /\
        (forall p,
           In p (ev_order (qs_eval
                   (query_after inst k dim (query_point query dim j)
                      (query_projections DGEMM inst dim nq query j) cfg n)))
           <-> promoted_by
                 (qs_comps (query_after inst k dim (query_point query dim j)
                              (query_projections DGEMM inst dim nq query j) cfg n)) p) /\
        nearest_of k (true_dist dim (data inst) (query_point query dim j))
          (ev_order (qs_eval
             (query_after inst k dim (query_point query dim j)
                (query_projections DGEMM inst dim nq query j) cfg n)))
          (nth j ids []) (nth j dists []) /\
        nth j counts 0%Z = Z.of_nat (length (nth j ids [])) /\
        nth j counts 0%Z
        = Z.min k (Z.of_nat (length (ev_order (qs_eval
                     (query_after inst k dim (query_point query dim j)
                        (query_projections DGEMM inst dim nq query j) cfg n))))).
Proof.
  intros Hcfg Hlev Hblind.
  destruct (@dci_query_Ok D HD DGEMM inst dim nq query k cfg Hcfg Hlev)
    as (ids & dists & counts & Heq & Hl1 & Hl2 & Hl3 & Hnth).
  exists ids, dists, counts. split; [exact Heq|].
  split; [exact Hl1|]. split; [exact Hl2|]. split; [exact Hl3|].
  intros j Hj. specialize (Hnth j Hj). fold (query_point query dim j) in Hnth.
  destruct (@single_point_answer inst k dim (query_point query dim j)
              (query_projections DGEMM inst dim nq query j) cfg _ _ _ Hblind Hnth)
    as (n & Hstop & Hbefore & Hnear & _ & Hcount).
  exists n. split; [exact Hstop|]. split; [exact Hbefore|].
  split.
  { pose proof (query_after_inv inst k dim (query_point query dim j)
                  (query_projections DGEMM inst dim nq query j) cfg n)
      as (_ & Hlink & _ & _).
    exact Hlink. }
  split; [exact Hnear|]. split; [exact Hcount|].
  rewrite Hcount. destruct Hnear as (_ & _ & _ & _ & Hlen & _). rewrite Hlen.
  pose proof (@query_config_k inst dim k cfg Hcfg). lia.
Qed.


End QueryAnswer.

(* ================================================================== *)
(** * The termination budget and blind mode *)
(* ================================================================== *)

Section Budget.
Context {D : Type} {HD : Double D} {HO : @DoubleOrder D HD}.

Lemma dmax_spec (a b : D) :
  (dmax a b = a \/ dmax a b = b) /\ dleb a (dmax a b) = true /\ dleb b (dmax a b) = true.
Proof.
  unfold dmax. destruct (dltb a b) eqn:E.
  - split; [now right|]. split; [now apply dltb_dleb_weak|apply dleb_refl].
  - split; [now left|]. split; [apply dleb_refl|now apply dltb_false].
Qed.

(** The effective cap is the maximum of the active forms. *)
Lemma effective_cap_is_max (num : Z) (prop : D) (N : Z) :
  is_effective_cap num prop N (effective_cap num prop N).
Proof.
  unfold effective_cap, is_effective_cap.
  destruct (Z.leb_spec 0 num) as [Hn|Hn]; destruct (dltb (dofZ 0) prop) eqn:Hp.
  - destruct (dmax_spec (dofZ num) (dmul prop (dofZ N))) as ([He|He] & H1 & H2).
    + split; [left; now split|]. now split.
    + split; [right; now split|]. now split.
  - split; [left; now split|]. split; [intros _; apply dleb_refl|discriminate].
  - split; [right; now split|]. split; [lia|intros _; apply dleb_refl].
  - now split.
Qed.

(** A cap reached by a count is reached by every larger count. *)
Lemma axis_reached_mono (cap : option D) (a b : Z) :
  axis_reached cap a -> (a <= b)%Z -> axis_reached cap b.
Proof.
  intros (c & Hc & Hreach) Hab. exists c. split; [exact Hc|].
  apply dleb_trans with (dofZ a); [exact Hreach|now apply dofZ_le].
Qed.

(** No counter passes the first count that reaches its cap: the loop makes
    no iteration once an axis has reached its cap. *)
Lemma stop_bound (inst : dci D) (k dim : Z) (query qproj : list D)
    (cfg : dci_query_config D) (n : nat) :
  (forall m, (m < n)%nat ->
     ~ stops_at cfg (num_points inst) (query_after inst k dim query qproj cfg m)) ->
  (forall r, (0 <= r)%Z -> axis_reached (visit_cap cfg (num_points inst)) r ->
     (ev_visited (qs_eval (query_after inst k dim query qproj cfg n)) <= r)%Z) /\
  (forall r, (0 <= r)%Z -> axis_reached (retrieve_cap cfg (num_points inst)) r ->
     (ev_retrieved (qs_eval (query_after inst k dim query qproj cfg n)) <= r)%Z).
Proof.
  intros Hbefore. destruct n as [|m].
  - split; intros r Hr _; exact Hr.
  - pose proof (Hbefore m (Nat.lt_succ_diag_r m)) as Hnot.
    pose proof (@query_after_visited D HD inst k dim query qproj cfg (S m) Hbefore) as HvS.
    assert (Hvm : ev_visited (qs_eval (query_after inst k dim query qproj cfg m))
                  = Z.of_nat m).
    { apply query_after_visited. intros i Hi. apply Hbefore. lia. }
    pose proof (query_after_inv inst k dim query qproj cfg m) as (_ & _ & [_ Hrm] & _).
    pose proof (query_after_inv inst k dim query qproj cfg (S m)) as (_ & _ & [_ HrS] & _).
    destruct (@query_after_order D HD inst k dim query qproj cfg m (S m) (Nat.le_succ_diag_r m))
      as (tl & Htl & Hlen).
    split; intros r Hr Hreach.
    + destruct (Z_lt_le_dec (ev_visited (qs_eval (query_after inst k dim query qproj cfg m))) r)
        as [Hlt|Hge]; [lia|].
      exfalso. apply Hnot. left. eapply axis_reached_mono; eauto.
    + destruct (Z_lt_le_dec (ev_retrieved (qs_eval (query_after inst k dim query qproj cfg m))) r)
        as [Hlt|Hge].
      * rewrite HrS, Htl, length_app. rewrite Hrm in Hlt. lia.
      * exfalso. apply Hnot. right. left. eapply axis_reached_mono; eauto.
Qed.

(** C2.  The effective cap of each axis is the maximum of its active
    forms, the absolute count being active when >= 0 and the fraction of N
    when > 0; it is absent when no form is active.  The loop of a query
    returns, and the state it returns is the first, in the sequence of the
    iterations, in which the visited counter has reached the effective
    visit cap or the retrieved counter the effective retrieve cap (or every
    queue is empty): no iteration is made after that, so that neither
    counter passes the first count that reaches its cap.  Till then every
    iteration is one pop: the visited counter is the number of the
    iterations, which is the number of the pops of the composites; the
    retrieved counter is the number of the distinct points promoted. *)
Theorem query_stops_at_effective_cap (inst : dci D) (k dim : Z) (query qproj : list D)
    (cfg : dci_query_config D) :
  is_effective_cap (num_to_visit cfg) (prop_to_visit cfg) (num_points inst)
    (visit_cap cfg (num_points inst)) /\
  is_effective_cap (num_to_retrieve cfg) (prop_to_retrieve cfg) (num_points inst)
    (retrieve_cap cfg (num_points inst)) /\
  exists n,
    query_final inst k dim query qproj cfg = query_after inst k dim query qproj cfg n /\
    stops_at cfg (num_points inst) (query_after inst k dim query qproj cfg n) /\
    (forall m, (m < n)%nat ->
       ~ stops_at cfg (num_points inst) (query_after inst k dim query qproj cfg m)) /\
    ev_visited (qs_eval (query_after inst k dim query qproj cfg n)) = Z.of_nat n /\
    pops (qs_comps (query_after inst k dim query qproj cfg n)) = Z.of_nat n /\
    ev_retrieved (qs_eval (query_after inst k dim query qproj cfg n))
    = Z.of_nat (length (ev_order (qs_eval (query_after inst k dim query qproj cfg n)))) /\
    NoDup (ev_order (qs_eval (query_after inst k dim query qproj cfg n))) /\
    (forall p,
       In p (ev_order (qs_eval (query_after inst k dim query qproj cfg n)))
       <-> promoted_by (qs_comps (query_after inst k dim query qproj cfg n)) p) /\
    (forall r, (0 <= r)%Z -> axis_reached (visit_cap cfg (num_points inst)) r ->
       (ev_visited (qs_eval (query_after inst k dim query qproj cfg n)) <= r)%Z) /\
    (forall r, (0 <= r)%Z -> axis_reached (retrieve_cap cfg (num_points inst)) r ->
       (ev_retrieved (qs_eval (query_after inst k dim query qproj cfg n)) <= r)%Z).
Proof.
  split; [apply effective_cap_is_max|]. split; [apply effective_cap_is_max|].
  destruct (query_final_run inst k dim query qproj cfg) as (n & Hfin & Hstop & Hbefore).
  exists n. split; [exact Hfin|]. split; [exact Hstop|]. split; [exact Hbefore|].
  pose proof (query_after_inv inst k dim query qproj cfg n)
    as (_ & Hlink & [Hnd Hret] & Hvis).
  pose proof (@query_after_visited D HD inst k dim query qproj cfg n Hbefore) as Hv.
  split; [exact Hv|]. split; [now rewrite <- Hvis|].
  split; [exact Hret|]. split; [exact Hnd|]. split; [exact Hlink|].
  apply stop_bound. exact Hbefore.
Qed.

End Budget.

Section BlindMode.
Context {D : Type} {HD : Double D} {HO : @DoubleOrder D HD}.
Variable DGEMM : DGEMM_t D.

(** In blind mode the loop reads neither the data array nor the query
    point. *)
Lemma query_loop_blind_indep (cfg : dci_query_config D) (k1 dim1 k2 dim2 N Ls : Z)
    (data1 query1 data2 query2 : list D) (fuel : nat) (st : query_state D) :
  blind cfg = true ->
  query_loop cfg k1 dim1 N Ls data1 query1 fuel st
  = query_loop cfg k2 dim2 N Ls data2 query2 fuel st.
Proof.
  intros Hblind. revert st. induction fuel as [|fuel IH]; intros st; [reflexivity|].
  cbn [query_loop]. destruct (query_done cfg N st); [reflexivity|].
  rewrite Hblind, (query_step_blind_indep Ls k1 dim1 data1 query1 k2 dim2 data2 query2 st).
  rewrite <- Hblind. apply IH.
Qed.

Lemma single_point_blind_indep (inst : dci D) (data' : list D) (k dim : Z)
    (query qproj : list D) (cfg : dci_query_config D) :
  blind cfg = true ->
  dci_query_single_point (with_data inst data') k dim query qproj cfg
  = dci_query_single_point inst k dim query qproj cfg.
Proof.
  intros Hblind. unfold dci_query_single_point. rewrite Hblind.
  replace (query_final (with_data inst data') k dim query qproj cfg)
    with (query_final inst k dim query qproj cfg); [reflexivity|].
  unfold query_final, query_start, with_data.
  cbn [num_points num_simp_indices num_comp_indices indices data].
  now apply query_loop_blind_indep.
Qed.

Lemma query_after_blind_heap (inst : dci D) (k dim : Z) (query qproj : list D)
    (cfg : dci_query_config D) (n : nat) :
  blind cfg = true ->
  ev_heap (qs_eval (query_after inst k dim query qproj cfg n)) = [].
Proof.
  intros Hblind. unfold query_after. rewrite Hblind.
  apply (steps_invariant true k dim (num_simp_indices inst) (data inst) query
           (fun st => ev_heap (qs_eval st) = [])); [|reflexivity].
  intros st Hst. now rewrite query_step_blind_heap.
Qed.


End BlindMode.

(* ================================================================== *)
(** * Further facts: util.c *)
(* ================================================================== *)

(** ** Sums *)

Lemma dsum_ext {D : Type} `{Double D} (f g : nat -> D) (n : nat) :
  (forall i, (i < n)%nat -> f i = g i) -> dsum f n = dsum g n.
Proof.
  induction n as [|n IH]; intros Hfg; simpl; [reflexivity|].
  rewrite IH by (intros i Hi; apply Hfg; lia).
  rewrite Hfg by lia. reflexivity.
Qed.

Section RealSums.
Local Open Scope R_scope.

Lemma dsum_R_S (f : nat -> R) (n : nat) : dsum f (S n) = dsum f n + f n.
Proof. reflexivity. Qed.

Lemma dsum_R_nonneg (f : nat -> R) (n : nat) :
  (forall i, (i < n)%nat -> 0 <= f i) -> 0 <= dsum f n.
Proof.
  induction n as [|n IH]; intros Hf.
  - simpl. lra.
  - rewrite dsum_R_S.
    assert (0 <= dsum f n) by (apply IH; intros i Hi; apply Hf; lia).
    assert (0 <= f n) by (apply Hf; lia). lra.
Qed.

Lemma dsum_R_mono (f : nat -> R) (n m : nat) :
  (forall i, (i < m)%nat -> 0 <= f i) -> (n <= m)%nat -> dsum f n <= dsum f m.
Proof.
  intros Hf Hnm. induction Hnm as [|m Hnm IH].
  - lra.
  - rewrite dsum_R_S.
    assert (dsum f n <= dsum f m) by (apply IH; intros i Hi; apply Hf; lia).
    assert (0 <= f m) by (apply Hf; lia). lra.
Qed.

Lemma Rmult_self_nonneg (x : R) : 0 <= x * x.
Proof. exact (Rle_0_sqr x). Qed.

End RealSums.

(** ** [compute_dist]: the cells it reads *)

Section ComputeDistMetric.
Local Open Scope R_scope.

Lemma sq_diff_R_nonneg (vec1 vec2 : list R) (i : nat) : 0 <= sq_diff vec1 vec2 i.
Proof. unfold sq_diff. R_ops. apply Rmult_self_nonneg. Qed.

(** The distance over fewer coordinates is a lower bound of the distance
    over more of them. *)
Theorem compute_dist_R_mono_dim (vec1 vec2 : list R) (dim dim' : Z) :
  (dim <= dim')%Z ->
  compute_dist vec1 vec2 dim <= compute_dist vec1 vec2 dim'.
Proof.
  intros Hle. rewrite !compute_dist_as_sum. R_ops.
  apply sqrt_le_1_alt, dsum_R_mono; [intros; apply sq_diff_R_nonneg|lia].
Qed.

Lemma compute_dist_R_mono_dim_witness :
  compute_dist [3; 4] [0; 0] 1 <= compute_dist [3; 4] [0; 0] 2.
Proof. apply compute_dist_R_mono_dim. lia. Defined.

End ComputeDistMetric.

(** The value depends on the first [dim] cells of each array only: no
    cell from index [dim] on is read.  This holds of any arithmetic of
    [double]. *)
Theorem compute_dist_reads_prefix {D : Type} `{Double D}
    (vec1 vec2 vec1' vec2' : list D) (dim : Z) :
  (forall i : Z, (0 <= i < dim)%Z -> rd vec1 i = rd vec1' i) ->
  (forall i : Z, (0 <= i < dim)%Z -> rd vec2 i = rd vec2' i) ->
  compute_dist vec1 vec2 dim = compute_dist vec1' vec2' dim.
Proof.
  intros H1 H2. rewrite !compute_dist_as_sum. f_equal.
  apply dsum_ext. intros i Hi. unfold sq_diff.
  rewrite H1, H2 by lia. reflexivity.
Qed.

Lemma compute_dist_reads_prefix_witness :
  compute_dist [float_of_Z 3; float_of_Z 4; float_of_Z 7]
               [float_of_Z 0; float_of_Z 0] 2
  = compute_dist [float_of_Z 3; float_of_Z 4]
                 [float_of_Z 0; float_of_Z 0; float_of_Z 9] 2.
Proof.
  apply compute_dist_reads_prefix; intros i Hi;
    (assert (Hc : i = 0%Z \/ i = 1%Z) by lia); destruct Hc as [-> | ->]; reflexivity.
Defined.

(** ** [rand_normal]: returning, and the invariant of the statics *)

Section RandNormalPair.
Local Open Scope R_scope.

(** A supply with one rejected pair, S = 2, before the pair 3/4, 1/2. *)
Lemma rn_rejected_example : rn_rejected (D := R) [1; 1].
Proof.
  constructor; [|constructor]. cbv zeta. R_ops.
  apply orb_true_iff. left. apply Rleb_spec. lra.
Qed.

(** A call in phase 0 returns as soon as the supply of draws holds a pair
    with 0 < S < 1: it takes the rejected pairs before it and that pair,
    no draw after it, stores the pair and moves to phase 1. *)
Theorem rand_normal_returns (st : rn_static R) (rejected : list R) (U1 U2 : R)
    (rest : list R) :
  rn_phase st = 0%Z ->
  rn_rejected rejected ->
  0 < (2 * U1 - 1) * (2 * U1 - 1) + (2 * U2 - 1) * (2 * U2 - 1) < 1 ->
  rand_normal st (rejected ++ U1 :: U2 :: rest)
  = Some ((2 * U1 - 1)
          * sqrt (-2 * ln ((2 * U1 - 1) * (2 * U1 - 1) + (2 * U2 - 1) * (2 * U2 - 1))
                  / ((2 * U1 - 1) * (2 * U1 - 1) + (2 * U2 - 1) * (2 * U2 - 1))),
          mk_rn_static (2 * U1 - 1) (2 * U2 - 1)
            ((2 * U1 - 1) * (2 * U1 - 1) + (2 * U2 - 1) * (2 * U2 - 1)) 1%Z,
          rest).
Proof.
  intros Hph Hrej HS. unfold rand_normal. rewrite Hph. cbn [Z.eqb].
  rewrite (rand_normal_loop_total rest Hrej HS). reflexivity.
Qed.

Lemma rand_normal_returns_witness :
  exists x, rand_normal (D := R) rn_init ([1; 1] ++ [3 / 4; 1 / 2; 1 / 3])
            = Some (x, mk_rn_static (2 * (3 / 4) - 1) (2 * (1 / 2) - 1)
                         ((2 * (3 / 4) - 1) * (2 * (3 / 4) - 1)
                          + (2 * (1 / 2) - 1) * (2 * (1 / 2) - 1)) 1%Z,
                    [1 / 3]).
Proof.
  eexists.
  apply (@rand_normal_returns rn_init [1; 1] (3 / 4) (1 / 2) [1 / 3]);
    [reflexivity|exact rn_rejected_example|lra].
Defined.

(** What every reachable state of the statics satisfies: [phase] is 0 or 1,
    [S] is the sum of the squares of [V1] and [V2], 0 <= S < 1, and
    0 < S in phase 1. *)
Definition rn_polar (st : rn_static R) : Prop :=
  (rn_phase st = 0%Z \/ rn_phase st = 1%Z) /\
  rn_S st = rn_V1 st * rn_V1 st + rn_V2 st * rn_V2 st /\
  0 <= rn_S st < 1 /\
  (rn_phase st = 1%Z -> 0 < rn_S st).

Lemma rn_polar_step (st : rn_static R) (draws : list R) x st' rest :
  rn_polar st -> rand_normal st draws = Some (x, st', rest) -> rn_polar st'.
Proof.
  intros (Hph & HS & Hr & Hpos) Hcall. destruct Hph as [Hz|Ho].
  - apply rand_normal_phase0 in Hcall; [|exact Hz].
    destruct Hcall as (rej & U1 & U2 & _ & _ & Hrange & -> & _).
    unfold rn_polar. cbn [rn_phase rn_S rn_V1 rn_V2].
    split; [right; reflexivity|]. split; [reflexivity|]. split; [lra|].
    intros _. lra.
  - rewrite rand_normal_phase1 in Hcall by lia.
    inversion Hcall; subst x st' rest; clear Hcall.
    unfold rn_polar. cbn [rn_phase rn_S rn_V1 rn_V2]. rewrite Ho.
    split; [left; reflexivity|]. split; [exact HS|]. split; [exact Hr|].
    intros Hne. discriminate.
Qed.

Lemma rn_polar_init : rn_polar rn_init.
Proof.
  unfold rn_polar, rn_init. cbn [rn_phase rn_S rn_V1 rn_V2]. R_ops.
  split; [left; reflexivity|]. split; [ring|]. split; [lra|]. discriminate.
Qed.

(** The invariant of the statics of [rand_normal] over every sequence of
    calls from program start. *)
Theorem rn_reachable_polar (st : rn_static R) :
  rn_reachable st -> rn_polar st.
Proof.
  induction 1 as [|st draws x st' rest _ IH Hcall].
  - exact rn_polar_init.
  - eapply rn_polar_step; eassumption.
Qed.

Lemma rn_reachable_polar_witness :
  exists x st' rest,
    rand_normal (D := R) rn_init [3 / 4; 1 / 2] = Some (x, st', rest) /\
    rn_polar st'.
Proof.
  eexists _, _, _. split; [exact rand_normal_init_example|].
  apply rn_reachable_polar.
  exact (rn_reach_call [3 / 4; 1 / 2] (rn_reach_init (D := R))
           rand_normal_init_example).
Defined.

End RandNormalPair.

(** ** [matmul]: the array it overwrites *)

(** Two arrays of one length with the same cells are equal. *)
Lemma rd_ext {D : Type} `{Double D} (a b : list D) :
  length a = length b ->
  (forall idx : Z, (0 <= idx < Z.of_nat (length a))%Z -> rd a idx = rd b idx) ->
  a = b.
Proof.
  intros Hlen Hcells. apply nth_ext with (d := dofZ 0) (d' := dofZ 0); [exact Hlen|].
  intros n Hn. rewrite <- !rd_in_range. apply Hcells. lia.
Qed.

Section MatmulMore.
Local Open Scope R_scope.

(** Under the contract of DGEMM the call of [matmul] keeps the length of
    [C] and leaves the entries of A^T B. *)
Lemma matmul_entry (DGEMM : DGEMM_t R) (M N K : Z) (A B C : list R) :
  dgemm_contract DGEMM ->
  (0 <= M)%Z -> (0 <= N)%Z -> (0 <= K)%Z ->
  Z.of_nat (length A) = (K * M)%Z ->
  Z.of_nat (length B) = (K * N)%Z ->
  Z.of_nat (length C) = (M * N)%Z ->
  length (matmul DGEMM M N K A B C) = length C /\
  forall i j, (0 <= i < M)%Z -> (0 <= j < N)%Z ->
    rd (matmul DGEMM M N K A B C) (i + j * M)%Z = At_B_entry K A B i j.
Proof.
  intros Hcontract HM HN HK HA HB HC.
  assert (Hlegal : dgemm_legal "T" "N" M N K (length A) K (length B) K (length C) M).
  { unfold dgemm_legal. cbn [Ascii.eqb Bool.eqb].
    repeat split; try lia; auto. }
  destruct (Hcontract "T"%char "N"%char M N K 1 A K B K 0 C M Hlegal) as [Hlen Hent].
  split; [exact Hlen|].
  intros i j Hi Hj. unfold matmul. cbv zeta. R_ops.
  rewrite (Hent i j Hi Hj). unfold dgemm_entry. rewrite dgemm_dot_T_N. R_ops. ring.
Qed.

(** [matmul] overwrites [C]: with BETA = 0 the M x N array it leaves does
    not depend on what [C] held before the call. *)
Theorem matmul_overwrites_C (DGEMM : DGEMM_t R) (M N K : Z) (A B C C' : list R)
    (Hcontract : dgemm_contract DGEMM)
    (HM : (0 <= M)%Z) (HN : (0 <= N)%Z) (HK : (0 <= K)%Z)
    (HA : Z.of_nat (length A) = (K * M)%Z)
    (HB : Z.of_nat (length B) = (K * N)%Z)
    (HC : Z.of_nat (length C) = (M * N)%Z)
    (HC' : Z.of_nat (length C') = (M * N)%Z) :
  matmul DGEMM M N K A B C = matmul DGEMM M N K A B C'.
Proof.
  destruct (matmul_entry A B C Hcontract HM HN HK HA HB HC) as [Hlen Hent].
  destruct (matmul_entry A B C' Hcontract HM HN HK HA HB HC') as [Hlen' Hent'].
  apply rd_ext; [lia|].
  intros idx Hidx. rewrite Hlen, HC in Hidx.
  assert (HMpos : (0 < M)%Z) by nia.
  pose proof (Z.div_mod idx M ltac:(lia)) as Hdm.
  pose proof (Z.mod_pos_bound idx M HMpos) as Hmod.
  assert (Hdiv : (0 <= idx / M < N)%Z).
  { split; [apply Z.div_pos; lia|apply Z.div_lt_upper_bound; lia]. }
  replace idx with (idx mod M + idx / M * M)%Z by lia.
  rewrite Hent, Hent' by lia. reflexivity.
Qed.

Lemma matmul_overwrites_C_witness :
  matmul dgemm_ref 2 1 2 [1; 2; 3; 4] [5; 6] [0; 0]
  = matmul dgemm_ref 2 1 2 [1; 2; 3; 4] [5; 6] [7; 8].
Proof.
  apply (@matmul_overwrites_C dgemm_ref 2 1 2 [1; 2; 3; 4] [5; 6] [0; 0] [7; 8]
           dgemm_ref_contract); simpl; lia.
Defined.

End MatmulMore.

(** ** [gen_data] *)

Section GenDataFacts.
Context {D : Type} `{Double D}.

(** A loop of [gen_data] takes the next [n] draws, in order, one for each
    cell. *)
Lemma gen_data_fill_enough (n : nat) (draws : list D) :
  (n <= length draws)%nat ->
  gen_data_fill n draws = Some (map centred (firstn n draws), skipn n draws).
Proof.
  revert draws; induction n as [|n IH]; intros draws Hlen; [reflexivity|].
  destruct draws as [|u rest]; [simpl in Hlen; lia|].
  cbn [gen_data_fill firstn skipn map]. rewrite IH by (simpl in Hlen; lia).
  reflexivity.
Qed.

Lemma gen_data_fill_short (n : nat) (draws : list D) :
  (length draws < n)%nat -> gen_data_fill n draws = None.
Proof.
  revert draws; induction n as [|n IH]; intros draws Hlen; [lia|].
  destruct draws as [|u rest]; [reflexivity|].
  cbn [gen_data_fill]. rewrite IH by (simpl in Hlen; lia). reflexivity.
Qed.

(** The two loops and the call of [matmul], for a supply that is long
    enough. *)
Lemma gen_data_eq (DGEMM : DGEMM_t D) (data : list D) (A K N : Z) (draws : list D) :
  (Z.to_nat (K * N) + Z.to_nat (K * A) <= length draws)%nat ->
  gen_data DGEMM data A K N draws
  = Some (matmul DGEMM A N K
            (map centred (firstn (Z.to_nat (K * A)) (skipn (Z.to_nat (K * N)) draws)))
            (map centred (firstn (Z.to_nat (K * N)) draws))
            data,
          skipn (Z.to_nat (K * N) + Z.to_nat (K * A)) draws).
Proof.
  intros Hlen. unfold gen_data.
  rewrite gen_data_fill_enough by lia.
  rewrite gen_data_fill_enough by (rewrite length_skipn; lia).
  rewrite skipn_skipn. do 3 f_equal. lia.
Qed.

(** A cell of an array a loop of [gen_data] has filled from the draws
    [m], ..., [m + n - 1]. *)
Lemma rd_filled (draws : list D) (m n : nat) (idx : Z) :
  (m + n <= length draws)%nat -> (0 <= idx < Z.of_nat n)%Z ->
  rd (map centred (firstn n (skipn m draws))) idx
  = centred (rd draws (Z.of_nat m + idx)).
Proof.
  intros Hlen Hidx. unfold rd.
  destruct (Z.ltb_spec idx 0); [lia|].
  destruct (Z.ltb_spec (Z.of_nat m + idx) 0); [lia|].
  rewrite nth_indep with (d' := centred (dofZ 0))
    by (rewrite length_map, length_firstn, length_skipn; lia).
  rewrite map_nth, nth_firstn.
  destruct (Nat.ltb_spec (Z.to_nat idx) n); [|lia].
  rewrite nth_skipn. do 2 f_equal. lia.
Qed.

(** [gen_data] takes intrinsic_dim * num_points draws for [latent_data],
    then intrinsic_dim * ambient_dim draws for [transformation], each cell
    receiving [2 * u - 1] of its draw [u], and leaves in [data] what
    [matmul] makes of the two arrays; the draws after these are not
    taken.  This holds of any arithmetic of [double] and any DGEMM. *)
Theorem gen_data_draws (DGEMM : DGEMM_t D) (data : list D)
    (ambient_dim intrinsic_dim num_points : Z) (draws : list D) :
  (0 <= intrinsic_dim * num_points <= INT_MAX)%Z ->
  (0 <= intrinsic_dim * ambient_dim <= INT_MAX)%Z ->
  (intrinsic_dim * num_points + intrinsic_dim * ambient_dim
   <= Z.of_nat (length draws))%Z ->
  gen_data DGEMM data ambient_dim intrinsic_dim num_points draws
  = Some (matmul DGEMM ambient_dim num_points intrinsic_dim
            (map centred
               (firstn (Z.to_nat (intrinsic_dim * ambient_dim))
                  (skipn (Z.to_nat (intrinsic_dim * num_points)) draws)))
            (map centred (firstn (Z.to_nat (intrinsic_dim * num_points)) draws))
            data,
          skipn (Z.to_nat (intrinsic_dim * num_points + intrinsic_dim * ambient_dim))
            draws).
Proof.
  intros Hl Ht Hlen. rewrite gen_data_eq by lia. do 3 f_equal. lia.
Qed.

End GenDataFacts.

Lemma gen_data_draws_witness :
  gen_data dgemm_ref [float_of_Z 0; float_of_Z 0] 2 1 1
    [float_of_Z 1; float_of_Z 0; float_of_Z 1; float_of_Z 1]
  = Some ([float_of_Z (-1); float_of_Z 1], [float_of_Z 1]).
Proof.
  rewrite gen_data_draws; [vm_compute; reflexivity|unfold INT_MAX; lia..|simpl; lia].
Defined.

(** ** [gen_data]: the points it generates *)

Section GenDataPoints.
Local Open Scope R_scope.

(** A sum of [n] terms of absolute value at most 1. *)
Lemma dsum_R_abs_le (f : nat -> R) (n : nat) :
  (forall l, (l < n)%nat -> Rabs (f l) <= 1) -> Rabs (dsum f n) <= INR n.
Proof.
  induction n as [|n IH]; intros Hf.
  - simpl. rewrite Rabs_R0. lra.
  - rewrite dsum_R_S, S_INR.
    eapply Rle_trans; [apply Rabs_triang|].
    assert (Rabs (dsum f n) <= INR n) by (apply IH; intros l Hl; apply Hf; lia).
    assert (Rabs (f n) <= 1) by (apply Hf; lia). lra.
Qed.

(** A draw in [0, 1] gives a cell in [-1, 1]. *)
Lemma centred_range (u : R) : 0 <= u <= 1 -> Rabs (centred u) <= 1.
Proof.
  intros Hu. unfold centred. R_ops. apply Rabs_le. lra.
Qed.

Lemma rd_Forall (P : R -> Prop) (a : list R) (idx : Z) :
  Forall P a -> (0 <= idx < Z.of_nat (length a))%Z -> P (rd a idx).
Proof.
  intros Hall Hidx. unfold rd. destruct (Z.ltb_spec idx 0); [lia|].
  rewrite Forall_forall in Hall. apply Hall, nth_In. lia.
Qed.

(** The points [gen_data] generates.  Under the contract of DGEMM, with
    K = intrinsic_dim, entry (i, j) of the ambient_dim x num_points array
    left in [data] is the sum over l < K of T(l, i) * L(l, j), where
    L(l, j) = 2 u - 1 for the draw u of index l + j K and T(l, i) = 2 u - 1
    for the draw u of index K num_points + l + i K: every point is a
    combination of the K rows of [transformation].  When the draws lie in
    [0, 1], as those of [drand48] do, no coordinate exceeds K in absolute
    value. *)
Theorem gen_data_points (DGEMM : DGEMM_t R) (data : list R)
    (ambient_dim intrinsic_dim num_points : Z) (draws : list R)
    (Hcontract : dgemm_contract DGEMM)
    (HA : (0 <= ambient_dim)%Z) (HK : (0 <= intrinsic_dim)%Z)
    (HN : (0 <= num_points)%Z)
    (Hl : (intrinsic_dim * num_points <= INT_MAX)%Z)
    (Ht : (intrinsic_dim * ambient_dim <= INT_MAX)%Z)
    (Hdata : Z.of_nat (length data) = (ambient_dim * num_points)%Z)
    (Hdraws : (intrinsic_dim * num_points + intrinsic_dim * ambient_dim
               <= Z.of_nat (length draws))%Z) :
  exists data' : list R,
    gen_data DGEMM data ambient_dim intrinsic_dim num_points draws
    = Some (data',
            skipn (Z.to_nat (intrinsic_dim * num_points + intrinsic_dim * ambient_dim))
              draws) /\
    length data' = length data /\
    forall i j : Z, (0 <= i < ambient_dim)%Z -> (0 <= j < num_points)%Z ->
      rd data' (i + j * ambient_dim)%Z
      = dsum (fun l : nat =>
                (2 * rd draws (intrinsic_dim * num_points
                               + (Z.of_nat l + i * intrinsic_dim))%Z - 1)
                * (2 * rd draws (Z.of_nat l + j * intrinsic_dim)%Z - 1))
             (Z.to_nat intrinsic_dim) /\
      (Forall (fun u => 0 <= u <= 1) draws ->
       Rabs (rd data' (i + j * ambient_dim)%Z) <= IZR intrinsic_dim).
Proof.
  set (K := intrinsic_dim) in *. set (A := ambient_dim) in *.
  set (N := num_points) in *.
  assert (HKN : (0 <= K * N)%Z) by nia.
  assert (HKA : (0 <= K * A)%Z) by nia.
  eexists. split; [|split].
  - rewrite gen_data_eq by lia. rewrite <- Z2Nat.inj_add by lia. reflexivity.
  - apply matmul_entry; try assumption;
      rewrite length_map, length_firstn, ?length_skipn; lia.
  - intros i j Hi Hj.
    destruct (@matmul_entry DGEMM A N K
                (map centred (firstn (Z.to_nat (K * A)) (skipn (Z.to_nat (K * N)) draws)))
                (map centred (firstn (Z.to_nat (K * N)) draws)) data Hcontract)
      as [_ Hent]; try assumption;
      try (rewrite length_map, length_firstn, ?length_skipn; lia).
    rewrite Hent by assumption. unfold At_B_entry. R_ops.
    assert (Hcell : forall l : nat, (l < Z.to_nat K)%nat ->
              rd (map centred (firstn (Z.to_nat (K * A)) (skipn (Z.to_nat (K * N)) draws)))
                 (Z.of_nat l + i * K)%Z
              * rd (map centred (firstn (Z.to_nat (K * N)) draws)) (Z.of_nat l + j * K)%Z
              = (2 * rd draws (K * N + (Z.of_nat l + i * K))%Z - 1)
                * (2 * rd draws (Z.of_nat l + j * K)%Z - 1)).
    { intros l Hlt.
      rewrite rd_filled by nia.
      change (firstn (Z.to_nat (K * N)) draws)
        with (firstn (Z.to_nat (K * N)) (skipn 0 draws)).
      rewrite rd_filled by nia.
      rewrite Z2Nat.id by lia. unfold centred. R_ops.
      replace (Z.of_nat 0 + (Z.of_nat l + j * K))%Z with (Z.of_nat l + j * K)%Z by lia.
      reflexivity. }
    rewrite (dsum_ext _ _ Hcell). split; [reflexivity|].
    intros Hrange.
    replace (IZR K) with (INR (Z.to_nat K))
      by (rewrite INR_IZR_INZ, Z2Nat.id by lia; reflexivity).
    apply dsum_R_abs_le. intros l Hlt. rewrite Rabs_mult.
    assert (H1 : Rabs (centred (rd draws (K * N + (Z.of_nat l + i * K))%Z)) <= 1)
      by (apply centred_range;
          refine (@rd_Forall (fun u => 0 <= u <= 1) draws _ Hrange _); nia).
    assert (H2 : Rabs (centred (rd draws (Z.of_nat l + j * K)%Z)) <= 1)
      by (apply centred_range;
          refine (@rd_Forall (fun u => 0 <= u <= 1) draws _ Hrange _); nia).
    unfold centred in H1, H2. R_ops.
    pose proof (Rabs_pos (2 * rd draws (K * N + (Z.of_nat l + i * K))%Z - 1)).
    pose proof (Rabs_pos (2 * rd draws (Z.of_nat l + j * K)%Z - 1)).
    nra.
Qed.

(** One latent coordinate, two ambient ones, one point, from the draws
    1, 0, 1: the point (-1, 1). *)
Lemma gen_data_points_witness :
  exists data' : list R,
    gen_data dgemm_ref [0; 0] 2 1 1 [1; 0; 1; 1 / 2] = Some (data', [1 / 2]) /\
    length data' = 2%nat.
Proof.
  destruct (@gen_data_points dgemm_ref [0; 0] 2 1 1 [1; 0; 1; 1 / 2]
              dgemm_ref_contract)
    as (data' & Hrun & Hlen & _); try (unfold INT_MAX; simpl; lia).
  exists data'. split; [exact Hrun|exact Hlen].
Defined.

End GenDataPoints.

(** ** [print_matrix] *)

Lemma flat_map_map_comp {A B C : Type} (f : B -> list C) (g : A -> B) (l : list A) :
  flat_map f (map g l) = flat_map (fun x => f (g x)) l.
Proof.
  induction l as [|x l IH]; [reflexivity|]. cbn [map flat_map]. now rewrite IH.
Qed.

Lemma map_flat_map_comp {A B C : Type} (f : A -> list B) (g : B -> C) (l : list A) :
  map g (flat_map f l) = flat_map (fun x => map g (f x)) l.
Proof.
  induction l as [|x l IH]; [reflexivity|]. cbn [flat_map]. now rewrite map_app, IH.
Qed.

Lemma length_flat_map_const {A B : Type} (f : A -> list B) (l : list A) (c : nat) :
  (forall x, length (f x) = c) -> length (flat_map f l) = (length l * c)%nat.
Proof.
  intros Hf. induction l as [|x l IH]; [reflexivity|].
  cbn [flat_map length]. rewrite length_app, Hf, IH. lia.
Qed.

Section PrintMatrixFacts.
Context {D : Type} `{Double D}.

(** The inner loop prints the cells i + j * num_rows for the [n] values of
    j from [j0] on. *)
Lemma print_matrix_row_eq (data : list D) (num_rows i : Z) (n : nat) (j0 : Z) :
  print_matrix_row data num_rows i n j0
  = map (fun j : nat => Printf_4f_tab (rd data (i + (j0 + Z.of_nat j) * num_rows)%Z))
        (seq 0 n).
Proof.
  revert j0; induction n as [|n IH]; intros j0; [reflexivity|].
  cbn [print_matrix_row]. rewrite IH. cbn [seq map].
  rewrite <- seq_shift, map_map. f_equal.
  - do 3 f_equal. lia.
  - apply map_ext. intros j. do 3 f_equal. lia.
Qed.

Lemma print_matrix_row_values (data : list D) (num_rows num_cols i : Z) :
  print_matrix_row data num_rows i (Z.to_nat num_cols) 0
  = map Printf_4f_tab (row_of data num_rows num_cols i).
Proof.
  rewrite print_matrix_row_eq. unfold row_of. rewrite map_map.
  apply map_ext. intros j. reflexivity.
Qed.

(** A line: values, then the newline. *)
Lemma printed_lines_line (xs : list D) (out : list (printf_call D)) (cur : list D) :
  printed_lines (map Printf_4f_tab xs ++ Printf_newline :: out) cur
  = (cur ++ xs) :: printed_lines out [].
Proof.
  revert cur; induction xs as [|x xs IH]; intros cur; cbn [map app printed_lines].
  - now rewrite app_nil_r.
  - rewrite IH, <- app_assoc. reflexivity.
Qed.

Lemma printed_values_line (xs : list D) (out : list (printf_call D)) :
  printed_values (map Printf_4f_tab xs ++ Printf_newline :: out)
  = xs ++ printed_values out.
Proof.
  induction xs as [|x xs IH]; cbn [map app printed_values]; [reflexivity|].
  now rewrite IH.
Qed.

(** The outer loop prints one line for each of the [n] rows from [i0]
    on. *)
Lemma print_matrix_loop_lines (data : list D) (num_rows num_cols : Z) (n : nat) (i0 : Z) :
  printed_lines (print_matrix_loop data num_rows num_cols n i0) []
  = map (fun i : nat => row_of data num_rows num_cols (i0 + Z.of_nat i)) (seq 0 n).
Proof.
  revert i0; induction n as [|n IH]; intros i0; [reflexivity|].
  cbn [print_matrix_loop]. rewrite print_matrix_row_values, printed_lines_line, IH.
  cbn [seq map app]. rewrite <- seq_shift, map_map. f_equal.
  - f_equal. lia.
  - apply map_ext. intros i. f_equal. lia.
Qed.

Lemma print_matrix_loop_values (data : list D) (num_rows num_cols : Z) (n : nat) (i0 : Z) :
  printed_values (print_matrix_loop data num_rows num_cols n i0)
  = flat_map (fun i : nat => row_of data num_rows num_cols (i0 + Z.of_nat i)) (seq 0 n).
Proof.
  revert i0; induction n as [|n IH]; intros i0; [reflexivity|].
  cbn [print_matrix_loop]. rewrite print_matrix_row_values, printed_values_line, IH.
  cbn [seq flat_map]. rewrite <- seq_shift, flat_map_map_comp. f_equal.
  - f_equal. lia.
  - apply flat_map_ext. intros i. f_equal. lia.
Qed.

(** [print_matrix] prints the matrix row by row: [num_rows] lines, line i
    holding, from left to right, the [num_cols] entries (i, 0), (i, 1),
    ... of the column-major array, the cells i + j * num_rows. *)
Theorem print_matrix_lines (data : list D) (num_rows num_cols : Z) :
  (num_rows * num_cols <= INT_MAX)%Z ->
  printed_lines (print_matrix data num_rows num_cols) []
  = map (fun i : nat =>
           map (fun j : nat => rd data (Z.of_nat i + Z.of_nat j * num_rows)%Z)
               (seq 0 (Z.to_nat num_cols)))
        (seq 0 (Z.to_nat num_rows)).
Proof.
  intros _. unfold print_matrix. rewrite print_matrix_loop_lines.
  apply map_ext. intros i. reflexivity.
Qed.

(** The printing order holds every cell of the matrix once. *)
Lemma row_major_cells_length (r c : nat) : length (row_major_cells r c) = (r * c)%nat.
Proof.
  unfold row_major_cells. rewrite length_flat_map_const with (c := c), length_seq;
    [reflexivity|].
  intros i. now rewrite length_map, length_seq.
Qed.

Lemma row_major_cells_all (r c : nat) : incl (seq 0 (r * c)) (row_major_cells r c).
Proof.
  intros x Hx. apply in_seq in Hx. unfold row_major_cells. apply in_flat_map.
  assert (Hr : (0 < r)%nat) by nia.
  exists (x mod r)%nat. split.
  - apply in_seq. pose proof (Nat.mod_upper_bound x r). lia.
  - apply in_map_iff. exists (x / r)%nat. split.
    + pose proof (Nat.div_mod_eq x r). lia.
    + apply in_seq. split; [lia|]. simpl. apply Nat.Div0.div_lt_upper_bound. lia.
Qed.

Lemma row_major_cells_perm (r c : nat) :
  Permutation (seq 0 (r * c)) (row_major_cells r c).
Proof.
  apply NoDup_Permutation_bis.
  - apply seq_NoDup.
  - rewrite row_major_cells_length, length_seq. lia.
  - apply row_major_cells_all.
Qed.

Lemma map_nth_seq (a : list D) (d : D) :
  map (fun idx : nat => nth idx a d) (seq 0 (length a)) = a.
Proof.
  apply nth_ext with (d := d) (d' := d); [now rewrite length_map, length_seq|].
  intros n Hn. rewrite length_map, length_seq in Hn.
  rewrite nth_indep with (d' := nth 0 a d) by (rewrite length_map, length_seq; lia).
  rewrite map_nth with (f := fun idx => nth idx a d), seq_nth by lia. reflexivity.
Qed.

Lemma print_matrix_values_cells (data : list D) (num_rows num_cols : Z) :
  (0 <= num_rows)%Z ->
  printed_values (print_matrix data num_rows num_cols)
  = map (fun idx : nat => nth idx data (dofZ 0))
        (row_major_cells (Z.to_nat num_rows) (Z.to_nat num_cols)).
Proof.
  intros Hr. unfold print_matrix. rewrite print_matrix_loop_values.
  unfold row_major_cells. rewrite map_flat_map_comp.
  apply flat_map_ext. intros i. unfold row_of. rewrite map_map.
  apply map_ext. intros j. rewrite <- rd_in_range. f_equal. nia.
Qed.

(** Every cell of a [num_rows] x [num_cols] array is printed, each once,
    and no cell outside the array is read: the values printed are those
    of the array, in another order. *)
Theorem print_matrix_each_cell_once (data : list D) (num_rows num_cols : Z) :
  (0 <= num_rows)%Z -> (0 <= num_cols)%Z ->
  (num_rows * num_cols <= INT_MAX)%Z ->
  Z.of_nat (length data) = (num_rows * num_cols)%Z ->
  Permutation (printed_values (print_matrix data num_rows num_cols)) data.
Proof.
  intros Hr Hc _ Hlen. rewrite print_matrix_values_cells by exact Hr.
  assert (Hperm : Permutation
            (map (fun idx : nat => nth idx data (dofZ 0))
               (row_major_cells (Z.to_nat num_rows) (Z.to_nat num_cols)))
            (map (fun idx : nat => nth idx data (dofZ 0)) (seq 0 (length data)))).
  { apply Permutation_map, Permutation_sym.
    replace (length data) with (Z.to_nat num_rows * Z.to_nat num_cols)%nat by nia.
    apply row_major_cells_perm. }
  rewrite map_nth_seq in Hperm. exact Hperm.
Qed.

(** With no row nothing is printed; with no column, one empty line for
    each row. *)
Theorem print_matrix_empty (data : list D) (num_rows num_cols : Z) :
  ((num_rows <= 0)%Z -> print_matrix data num_rows num_cols = []) /\
  ((num_cols <= 0)%Z ->
   print_matrix data num_rows num_cols = repeat Printf_newline (Z.to_nat num_rows)).
Proof.
  split.
  - intros Hr. unfold print_matrix.
    replace (Z.to_nat num_rows) with 0%nat by lia. reflexivity.
  - intros Hc. unfold print_matrix.
    generalize 0%Z. induction (Z.to_nat num_rows) as [|n IH]; intros i0; [reflexivity|].
    cbn [print_matrix_loop repeat].
    replace (Z.to_nat num_cols) with 0%nat by lia. cbn [print_matrix_row app].
    f_equal. replace 0%nat with (Z.to_nat num_cols) by lia. apply IH.
Qed.

End PrintMatrixFacts.

(** The 2 x 2 matrix with the columns (1, 2) and (3, 4). *)
Lemma print_matrix_lines_witness :
  printed_lines
    (print_matrix [float_of_Z 1; float_of_Z 2; float_of_Z 3; float_of_Z 4] 2 2) []
  = [[float_of_Z 1; float_of_Z 3]; [float_of_Z 2; float_of_Z 4]].
Proof.
  rewrite print_matrix_lines by (unfold INT_MAX; lia). reflexivity.
Defined.

Lemma print_matrix_each_cell_once_witness :
  Permutation
    (printed_values
       (print_matrix [float_of_Z 1; float_of_Z 2; float_of_Z 3; float_of_Z 4] 2 2))
    [float_of_Z 1; float_of_Z 2; float_of_Z 3; float_of_Z 4].
Proof.
  apply print_matrix_each_cell_once; unfold INT_MAX; simpl; lia.
Defined.

(** ** Printing a product *)

Section PrintProduct.
Local Open Scope R_scope.

(** [print_matrix] after [matmul]: under the contract of DGEMM, printing
    the M x N array [matmul] leaves gives M lines, line i holding the N
    entries (i, 0), (i, 1), ... of A^T B. *)
Theorem print_matrix_matmul (DGEMM : DGEMM_t R) (M N K : Z) (A B C : list R)
    (Hcontract : dgemm_contract DGEMM)
    (HM : (0 <= M)%Z) (HN : (0 <= N)%Z) (HK : (0 <= K)%Z)
    (HMN : (M * N <= INT_MAX)%Z)
    (HA : Z.of_nat (length A) = (K * M)%Z)
    (HB : Z.of_nat (length B) = (K * N)%Z)
    (HC : Z.of_nat (length C) = (M * N)%Z) :
  printed_lines (print_matrix (matmul DGEMM M N K A B C) M N) []
  = map (fun i : nat =>
           map (fun j : nat => At_B_entry K A B (Z.of_nat i) (Z.of_nat j))
               (seq 0 (Z.to_nat N)))
        (seq 0 (Z.to_nat M)).
Proof.
  destruct (matmul_entry A B C Hcontract HM HN HK HA HB HC) as [_ Hent].
  unfold print_matrix. rewrite print_matrix_loop_lines.
  apply map_ext_in. intros i Hi. apply in_seq in Hi.
  unfold row_of. apply map_ext_in. intros j Hj. apply in_seq in Hj.
  rewrite Z.add_0_l. apply Hent; lia.
Qed.

Lemma print_matrix_matmul_witness :
  printed_lines (print_matrix (matmul dgemm_ref 2 1 2 [1; 2; 3; 4] [5; 6] [0; 0]) 2 1) []
  = [[At_B_entry 2 [1; 2; 3; 4] [5; 6] 0 0]; [At_B_entry 2 [1; 2; 3; 4] [5; 6] 1 0]].
Proof.
  apply (@print_matrix_matmul dgemm_ref 2 1 2 [1; 2; 3; 4] [5; 6] [0; 0]
           dgemm_ref_contract); unfold INT_MAX; simpl; lia.
Defined.

End PrintProduct.

(* ================================================================== *)
(** * [dci_clear] and [dci_reset] *)
(* ================================================================== *)

Lemma nth_skipn_add {A : Type} (d : nat) (l : list A) (i : nat) (x : A) :
  nth i (skipn d l) x = nth (d + i) l x.
Proof.
  revert l; induction d as [|d IH]; intros l; [reflexivity|].
  destruct l as [|a l]; [now destruct i|]. cbn [skipn plus nth]. apply IH.
Qed.

Lemma nth_firstn_lt {A : Type} (d : nat) (l : list A) (i : nat) (x : A) :
  (i < d)%nat -> nth i (firstn d l) x = nth i l x.
Proof.
  revert l i; induction d as [|d IH]; intros l i Hi; [lia|].
  destruct l as [|a l]; [reflexivity|]. destruct i as [|i]; [reflexivity|].
  cbn [firstn nth]. apply IH. lia.
Qed.

Section BankFacts.
Context {D : Type} {HD : Double D} {HL : Libm D}.

Lemma rand_normal_n_length (n : nat) (st st' : rn_static D) (draws rest xs : list D) :
  rand_normal_n n st draws = Some (xs, st', rest) -> length xs = n.
Proof.
  revert st draws xs; induction n as [|n IH]; intros st draws xs; cbn [rand_normal_n].
  - intros Hs. inversion Hs; subst. reflexivity.
  - destruct (rand_normal st draws) as [[[x st1] d1]|]; [|discriminate].
    destruct (rand_normal_n n st1 d1) as [[[xs' st2] d2]|] eqn:Hrec; [|discriminate].
    intros Hs. inversion Hs; subst. simpl. f_equal. eapply IH; eauto.
Qed.

(** The sum of squares of a column, as the sum of its terms in order. *)
Lemma sum_squares_dsum (col : list D) :
  fold_left (fun acc x => dadd acc (dmul x x)) col (dofZ 0)
  = dsum (fun l => dmul (nth l col (dofZ 0)) (nth l col (dofZ 0))) (length col).
Proof.
  induction col as [|x col IH] using rev_ind; [reflexivity|].
  rewrite fold_left_app, length_app. cbn [fold_left length].
  rewrite Nat.add_1_r. cbn [dsum]. rewrite IH. f_equal.
  - apply dsum_ext. intros i Hi. now rewrite !app_nth1 by exact Hi.
  - now rewrite nth_middle.
Qed.

Lemma normalize_col_length (col : list D) : length (normalize_col col) = length col.
Proof. unfold normalize_col. cbv zeta. apply length_map. Qed.

Lemma normalize_col_nth (col : list D) (i : nat) :
  (i < length col)%nat ->
  nth i (normalize_col col) (dofZ 0)
  = ddiv (nth i col (dofZ 0))
      (dsqrt (dsum (fun l => dmul (nth l col (dofZ 0)) (nth l col (dofZ 0)))
                (length col))).
Proof.
  intros Hi. unfold normalize_col. cbv zeta. rewrite sum_squares_dsum.
  set (norm := dsqrt _).
  rewrite nth_indep with (d' := ddiv (dofZ 0) norm) by (now rewrite length_map).
  now rewrite map_nth with (f := fun x => ddiv x norm).
Qed.

(** The bank as [dci_gen_proj_vec] lays it out: cell i of column j holds the
    normal value drawn for it, divided by the norm of the values drawn for
    column j. *)
Lemma bank_cells (d n : nat) (xs : list D) :
  length xs = (d * n)%nat ->
  length (concat (map normalize_col (columns d n xs))) = (d * n)%nat /\
  forall j i, (j < n)%nat -> (i < d)%nat ->
    nth (i + j * d) (concat (map normalize_col (columns d n xs))) (dofZ 0)
    = ddiv (nth (i + j * d) xs (dofZ 0))
        (dsqrt (dsum (fun l => dmul (nth (l + j * d) xs (dofZ 0))
                                    (nth (l + j * d) xs (dofZ 0))) d)).
Proof.
  revert xs. induction n as [|n IH]; intros xs Hlen.
  - split; [simpl; lia|]. intros j i Hj. lia.
  - cbn [columns map concat].
    assert (Hcol : length (firstn d xs) = d) by (rewrite length_firstn; nia).
    assert (Hrest : length (skipn d xs) = (d * n)%nat) by (rewrite length_skipn; nia).
    destruct (IH (skipn d xs) Hrest) as [IHlen IHcell].
    split; [rewrite length_app, normalize_col_length, Hcol, IHlen; nia|].
    intros [|j] i Hj Hi.
    + rewrite Nat.mul_0_l, Nat.add_0_r.
      rewrite app_nth1 by (rewrite normalize_col_length; lia).
      rewrite normalize_col_nth by lia. rewrite Hcol.
      rewrite nth_firstn_lt by exact Hi. do 2 f_equal.
      apply dsum_ext. intros l Hl.
      rewrite ?Nat.mul_0_l, ?Nat.add_0_r. now rewrite !nth_firstn_lt by exact Hl.
    + rewrite app_nth2 by (rewrite normalize_col_length; nia).
      rewrite normalize_col_length, Hcol.
      replace (i + S j * d - d)%nat with (i + j * d)%nat by nia.
      rewrite IHcell by lia. rewrite nth_skipn_add.
      replace (d + (i + j * d))%nat with (i + S j * d)%nat by nia.
      do 2 f_equal. apply dsum_ext. intros l Hl. rewrite nth_skipn_add.
      now replace (d + (l + j * d))%nat with (l + S j * d)%nat by nia.
Qed.

End BankFacts.

Section ClearReset.
Context {D : Type} {HD : Double D} {HL : Libm D}.
Variable DGEMM : DGEMM_t D.

(** C6.  [dci_clear] always returns; it leaves an index with no position
    file, no data pointer and all counters at zero, with the projection bank
    and the three dimensions as they were, and it takes no draw: the
    statics of [rand_normal] and the draws left are those before the call.
    [dci_reset], when the draws left suffice for dim * L * L_s calls of
    [rand_normal], returns the same cleared index but for the bank, and
    the statics and draws those calls leave; the new bank has dim * L * L_s
    cells, cell i of column j being the normal value drawn for it divided
    by the L2-norm of the dim values drawn for column j; it is the index
    and the state a fresh [dci_init] of the same shape gives.  When the
    draws do not suffice the reset is refused and nothing changes. *)
Theorem dci_clear_reset_frame (w : world D) :
  (exists w',
     run_call DGEMM Call_clear w = (w', Ok None) /\
     w_static w' = w_static w /\ w_draws w' = w_draws w /\
     proj_vec (w_inst w') = proj_vec (w_inst w) /\
     index_dim (w_inst w') = index_dim (w_inst w) /\
     num_comp_indices (w_inst w') = num_comp_indices (w_inst w) /\
     num_simp_indices (w_inst w') = num_simp_indices (w_inst w) /\
     indices (w_inst w') = [] /\ data (w_inst w') = [] /\
     next_level_ranges (w_inst w') = [] /\ num_finest_level_points (w_inst w') = [] /\
     num_points (w_inst w') = 0%Z /\ index_levels (w_inst w') = 0%Z /\
     num_coarse_points (w_inst w') = 0%Z) /\
  (forall xs st' rest,
     rand_normal_n
       (Z.to_nat (index_dim (w_inst w)
                  * (num_comp_indices (w_inst w) * num_simp_indices (w_inst w))))
       (w_static w) (w_draws w) = Some (xs, st', rest) ->
     exists w',
       run_call DGEMM Call_reset w = (w', Ok None) /\
       w_static w' = st' /\ w_draws w' = rest /\
       w_inst w'
       = mk_dci (index_dim (w_inst w)) (num_comp_indices (w_inst w))
           (num_simp_indices (w_inst w)) 0 0 0 [] (proj_vec (w_inst w')) [] [] [] /\
       ((0 < index_dim (w_inst w))%Z -> (0 < num_comp_indices (w_inst w))%Z ->
        (0 < num_simp_indices (w_inst w))%Z ->
        dci_init (index_dim (w_inst w)) (num_comp_indices (w_inst w))
          (num_simp_indices (w_inst w)) (w_static w) (w_draws w)
        = Ok (w_inst w', st', rest)) /\
       ((0 <= index_dim (w_inst w))%Z ->
        (0 <= num_comp_indices (w_inst w) * num_simp_indices (w_inst w))%Z ->
        Z.of_nat (length (proj_vec (w_inst w')))
        = (index_dim (w_inst w)
           * (num_comp_indices (w_inst w) * num_simp_indices (w_inst w)))%Z /\
        forall i j,
          (0 <= i < index_dim (w_inst w))%Z ->
          (0 <= j < num_comp_indices (w_inst w) * num_simp_indices (w_inst w))%Z ->
          rd (proj_vec (w_inst w')) (i + j * index_dim (w_inst w))%Z
          = ddiv (rd xs (i + j * index_dim (w_inst w))%Z)
              (dsqrt (dsum (fun l : nat =>
                              dmul (rd xs (Z.of_nat l + j * index_dim (w_inst w))%Z)
                                   (rd xs (Z.of_nat l + j * index_dim (w_inst w))%Z))
                        (Z.to_nat (index_dim (w_inst w))))))) /\
  (rand_normal_n
     (Z.to_nat (index_dim (w_inst w)
                * (num_comp_indices (w_inst w) * num_simp_indices (w_inst w))))
     (w_static w) (w_draws w) = None ->
   run_call DGEMM Call_reset w = (w, Out_of_draws)).
Proof.
  split; [|split].
  - eexists. split; [reflexivity|]. cbn [w_static w_draws w_inst].
    unfold dci_clear, index_dim, index_levels.
    cbn [proj_vec dim num_comp_indices num_simp_indices indices data next_level_ranges
         num_finest_level_points num_points num_levels num_coarse_points].
    repeat (split; [reflexivity|]). reflexivity.
  - intros xs st' rest Hdraws.
    pose proof (rand_normal_n_length _ _ _ Hdraws) as Hlen.
    cbn [run_call]. unfold dci_reset, dci_gen_proj_vec, dci_clear, index_dim, index_levels
      in *.
    cbn [dim num_comp_indices num_simp_indices num_points num_levels num_coarse_points
         indices data next_level_ranges num_finest_level_points] in *.
    rewrite Hdraws. eexists. split; [reflexivity|]. cbn [w_static w_draws w_inst proj_vec].
    split; [reflexivity|]. split; [reflexivity|]. split; [reflexivity|]. split.
    + intros Hd HLc HLs. unfold dci_init, dci_gen_proj_vec.
      replace ((dim (w_inst w) <=? 0)%Z || (num_comp_indices (w_inst w) <=? 0)%Z
               || (num_simp_indices (w_inst w) <=? 0)%Z)%bool with false.
      * rewrite Hdraws. reflexivity.
      * symmetry. rewrite !orb_false_iff, !Z.leb_gt. auto.
    + intros Hd Hn.
      assert (Hlen' : length xs
                      = (Z.to_nat (dim (w_inst w))
                         * Z.to_nat (num_comp_indices (w_inst w)
                                     * num_simp_indices (w_inst w)))%nat).
      { rewrite Hlen. apply Z2Nat.inj_mul; assumption. }
      destruct (bank_cells _ _ xs Hlen') as [Hbank Hcell].
      split; [rewrite Hbank; nia|].
      intros i j Hi Hj.
      replace (i + j * dim (w_inst w))%Z
        with (Z.of_nat (Z.to_nat i + Z.to_nat j * Z.to_nat (dim (w_inst w)))) by nia.
      rewrite !rd_in_range, Hcell by lia. do 2 f_equal.
      apply dsum_ext. intros l Hl.
      replace (Z.of_nat l + j * dim (w_inst w))%Z
        with (Z.of_nat (l + Z.to_nat j * Z.to_nat (dim (w_inst w)))) by nia.
      now rewrite rd_in_range.
  - intros Hdraws. cbn [run_call].
    unfold dci_reset, dci_gen_proj_vec, dci_clear, index_dim, index_levels in *.
    cbn [dim num_comp_indices num_simp_indices num_points num_levels num_coarse_points
         indices data next_level_ranges num_finest_level_points] in *.
    rewrite Hdraws. reflexivity.
Qed.

End ClearReset.

(* ================================================================== *)
(** * Instances: the interface on concrete inputs *)
(* ================================================================== *)

Lemma dgemm_ref_inplace {D : Type} {HD : Double D} : dgemm_inplace (@dgemm_ref D HD).
Proof.
  intros ta tb m n k alpha A lda B ldb beta C ldc. unfold dgemm_ref.
  now rewrite length_map, length_seq.
Qed.

(** Decides the comparisons of concrete reals met while a function of the
    engine is evaluated. *)
Ltac R_cmp :=
  match goal with
  | |- context [Rltb ?a ?b] =>
      first [ replace (Rltb a b) with true by (symmetry; apply Rltb_spec; lra)
            | replace (Rltb a b) with false by (symmetry; apply Rltb_false; lra) ]
  | |- context [Rleb ?a ?b] =>
      first [ replace (Rleb a b) with true by (symmetry; apply Rleb_spec; lra)
            | replace (Rleb a b) with false by (symmetry; apply Rleb_false; lra) ]
  end.

Ltac R_eval :=
  cbv -[Rltb Rleb Reqb Rplus Rminus Rmult Rdiv Rabs Ropp Rinv sqrt IZR ln].

Ltac R_run := repeat (R_eval; try R_cmp).

Section Instances.
Local Open Scope R_scope.

(** An empty index on the real line: one composite index of one simple
    index, whose direction is 1. *)
Definition line_index_empty : dci R := mk_dci 1 1 1 0 0 0 [] [1] [] [] [].

(** The index [dci_add] makes of it with the two points 0 and 1. *)
Definition line_index : dci R :=
  mk_dci 1 1 1 2 1 0
    [map (position_file
            (matmul dgemm_ref (1 * 1) 2 1 [1] [0; 1] (repeat 0 (Z.to_nat (1 * 1 * 2))))
            (1 * 1) (Z.to_nat 2))
         (seq 0 (Z.to_nat (1 * 1)))]
    [1] [0; 1] [] [].

(** Both caps at their maxima, as fractions of N. *)
Definition full_cfg : dci_query_config R :=
  mk_dci_query_config false (-1) (-1) 1 1 1 0.

(** A retrieve cap of one point, no visit cap. *)
Definition short_cfg : dci_query_config R :=
  mk_dci_query_config false (-1) 1 0 0 1 0.

(** A blind configuration: visit cap 2, retrieve cap 1. *)
Definition blind_cfg : dci_query_config R :=
  mk_dci_query_config true 2 1 0 0 1 0.

Lemma dci_add_line :
  dci_add dgemm_ref line_index_empty 1 2 [0; 1] 1 full_cfg = Ok line_index.
Proof. reflexivity. Qed.

Lemma full_cfg_maximal : caps_maximal full_cfg 2 1 1.
Proof.
  unfold caps_maximal, visit_cap, retrieve_cap, effective_cap, full_cfg.
  cbn [num_to_visit num_to_retrieve prop_to_visit prop_to_retrieve Z.leb Z.compare].
  R_ops. replace (Rltb 0 1) with true by (symmetry; apply Rltb_spec; lra).
  split; intros c Hc; inversion Hc; subst; apply Rleb_spec; simpl; lra.
Qed.

Lemma full_cfg_checked : query_config_error line_index 1 1 full_cfg = false.
Proof. R_run. reflexivity. Qed.

Lemma short_cfg_checked : query_config_error line_index 1 2 short_cfg = false.
Proof. R_run. reflexivity. Qed.

Lemma blind_cfg_checked : query_config_error line_index 1 1 blind_cfg = false.
Proof. R_run. reflexivity. Qed.


(** A retrieve cap of 1 and k = 2: the query ends with one point
    evaluated. *)
Lemma dci_query_returns_sorted_heap_witness :
  exists ids dists counts,
    dci_query dgemm_ref line_index 1 1 [1 / 4] 2 short_cfg = Ok (ids, dists, counts) /\
    nth 0 counts 0%Z = Z.of_nat (length (nth 0 ids [])).
Proof.
  destruct (@dci_query_returns_sorted_heap R Double_R DoubleOrder_R dgemm_ref line_index
              1 1 [1 / 4] 2 short_cfg short_cfg_checked ltac:(simpl; lia) eq_refl)
    as (ids & dists & counts & Heq & _ & _ & _ & Hall).
  exists ids, dists, counts. split; [exact Heq|].
  destruct (Hall 0%nat ltac:(simpl; lia)) as (n & _ & _ & _ & _ & Hcount & _).
  exact Hcount.
Defined.


Lemma query_stops_at_effective_cap_witness :
  exists n,
    query_final line_index 2 1 [1 / 4] [1 / 4] short_cfg
    = query_after line_index 2 1 [1 / 4] [1 / 4] short_cfg n /\
    stops_at short_cfg 2 (query_after line_index 2 1 [1 / 4] [1 / 4] short_cfg n).
Proof.
  destruct (proj2 (proj2 (@query_stops_at_effective_cap R Double_R DoubleOrder_R
                            line_index 2 1 [1 / 4] [1 / 4] short_cfg)))
    as (n & Hfin & Hstop & _).
  exists n. split; [exact Hfin|exact Hstop].
Defined.

(** The index with the statics of program start and the two draws 3/4,
    1/2, which one call of [rand_normal] takes. *)
Definition line_world : world R := mk_world line_index rn_init [3 / 4; 1 / 2].

Lemma line_world_draws :
  rand_normal_n
    (Z.to_nat (index_dim (w_inst line_world)
               * (num_comp_indices (w_inst line_world)
                  * num_simp_indices (w_inst line_world))))
    (w_static line_world) (w_draws line_world)
  = Some ([(2 * (3 / 4) - 1)
           * sqrt (rn_sqrt_arg ((2 * (3 / 4) - 1) * (2 * (3 / 4) - 1)
                                + (2 * (1 / 2) - 1) * (2 * (1 / 2) - 1)))],
          mk_rn_static (2 * (3 / 4) - 1) (2 * (1 / 2) - 1)
            ((2 * (3 / 4) - 1) * (2 * (3 / 4) - 1) + (2 * (1 / 2) - 1) * (2 * (1 / 2) - 1))
            1%Z,
          []).
Proof.
  change (Z.to_nat _) with 1%nat. cbn [rand_normal_n line_world w_static w_draws].
  rewrite rand_normal_init_example. reflexivity.
Qed.

Lemma dci_clear_reset_frame_witness :
  exists w',
    run_call dgemm_ref Call_reset line_world = (w', Ok None) /\
    w_draws w' = [] /\ indices (w_inst w') = [].
Proof.
  destruct (proj1 (proj2 (@dci_clear_reset_frame R Double_R Libm_R dgemm_ref line_world))
              _ _ _ line_world_draws)
    as (w' & Hrun & _ & Hdraws & Hinst & _).
  exists w'. split; [exact Hrun|]. split; [exact Hdraws|].
  rewrite Hinst. reflexivity.
Defined.

End Instances.

(** On binary64 the interface runs.  An index of the four corners of the
    unit square, one composite index of the two axes.  With no visit cap
    and the retrieve cap at N the two nearest corners are returned; with
    the visit cap at N pops the query ends with one point evaluated, and
    the count says so; a blind query returns ids and no distance; a
    request for several levels and a query with k = 0 are refused. *)
Definition square_empty : dci PrimFloat.float :=
  mk_dci 2 1 2 0 0 0 [] [float_of_Z 1; float_of_Z 0; float_of_Z 0; float_of_Z 1] [] [] [].

Definition square_points : list PrimFloat.float :=
  [float_of_Z 0; float_of_Z 0; float_of_Z 1; float_of_Z 0;
   float_of_Z 0; float_of_Z 1; float_of_Z 1; float_of_Z 1].

Definition square_query (k : Z) (cfg : dci_query_config PrimFloat.float)
    : result (list (list Z) * list (list PrimFloat.float) * list Z) :=
  match dci_add dgemm_ref square_empty 2 4 square_points 1 cfg with
  | Ok inst => dci_query dgemm_ref inst 2 1 [float_of_Z 1; float_of_Z 1] k cfg
  | Configuration_error => Configuration_error
  | Unspecified => Unspecified
  | Out_of_draws => Out_of_draws
  end.

Example square_query_retrieve_all :
  square_query 2 (mk_dci_query_config false (-1) (-1) (float_of_Z 0) (float_of_Z 1) 1 0)
  = Ok ([[3%Z; 2%Z]], [[float_of_Z 0; float_of_Z 1]], [2%Z]).
Proof. vm_compute. reflexivity. Qed.

Example square_query_visit_cap :
  square_query 2 (mk_dci_query_config false (-1) (-1) (float_of_Z 1) (float_of_Z 1) 1 0)
  = Ok ([[3%Z]], [[float_of_Z 0]], [1%Z]).
Proof. vm_compute. reflexivity. Qed.

Example square_query_blind :
  square_query 3 (mk_dci_query_config true 20 2 (float_of_Z 0) (float_of_Z 0) 1 0)
  = Ok ([[3%Z; 2%Z]], [[]], [2%Z]).
Proof. vm_compute. reflexivity. Qed.

Example square_query_no_neighbour :
  square_query 0 (mk_dci_query_config false (-1) (-1) (float_of_Z 0) (float_of_Z 1) 1 0)
  = Configuration_error.
Proof. vm_compute. reflexivity. Qed.

Example square_add_levels :
  dci_add dgemm_ref square_empty 2 4 square_points 2
    (mk_dci_query_config false (-1) (-1) (float_of_Z 0) (float_of_Z 1) 1 0)
  = Unspecified.
Proof. vm_compute. reflexivity. Qed.
